(** * Prototype's event registry, responders, dispatch and delegation

    A shallow embedding of [src/prototype/dom/event.js]: the per-node event
    registry ([Event.cache]), the responder closures, [observe],
    [stopObserving], [fire], [Event.Handler] and [on], together with the part
    of the host platform they talk to (listener lists, event dispatch along
    the ancestor chain, [parentNode], [matches]); and of the functions of
    [src/prototype/dom/dom.js] that share the identities of the nodes with
    it or walk the same chain ([Element.ancestors], [Element.up],
    [Element.store], [Element.retrieve], [Element.purge]). *)

From Stdlib Require Import Ascii.
From stdpp Require Import gmap strings list fin_maps.

Open Scope string_scope.
Open Scope list_scope.

(** ** JavaScript values *)

(** DOM nodes are references; [window] and [document] are the two the source
    compares against by identity. *)
Definition Node := nat.
Definition window : Node := 0.
Definition document : Node := 1.

(** The values that reach the event code through dynamically typed
    positions (the memo of [fire], the selector and callback of [on]).
    Numbers are the integers: the event code only hands numbers on, and
    what is proved of the traversal code of [dom.js] is proved of integer
    arguments; fractions and [NaN] are not represented. *)
Inductive Value :=
| VUndefined
| VNull
| VBoolean (b : bool)
| VNumber (n : Z)
| VString (s : string)
| VObject (ref : nat)          (* an application object, by reference *)
| VEmptyObject                 (* the literal {} *)
| VFunction (f : nat).         (* a user function, by reference *)

Global Instance Value_eq_dec : EqDecision Value.
Proof. solve_decision. Defined.

(** ToBoolean, as used by [!x] and [x || y]. *)
Definition truthy (v : Value) : bool :=
  match v with
  | VUndefined | VNull => false
  | VBoolean b => b
  | VNumber n => negb (n =? 0)%Z
  | VString s => negb (String.eqb s "")
  | VObject _ | VEmptyObject | VFunction _ => true
  end.

Definition isUndefined (v : Value) : bool :=
  match v with VUndefined => true | _ => false end.

Definition isFunction (v : Value) : bool :=
  match v with VFunction _ => true | _ => false end.

(** Functions that can be registered as handlers: a user function, or
    [this.handleEvent.bind(this)] of an [Event.Handler], which carries the
    fields of the object it is bound to. *)
Inductive Fn :=
| UserFn (f : nat)
| HandleEventBound (id : nat) (element : Node) (eventName : string)
    (selector callback : Value).

Global Instance Fn_eq_dec : EqDecision Fn.
Proof. solve_decision. Defined.

Inductive Error := TypeError | SyntaxError.

Global Instance Error_eq_dec : EqDecision Error.
Proof. solve_decision. Defined.

(** ** Registry data *)

(** [eventName.includes(':')] *)
Fixpoint includes_colon (s : string) : bool :=
  match s with
  | EmptyString => false
  | String c s' => if Ascii.eqb c ":"%char then true else includes_colon s'
  end.

Definition isCustomEvent (eventName : string) : bool := includes_colon eventName.

(** A responder is a closure over [(uid, eventName, handler)]; [fn] is the
    identity of the function object.  The two constructors are the two
    function expressions of [createResponder] and
    [createResponderForCustomEvent]. *)
Inductive Responder :=
| NativeResponder (fn uid : nat) (eventName : string) (handler : Fn)
| CustomResponder (fn uid : nat) (eventName : string) (handler : Fn).

Global Instance Responder_eq_dec : EqDecision Responder.
Proof. solve_decision. Defined.

Definition r_uid (r : Responder) : nat :=
  match r with NativeResponder _ u _ _ | CustomResponder _ u _ _ => u end.
Definition r_eventName (r : Responder) : string :=
  match r with NativeResponder _ _ e _ | CustomResponder _ _ e _ => e end.
Definition r_handler (r : Responder) : Fn :=
  match r with NativeResponder _ _ _ h | CustomResponder _ _ _ h => h end.
Definition r_fn (r : Responder) : nat :=
  match r with NativeResponder f _ _ _ | CustomResponder f _ _ _ => f end.

(** [{ responder: responder, handler: handler }] *)
Record Entry := mkEntry { responder : Responder; handler : Fn }.

Global Instance Entry_eq_dec : EqDecision Entry.
Proof. solve_decision. Defined.

(** What a property read [registry[key]] can yield: the node stored under
    ['element'], an array of entries, or a member that every object inherits
    from [Object.prototype] (a function or object with the given [length],
    if it has one).  The nodes are taken to have no [length] of their own:
    [form] and [select] elements, which have one, are left out. *)
Inductive Slot :=
| SElement (n : Node)
| SEntries (entries : list Entry)
| SInherited (len : option nat).

Global Instance Slot_eq_dec : EqDecision Slot.
Proof. solve_decision. Defined.

(** The members of [Object.prototype] with the [length] of each. *)
Definition Object_prototype : list (string * option nat) :=
  [ ("constructor", Some 1); ("hasOwnProperty", Some 1);
    ("isPrototypeOf", Some 1); ("propertyIsEnumerable", Some 1);
    ("toLocaleString", Some 0); ("toString", Some 0); ("valueOf", Some 0);
    ("__defineGetter__", Some 2); ("__defineSetter__", Some 2);
    ("__lookupGetter__", Some 1); ("__lookupSetter__", Some 1);
    ("__proto__", None) ].

Definition inherited (key : string) : option (option nat) :=
  (λ found, snd (snd found)) <$> list_find (λ p, bool_decide (fst p = key)) Object_prototype.

(** The own properties of a registry object [{ element: element, ... }]. *)
Abbreviation Registry := (gmap string Slot).

(** [registry[key]]: own property first, then the prototype. *)
Definition js_get (registry : Registry) (key : string) : option Slot :=
  match registry !! key with
  | Some s => Some s
  | None => SInherited <$> inherited key
  end.

(** A listener of the platform: [addEventListener(type, callback, false)]. *)
Record Listener := mkListener { l_type : string; l_callback : Responder }.

Global Instance Listener_eq_dec : EqDecision Listener.
Proof. solve_decision. Defined.

(** ** The mutable world *)

Record World := mkWorld {
  UID : nat;                              (* Element.Storage.UID *)
  prototypeUID : gmap Node nat;           (* element._prototypeUID *)
  cache : gmap nat Registry;              (* Event.cache *)
  listeners : gmap Node (list Listener);  (* the platform's listener lists *)
  closures : nat                          (* function objects created so far *)
}.

(** The state after the scripts have loaded: [Element.Storage = { UID: 1 }],
    [Event.cache = {}]. *)
Definition initial : World := mkWorld 1 ∅ ∅ ∅ 0.

Definition set_cache (f : gmap nat Registry → gmap nat Registry) (w : World) : World :=
  mkWorld (UID w) (prototypeUID w) (f (cache w)) (listeners w) (closures w).

Definition set_listeners (f : gmap Node (list Listener) → gmap Node (list Listener))
    (w : World) : World :=
  mkWorld (UID w) (prototypeUID w) (cache w) (f (listeners w)) (closures w).

(** ** Computations that may throw *)

Inductive Outcome (A : Type) :=
| Ok (a : A) (w : World)
| Throw (e : Error) (w : World).
Arguments Ok {A} a w.
Arguments Throw {A} e w.

Definition M (A : Type) : Type := World → Outcome A.

Global Instance M_ret : MRet M := λ A a w, Ok a w.
Global Instance M_bind : MBind M := λ A B k m w,
  match m w with
  | Ok a w' => k a w'
  | Throw e w' => Throw e w'
  end.

Definition throw {A} (e : Error) : M A := λ w, Throw e w.
Definition get : M World := λ w, Ok w w.
Definition modify (f : World → World) : M unit := λ w, Ok tt (f w).

Definition world_of {A} (o : Outcome A) : World :=
  match o with Ok _ w | Throw _ w => w end.

(** ** Identity of nodes *)

Definition getUniqueElementID (element : Node) : M nat := λ w,
  if decide (element = window) then Ok 0 w
  else match prototypeUID w !! element with
       | Some uid => Ok uid w
       | None =>
           Ok (UID w)
              (mkWorld (S (UID w)) (<[element := UID w]> (prototypeUID w))
                       (cache w) (listeners w) (closures w))
       end.

Definition uid_or_lookup (element : Node) (uid : option nat) : M nat :=
  match uid with
  | Some u => mret u
  | None => getUniqueElementID element
  end.

(** ** The registry of one node *)

(** Returns the uid under which the registry object lives in the cache
    together with its properties: later writes to [registry] go to
    [Event.cache[uid]], the object both names refer to. *)
Definition getOrCreateRegistryFor (element : Node) (uid : option nat)
    : M (nat * Registry) :=
  uid ← uid_or_lookup element uid;
  w ← get;
  match cache w !! uid with
  | Some registry => mret (uid, registry)
  | None =>
      modify (set_cache (insert uid {[ "element" := SElement element ]}));;
      mret (uid, ({[ "element" := SElement element ]} : Registry))
  end.

Definition destroyRegistryForElement (element : Node) (uid : option nat) : M unit :=
  uid ← uid_or_lookup element uid;
  modify (set_cache (delete uid)).

(** [registry[key] = slot] and [delete registry[key]] on the registry object
    stored under [uid]. *)
Definition registry_set (uid : nat) (key : string) (slot : Slot) : M unit :=
  modify (set_cache (alter (insert key slot) uid)).

Definition registry_delete (uid : nat) (key : string) : M unit :=
  modify (set_cache (alter (delete key) uid)).

(** ** Responders *)

Definition createResponderForCustomEvent (uid : nat) (eventName : string)
    (handler : Fn) : M Responder := λ w,
  Ok (CustomResponder (closures w) uid eventName handler)
     (mkWorld (UID w) (prototypeUID w) (cache w) (listeners w) (S (closures w))).

Definition createResponder (uid : nat) (eventName : string) (handler : Fn)
    : M Responder :=
  if isCustomEvent eventName
  then createResponderForCustomEvent uid eventName handler
  else λ w,
    Ok (NativeResponder (closures w) uid eventName handler)
       (mkWorld (UID w) (prototypeUID w) (cache w) (listeners w) (S (closures w))).

(** ** register and unregister *)

Definition has_handler (h : Fn) (e : Entry) : bool := bool_decide (handler e = h).

(** [let i = entries.length; while (i--) if (entries[i].handler === handler)]:
    the greatest index whose entry has the handler. *)
Fixpoint last_index_of (h : Fn) (entries : list Entry) : option nat :=
  match entries with
  | [] => None
  | e :: rest =>
      match last_index_of h rest with
      | Some i => Some (S i)
      | None => if has_handler h e then Some 0 else None
      end
  end.

Definition register (element : Node) (eventName : string) (handler : Fn)
    : M (option Entry) :=
  '(uid0, registry) ← getOrCreateRegistryFor element None;
  (* if (!registry[eventName]) registry[eventName] = []; *)
  entries ← match js_get registry eventName with
            | Some slot => mret slot
            | None => registry_set uid0 eventName (SEntries []);; mret (SEntries [])
            end;
  match entries with
  | SEntries entries =>
      match last_index_of handler entries with
      | Some _ => mret None
      | None =>
          uid ← getUniqueElementID element;
          responder ← createResponder uid eventName handler;
          let entry := mkEntry responder handler in
          registry_set uid0 eventName (SEntries (entries ++ [entry]));;
          mret (Some entry)
      end
  | SInherited (Some (S _)) =>
      (* entries[i] is undefined: reading .handler throws *)
      throw TypeError
  | SInherited _ | SElement _ =>
      (* the scan finds no index; entries.push is not a function *)
      uid ← getUniqueElementID element;
      _ ← createResponder uid eventName handler;
      throw TypeError
  end.

(** The clean-up shared by the branches of [unregister] once
    [entries.length === 0]. *)
Definition unregister_cleanup (element : Node) (uid0 : nat) (eventName : string)
    : M unit :=
  registry_delete uid0 eventName;;
  w ← get;
  match cache w !! uid0 with
  | Some registry =>
      if bool_decide (size registry = 1) && bool_decide (is_Some (registry !! "element"))
      then destroyRegistryForElement element None
      else mret tt
  | None => mret tt
  end.

Definition unregister (element : Node) (eventName : string) (handler : Fn)
    : M (option Entry) :=
  '(uid0, registry) ← getOrCreateRegistryFor element None;
  match js_get registry eventName with
  | Some (SEntries entries) =>
      match last_index_of handler entries with
      | Some i =>
          (* entries.splice(index, 1) on the array held by the registry *)
          registry_set uid0 eventName (SEntries (delete i entries));;
          (if bool_decide (length (delete i entries) = 0)
           then unregister_cleanup element uid0 eventName else mret tt);;
          mret (entries !! i)
      | None =>
          (if bool_decide (length entries = 0)
           then unregister_cleanup element uid0 eventName else mret tt);;
          mret None
      end
  | None =>
      (* registry[eventName] || []: a new, empty array *)
      unregister_cleanup element uid0 eventName;;
      mret None
  | Some (SInherited (Some (S _))) => throw TypeError
  | Some (SInherited (Some 0)) =>
      unregister_cleanup element uid0 eventName;;
      mret None
  | Some (SInherited None) | Some (SElement _) => mret None
  end.

(** ** The platform's listener lists *)

Definition listeners_of (w : World) (n : Node) : list Listener :=
  default [] (listeners w !! n).

(** [addEventListener]: a listener with the same type and callback is not
    added twice. *)
Definition addEventListener (element : Node) (type : string) (callback : Responder)
    : M unit := λ w,
  let l := mkListener type callback in
  if bool_decide (l ∈ listeners_of w element) then Ok tt w
  else Ok tt (set_listeners (insert element (listeners_of w element ++ [l])) w).

Definition removeEventListener (element : Node) (type : string) (callback : Responder)
    : M unit :=
  modify (λ w, set_listeners
    (insert element (filter (λ l, l ≠ mkListener type callback) (listeners_of w element))) w).

Definition actualEventName (eventName : string) : string :=
  if isCustomEvent eventName then "dataavailable" else eventName.

(** ** observe and stopObserving *)

Definition observe (element : Node) (eventName : string) (handler : Fn) : M Node :=
  entry ← register element eventName handler;
  match entry with
  | None => mret element
  | Some entry =>
      addEventListener element (actualEventName eventName) (responder entry);;
      mret element
  end.

Definition removeEvent (element : Node) (eventName : string) (handler : Responder)
    : M unit :=
  removeEventListener element (actualEventName eventName) handler.

Fixpoint for_each {A} (f : A → M unit) (l : list A) : M unit :=
  match l with
  | [] => mret tt
  | a :: rest => f a;; for_each f rest
  end.

(** [let i = entries.length; while (i--) removeEvent(element, eventName,
    entries[i].responder)] for whatever [registry[eventName]] holds. *)
Definition remove_entries (element : Node) (eventName : string) (slot : Slot)
    : M unit :=
  match slot with
  | SEntries entries =>
      for_each (λ e, removeEvent element eventName (responder e)) (reverse entries)
  | SInherited (Some (S _)) => throw TypeError
  | SInherited _ | SElement _ => mret tt
  end.

(** Stop observing _all_ listeners on an element.  The own keys are visited
    in the order of [map_to_list]; the listeners removed are pairwise
    distinct, so the resulting listener list does not depend on it. *)
Definition stopObservingElement (element : Node) : M unit :=
  uid ← getUniqueElementID element;
  w ← get;
  match cache w !! uid with
  | None => mret tt
  | Some registry =>
      destroyRegistryForElement element (Some uid);;
      for_each (λ '(eventName, slot),
                  if bool_decide (eventName = "element") then mret tt
                  else remove_entries element eventName slot)
               (map_to_list registry)
  end.

(** Stop observing all listeners of a certain event name on an element. *)
Definition stopObservingEventName (element : Node) (eventName : string) : M unit :=
  '(uid0, registry) ← getOrCreateRegistryFor element None;
  registry' ← match js_get registry eventName with
               | Some slot =>
                   registry_delete uid0 eventName;;
                   remove_entries element eventName slot;;
                   mret (delete eventName registry)
               | None => mret registry
               end;
  (* for (let name in registry) if (name !== 'element') return; *)
  if bool_decide (dom registry' ⊆ ({[ "element" ]} : gset string))
  then destroyRegistryForElement element None
  else mret tt.

(** [eventName] and [handler] are [None] when the argument is [undefined].
    With a handler but no event name, [registry[undefined]] reads the key
    ["undefined"] and [removeEvent] fails on [undefined.includes]. *)
Definition stopObserving (element : Node) (eventName : option string)
    (handler : option Fn) : M Node :=
  match eventName, handler with
  | None, None => stopObservingElement element;; mret element
  | Some eventName, None => stopObservingEventName element eventName;; mret element
  | Some eventName, Some handler =>
      entry ← unregister element eventName handler;
      match entry with
      | None => mret element
      | Some entry => removeEvent element eventName (responder entry);; mret element
      end
  | None, Some handler =>
      entry ← unregister element "undefined" handler;
      match entry with
      | None => mret element
      | Some _ => throw TypeError
      end
  end.

(** ** The document tree *)

Inductive NodeType :=
| ElementNode (tagName : string) (type : string)
| TextNode
| OtherNode.

(** The part of the document the event code reads.  Nodes are numbered so
    that a parent comes before its children; [parent] is consulted only
    where it respects that. *)
Record Dom := mkDom {
  nodeType : Node → NodeType;
  parent : Node → option Node;
  valid_selector : string → bool;
  matches : Node → string → bool;
  documentElement : Node;
  document_dispatchEvent : bool
}.

Inductive Completion (A : Type) :=
| Normal (a : A)
| Abrupt (e : Error).
Arguments Normal {A} a.
Arguments Abrupt {A} e.

(** Platform events.  [ev_eventName] and [ev_memo] are the expando
    properties [fire] stamps on the event ([None]: the property is absent). *)
Record DomEvent := mkEvent {
  ev_type : string;
  ev_bubbles : bool;
  ev_cancelable : bool;
  ev_eventName : option string;
  ev_memo : option Value;
  ev_target : option Node;
  ev_currentTarget : option Node
}.

Definition with_target (t : option Node) (ev : DomEvent) : DomEvent :=
  mkEvent (ev_type ev) (ev_bubbles ev) (ev_cancelable ev) (ev_eventName ev)
          (ev_memo ev) t (ev_currentTarget ev).

Definition with_currentTarget (t : option Node) (ev : DomEvent) : DomEvent :=
  mkEvent (ev_type ev) (ev_bubbles ev) (ev_cancelable ev) (ev_eventName ev)
          (ev_memo ev) (ev_target ev) t.

(** What the handlers and the platform make observable. *)
Inductive TraceItem :=
| HandlerCall (h : Fn) (this : option Slot) (ev : DomEvent)
    (* handler.call(element, event) in a responder *)
| CallbackCall (f : nat) (this : Node) (ev : DomEvent) (matched : Node)
    (* this.callback.call(this.element, event, element) in handleEvent *)
| Uncaught (e : Error).
    (* an exception that left a listener *)

Definition toLowerCase_ascii (c : ascii) : ascii :=
  let n := nat_of_ascii c in
  if ((65 <=? n) && (n <=? 90))%nat then ascii_of_nat (n + 32) else c.

Fixpoint toLowerCase (s : string) : string :=
  match s with
  | EmptyString => EmptyString
  | String c s' => String (toLowerCase_ascii c) (toLowerCase s')
  end.

Section Platform.

Variable dom : Dom.

(** What running a user function does to the world. *)
Variable effect : TraceItem → World → World.

Definition parentNode (n : Node) : option Node :=
  if bool_decide (n = window) || bool_decide (n = document) then None
  else match parent dom n with
       | Some p => if bool_decide (p < n) then Some p else None
       | None => None
       end.

Definition tagName (n : Node) : option string :=
  if bool_decide (n = window) || bool_decide (n = document) then None
  else match nodeType dom n with
       | ElementNode t _ => Some t
       | _ => None
       end.

Definition isTextNode (n : Node) : bool :=
  if bool_decide (n = window) || bool_decide (n = document) then false
  else match nodeType dom n with TextNode => true | _ => false end.

(** Modelled from the spec: [Object.isElement] (src/prototype/lang/object.js
    is not part of the sources), the predicate "this value represents an
    element". *)
Definition isElement (n : Node) : bool :=
  match tagName n with Some _ => true | None => false end.

Definition is_radio_input (n : Node) : bool :=
  if bool_decide (n = window) || bool_decide (n = document) then false
  else match nodeType dom n with
       | ElementNode t ty =>
           String.eqb (toLowerCase t) "input" && String.eqb ty "radio"
       | _ => false
       end.

Definition _element (event : DomEvent) : Completion (option Node) :=
  let node := ev_target event in
  let node :=
    match ev_currentTarget event with
    | Some currentTarget =>
        if isElement currentTarget
           && (String.eqb (ev_type event) "load" || String.eqb (ev_type event) "error"
               || (String.eqb (ev_type event) "click" && is_radio_input currentTarget))
        then Some currentTarget else node
    | None => node
    end in
  match node with
  | None => Abrupt TypeError
  | Some node => Normal (if isTextNode node then parentNode node else Some node)
  end.

(** [element.matches(expression)] for a truthy [expression]: the argument
    is converted to a string and parsed as a selector. *)
Definition matches_value (n : Node) (expression : Value) : Completion bool :=
  match expression with
  | VString s =>
      if valid_selector dom s then Normal (matches dom n s) else Abrupt SyntaxError
  | VBoolean true =>
      if valid_selector dom "true" then Normal (matches dom n "true")
      else Abrupt SyntaxError
  | _ => Abrupt SyntaxError
  end.

(** [while (element) { ...; element = element.parentNode; }] *)
Fixpoint find_up (fuel : nat) (element : option Node) (expression : Value)
    : Completion (option Node) :=
  match element with
  | None => Normal None
  | Some n =>
      match (if isElement n then matches_value n expression else Normal false) with
      | Abrupt e => Abrupt e
      | Normal true => Normal (Some n)
      | Normal false =>
          match fuel with
          | 0 => Normal None
          | S fuel' => find_up fuel' (parentNode n) expression
          end
      end
  end.

Definition findElement (event : DomEvent) (expression : Value)
    : Completion (option Node) :=
  match _element event with
  | Abrupt e => Abrupt e
  | Normal element =>
      if negb (truthy expression) then Normal element
      else find_up (default 0 element) element expression
  end.

(** The outcome of running a listener: the world, what was observed, and
    how the function completed. *)
Record Run := mkRun {
  run_world : World;
  run_trace : list TraceItem;
  run_result : Completion Value
}.

Definition call_user (item : TraceItem) (w : World) : Run :=
  mkRun (effect item w) [item] (Normal VUndefined).

(** [Event.Handler#handleEvent] *)
Definition handleEvent (element : Node) (selector callback : Value)
    (event : DomEvent) (w : World) : Run :=
  match findElement event selector with
  | Abrupt e => mkRun w [] (Abrupt e)
  | Normal None => mkRun w [] (Normal VUndefined)
  | Normal (Some found) =>
      match callback with
      | VFunction f => call_user (CallbackCall f element event found) w
      | _ => mkRun w [] (Abrupt TypeError)
      end
  end.

(** [handler.call(element, event)] *)
Definition call_handler (h : Fn) (this : option Slot) (event : DomEvent)
    (w : World) : Run :=
  match h with
  | UserFn _ => call_user (HandlerCall h this event) w
  | HandleEventBound _ element _ selector callback =>
      let r := handleEvent element selector callback event w in
      mkRun (run_world r) (HandlerCall h this event :: run_trace r) (run_result r)
  end.

(** The bodies of the two responder closures. *)
Definition run_responder (r : Responder) (event : DomEvent) (w : World) : Run :=
  match r with
  | NativeResponder _ uid _ handler =>
      match cache w !! uid with
      | None => mkRun w [] (Abrupt TypeError)
      | Some registry => call_handler handler (js_get registry "element") event w
      end
  | CustomResponder _ uid eventName handler =>
      let element := cache w !! uid ≫= λ registry, js_get registry "element" in
      match ev_eventName event with
      | None => mkRun w [] (Normal (VBoolean false))
      | Some name =>
          if negb (String.eqb name eventName) then mkRun w [] (Normal (VBoolean false))
          else call_handler handler element event w
      end
  end.

(** *** Dispatch *)

(** The parent of a node on the propagation path: the tree parent, and
    the window above the document (except for [load]). *)
Definition get_parent (type : string) (n : Node) : option Node :=
  if bool_decide (n = window) then None
  else if bool_decide (n = document)
       then (if String.eqb type "load" then None else Some window)
       else parentNode n.

Fixpoint path_from (fuel : nat) (type : string) (n : Node) : list Node :=
  n :: match fuel with
       | 0 => []
       | S fuel' =>
           match get_parent type n with
           | Some p => path_from fuel' type p
           | None => []
           end
       end.

Definition event_path (type : string) (bubbles : bool) (target : Node) : list Node :=
  if bubbles then path_from target type target else [target].

Definition reported (c : Completion Value) : list TraceItem :=
  match c with Normal _ => [] | Abrupt e => [Uncaught e] end.

(** The listeners of one node, from a copy of its list; a listener that
    has been removed in the meantime is skipped. *)
Fixpoint invoke (snapshot : list Listener) (node : Node) (event : DomEvent)
    (w : World) : World * list TraceItem :=
  match snapshot with
  | [] => (w, [])
  | l :: rest =>
      if bool_decide (l ∈ listeners_of w node) && String.eqb (l_type l) (ev_type event)
      then
        let r := run_responder (l_callback l) event w in
        let '(w', t) := invoke rest node event (run_world r) in
        (w', run_trace r ++ reported (run_result r) ++ t)
      else invoke rest node event w
  end.

Fixpoint propagate (path : list Node) (event : DomEvent) (w : World)
    : World * list TraceItem :=
  match path with
  | [] => (w, [])
  | n :: rest =>
      let '(w1, t1) :=
        invoke (listeners_of w n) n (with_currentTarget (Some n) event) w in
      let '(w2, t2) := propagate rest event w1 in
      (w2, t1 ++ t2)
  end.

(** [target.dispatchEvent(event)]: every listener this system attaches is
    a bubbling-phase listener.  The event has no propagation state:
    [Event.stop] ([stopPropagation]) is not modelled, and the listeners of
    every node of the path run.  A stopped event still runs every listener
    of the node it was dispatched on, and runs no listener that an event
    left alone would not run. *)
Definition dispatchEvent (target : Node) (event : DomEvent) (w : World)
    : World * list TraceItem * DomEvent :=
  let event := with_target (Some target) event in
  let '(w', t) :=
    propagate (event_path (ev_type event) (ev_bubbles event) target) event w in
  (w', t, with_currentTarget None event).

(** *** fire *)

Definition getFireTarget (element : Node) : Node :=
  if negb (bool_decide (element = document)) then element
  else if negb (document_dispatchEvent dom) then documentElement dom
  else element.

Definition fire (element : Node) (eventName : string) (memo : Value)
    (bubble : option bool) (w : World) : World * list TraceItem * DomEvent :=
  let element := getFireTarget element in
  let bubble := match bubble with None => true | Some b => b end in
  let event :=
    mkEvent "dataavailable" bubble true (Some eventName)
            (Some (if truthy memo then memo else VEmptyObject)) None None in
  dispatchEvent element event w.

End Platform.

(** ** Event.Handler and on *)

Record Handler := mkHandler {
  h_element : Node;
  h_eventName : string;
  h_selector : Value;
  h_callback : Value;
  h_handler : Fn
}.

(** [initialize]: [this.handler = this.handleEvent.bind(this)] creates a
    function object. *)
Definition new_Handler (element : Node) (eventName : string)
    (selector callback : Value) : M Handler := λ w,
  Ok (mkHandler element eventName selector callback
        (HandleEventBound (closures w) element eventName selector callback))
     (mkWorld (UID w) (prototypeUID w) (cache w) (listeners w) (S (closures w))).

Definition start (h : Handler) : M Handler :=
  observe (h_element h) (h_eventName h) (h_handler h);; mret h.

Definition stop (h : Handler) : M Handler :=
  stopObserving (h_element h) (Some (h_eventName h)) (Some (h_handler h));; mret h.

Definition on_arguments (selector callback : Value) : Value * Value :=
  if isFunction selector && isUndefined callback then (VNull, selector)
  else (selector, callback).

Definition on (element : Node) (eventName : string) (selector callback : Value)
    : M Handler :=
  let '(selector, callback) := on_arguments selector callback in
  h ← new_Handler element eventName selector callback;
  start h.

(** ** The vocabulary of the properties *)

(** Event names whose registry key is free: not the ['element'] slot of the
    registry object and not a member every object inherits. *)
Definition event_key (k : string) : Prop := k ≠ "element" ∧ inherited k = None.

Global Instance event_key_dec k : Decision (event_key k).
Proof. unfold event_key. apply _. Defined.

(** The identity a node currently has, if any. *)
Definition identity (w : World) (n : Node) : option nat :=
  if decide (n = window) then Some 0 else prototypeUID w !! n.

(** The bucket of bindings of a node for one event name. *)
Definition bucket (registry : Registry) (k : string) : list Entry :=
  match registry !! k with
  | Some (SEntries l) => l
  | _ => []
  end.

Definition entries_of (w : World) (n : Node) (k : string) : list Entry :=
  match identity w n ≫= λ uid, cache w !! uid with
  | Some registry => bucket registry k
  | None => []
  end.

(** The node has a registry entry in the cache. *)
Definition has_entry (w : World) (n : Node) : Prop :=
  ∃ uid registry, identity w n = Some uid ∧ cache w !! uid = Some registry.

Definition listener_of (k : string) (e : Entry) : Listener :=
  mkListener (actualEventName k) (responder e).

(** An active binding: an entry of a bucket whose responder is attached to
    the node. *)
Definition active_binding (w : World) (n : Node) (k : string) (e : Entry) : Prop :=
  e ∈ entries_of w n k ∧ listener_of k e ∈ listeners_of w n.

Definition bound (w : World) (n : Node) (k : string) (h : Fn) : Prop :=
  h ∈ handler <$> entries_of w n k.

Definition mk_responder (fn uid : nat) (k : string) (h : Fn) : Responder :=
  if isCustomEvent k then CustomResponder fn uid k h else NativeResponder fn uid k h.

Definition entry_ok (uid : nat) (k : string) (e : Entry) : Prop :=
  ∃ fn, responder e = mk_responder fn uid k (handler e).

Definition named (k : string) (l : Listener) : Prop := r_eventName (l_callback l) = k.

Global Instance named_dec k l : Decision (named k l).
Proof. unfold named. apply _. Defined.

(** The invariant of the registry and of the listener lists it mirrors. *)
Record consistent (w : World) : Prop := mkConsistent {
  uid_positive : 0 < UID w;
  uid_range : ∀ n u, prototypeUID w !! n = Some u → n ≠ window ∧ 0 < u < UID w;
  uid_inj : ∀ n m u,
      prototypeUID w !! n = Some u → prototypeUID w !! m = Some u → n = m;
  cache_owner : ∀ u registry, cache w !! u = Some registry →
      ∃ n, identity w n = Some u ∧ registry !! "element" = Some (SElement n);
  cache_buckets : ∀ u registry k s,
      cache w !! u = Some registry → registry !! k = Some s → k ≠ "element" →
      ∃ l, s = SEntries l ∧ l ≠ [] ∧ NoDup (handler <$> l) ∧ Forall (entry_ok u k) l;
  cache_nonempty : ∀ u registry, cache w !! u = Some registry →
      ∃ k, k ≠ "element" ∧ is_Some (registry !! k);
  listeners_sync : ∀ n k,
      filter (named k) (listeners_of w n) = listener_of k <$> entries_of w n k
}.

(** The calls of the public registration API. *)
Inductive Op :=
| Observe (element : Node) (eventName : string) (handler : Fn)
| StopObserving (element : Node) (eventName : option string) (handler : option Fn).

Definition run_op (op : Op) : M Node :=
  match op with
  | Observe element eventName handler => observe element eventName handler
  | StopObserving element eventName handler => stopObserving element eventName handler
  end.

Fixpoint run_ops (ops : list Op) : M unit :=
  match ops with
  | [] => mret tt
  | op :: rest => run_op op;; run_ops rest
  end.

(** The documented forms of the calls, on event names with a free key:
    [observe(element, eventName, handler)] and [stopObserving(element)],
    [stopObserving(element, eventName)],
    [stopObserving(element, eventName, handler)]. *)
Definition op_ok (op : Op) : Prop :=
  match op with
  | Observe _ k _ => event_key k
  | StopObserving _ (Some k) _ => event_key k
  | StopObserving _ None None => True
  | StopObserving _ None (Some _) => False
  end.

Global Instance op_ok_dec op : Decision (op_ok op).
Proof. destruct op as [? ? ?|? [?|] [?|]]; simpl; apply _. Defined.

(** A platform event that carries the event name [k]: of type [k] for a
    native name; of the carrier type and stamped with [k] for a name with a
    colon. *)
Definition carries (k : string) (ev : DomEvent) : Prop :=
  if isCustomEvent k
  then ev_type ev = "dataavailable" ∧ ev_eventName ev = Some k
  else ev_type ev = k.

Global Instance carries_dec k ev : Decision (carries k ev).
Proof. unfold carries. destruct (isCustomEvent k); apply _. Defined.

(** User functions that leave the registrations alone. *)
Definition passive (effect : TraceItem → World → World) : Prop :=
  ∀ item w, cache (effect item w) = cache w ∧ listeners (effect item w) = listeners w.

Definition is_call_of (h : Fn) (item : TraceItem) : Prop :=
  match item with
  | HandlerCall h' _ _ => h' = h
  | _ => False
  end.

Global Instance is_call_of_dec h item : Decision (is_call_of h item).
Proof. destruct item; simpl; apply _. Defined.

Definition calls_of (h : Fn) (t : list TraceItem) : list TraceItem :=
  filter (is_call_of h) t.

Definition no_effect : TraceItem → World → World := λ _ w, w.

Global Instance bound_dec w n k h : Decision (bound w n k h).
Proof. unfold bound. apply _. Defined.

(** ** The effect of the registry operations, stated on worlds *)

(** [getUniqueElementID]: the identity the node has afterwards, and the
    world in which it has it. *)
Definition the_uid (w : World) (n : Node) : nat :=
  if decide (n = window) then 0 else default (UID w) (prototypeUID w !! n).

Definition touch (n : Node) (w : World) : World :=
  if decide (n = window) then w
  else match prototypeUID w !! n with
       | Some _ => w
       | None => mkWorld (S (UID w)) (<[n := UID w]> (prototypeUID w))
                         (cache w) (listeners w) (closures w)
       end.

Definition registry_of (w : World) (n : Node) (uid : nat) : Registry :=
  default {[ "element" := SElement n ]} (cache w !! uid).

(** The binding a successful [observe] appends. *)
Definition new_entry (n : Node) (k : string) (h : Fn) (w : World) : Entry :=
  mkEntry (mk_responder (closures w) (the_uid w n) k h) h.

(** The world after [observe] has added a binding. *)
Definition observed (n : Node) (k : string) (h : Fn) (w : World) : World :=
  let w0 := touch n w in
  let uid := the_uid w n in
  let e := mkEntry (mk_responder (closures w) uid k h) h in
  mkWorld (UID w0) (prototypeUID w0)
    (<[uid := <[k := SEntries (entries_of w n k ++ [e])]> (registry_of w n uid)]> (cache w))
    (<[n := listeners_of w n ++ [listener_of k e]]> (listeners w))
    (S (closures w)).

(** A registry object with no bucket left. *)
Definition only_element (r : Registry) : Prop := delete "element" r = ∅.

Global Instance only_element_dec r : Decision (only_element r).
Proof. unfold only_element. apply _. Defined.

(** The cache after the bucket [k] of [uid] has been replaced by [l]: an
    empty bucket is deleted, and so is a registry without buckets. *)
Definition set_bucket (uid : nat) (k : string) (l : list Entry)
    (c : gmap nat Registry) : gmap nat Registry :=
  match c !! uid with
  | None => c
  | Some r =>
      let r' := match l with [] => delete k r | _ => <[k := SEntries l]> r end in
      if decide (only_element r') then delete uid c else <[uid := r']> c
  end.

(** [w'] is [w] with the entries [removed] taken out of the bucket [k] of
    [n] and their responders detached. *)
Record removal (n : Node) (k : string) (removed : list Entry) (w w' : World) : Prop := {
  rm_UID : UID w' = UID (touch n w);
  rm_prototypeUID : prototypeUID w' = prototypeUID (touch n w);
  rm_closures : closures w' = closures w;
  rm_cache : cache w' =
    set_bucket (the_uid w n) k (filter (λ e, e ∉ removed) (entries_of w n k)) (cache w);
  rm_listeners : ∀ m, listeners_of w' m =
    if decide (m = n)
    then filter (λ l, l ∉ listener_of k <$> removed) (listeners_of w n)
    else listeners_of w m
}.

Record listeners_changed (n : Node) (f : list Listener → list Listener)
    (w w' : World) : Prop := {
  lc_UID : UID w' = UID w;
  lc_prototypeUID : prototypeUID w' = prototypeUID w;
  lc_cache : cache w' = cache w;
  lc_closures : closures w' = closures w;
  lc_listeners : ∀ m, listeners_of w' m =
    if decide (m = n) then f (listeners_of w n) else listeners_of w m
}.

(** [w'] is [w] with the whole registry of [n] destroyed. *)
Record cleared (n : Node) (w w' : World) : Prop := {
  cl_UID : UID w' = UID (touch n w);
  cl_prototypeUID : prototypeUID w' = prototypeUID (touch n w);
  cl_closures : closures w' = closures w;
  cl_cache : cache w' = delete (the_uid w n) (cache w);
  cl_listeners : ∀ m, listeners_of w' m = if decide (m = n) then [] else listeners_of w m
}.

(** ** Traces of passive handlers *)

(** What [handler.call(this, event)] makes observable. *)
Definition handler_items (dom : Dom) (h : Fn) (this : option Slot) (ev : DomEvent)
    : list TraceItem :=
  HandlerCall h this ev ::
  match h with
  | UserFn _ => []
  | HandleEventBound _ element _ selector callback =>
      match findElement dom ev selector with
      | Abrupt e => [Uncaught e]
      | Normal None => []
      | Normal (Some found) =>
          match callback with
          | VFunction f => [CallbackCall f element ev found]
          | _ => [Uncaught TypeError]
          end
      end
  end.

(** What one listener, one node and a whole path contribute to the trace
    of an event when the handlers leave the registrations alone. *)
Definition listener_items (dom : Dom) (w : World) (ev : DomEvent) (l : Listener)
    : list TraceItem :=
  if String.eqb (l_type l) (ev_type ev)
  then let r := run_responder dom no_effect (l_callback l) ev w in
       run_trace r ++ reported (run_result r)
  else [].

Definition node_items (dom : Dom) (w : World) (ev : DomEvent) (n : Node) : list TraceItem :=
  listeners_of w n ≫= listener_items dom w (with_currentTarget (Some n) ev).

Definition path_items (dom : Dom) (w : World) (ev : DomEvent) (path : list Node)
    : list TraceItem :=
  path ≫= node_items dom w ev.

Definition same_registrations (w w' : World) : Prop :=
  cache w' = cache w ∧ listeners w' = listeners w.

(** User functions that leave the registry and the identities alone. *)
Definition registry_preserving (effect : TraceItem → World → World) : Prop :=
  ∀ item w, cache (effect item w) = cache w ∧ UID (effect item w) = UID w
            ∧ prototypeUID (effect item w) = prototypeUID w.

Definition same_registry (w w' : World) : Prop :=
  cache w' = cache w ∧ UID w' = UID w ∧ prototypeUID w' = prototypeUID w.

(** The handler is bound nowhere but, possibly, under [k] on [n]. *)
Definition only_bound_at (w : World) (n : Node) (k : string) (h : Fn) : Prop :=
  ∀ M k', bound w M k' h → M = n ∧ k' = k.

(** The handler is bound on [n] under no name but, possibly, [k]. *)
Definition only_bucket_of (w : World) (n : Node) (k : string) (h : Fn) : Prop :=
  ∀ k', bound w n k' h → k' = k.

(** On the nodes the event [ev] passes when it is dispatched on [n], the
    handler is bound under no name the event carries but, possibly, under
    [k] on [n] itself. *)
Definition only_reached_at (dom : Dom) (w : World) (n : Node) (k : string) (h : Fn)
    (ev : DomEvent) : Prop :=
  ∀ M k', M ∈ event_path dom (ev_type ev) (ev_bubbles ev) n → carries k' ev →
          bound w M k' h → M = n ∧ k' = k.

(** The event [fire] creates, before it is dispatched. *)
Definition fired_event (eventName : string) (memo : Value) (bubble : option bool) : DomEvent :=
  mkEvent "dataavailable" (default true bubble) true (Some eventName)
          (Some (if truthy memo then memo else VEmptyObject)) None None.

(** The chain [n, n.parentNode, n.parentNode.parentNode, ...]. *)
Fixpoint ancestors_from (dom : Dom) (fuel : nat) (n : Node) : list Node :=
  n :: match fuel with
       | 0 => []
       | S fuel' =>
           match parentNode dom n with
           | Some p => ancestors_from dom fuel' p
           | None => []
           end
       end.

Definition ancestors (dom : Dom) (n : Node) : list Node := ancestors_from dom n n.

Definition selects (dom : Dom) (s : string) (n : Node) : bool :=
  isElement dom n && matches dom n s.

(** ** The properties, as predicates *)

(** An entry exists for a node exactly when the node has an active binding
    (equivalently: when a responder is attached to it). *)
Definition entry_iff_binding (w : World) : Prop :=
  ∀ n, (has_entry w n ↔ ∃ k e, active_binding w n k e)
       ∧ (has_entry w n ↔ listeners_of w n ≠ []).

(** [observe] then [stopObserving] of the same triple return, leave no
    binding of the handler on the node, and an event carrying the name
    that is dispatched on the node does not call the handler. *)
Definition roundtrip_clean (dom : Dom) (effect : TraceItem → World → World)
    (w : World) (N : Node) (E : string) (H : Fn) : Prop :=
  ∃ w1 w2,
    observe N E H w = Ok N w1 ∧
    stopObserving N (Some E) (Some H) w1 = Ok N w2 ∧
    (∀ k, ¬ bound w2 N k H) ∧
    (∀ ev, carries E ev → calls_of H (dispatchEvent dom effect N ev w2).1.2 = []).

(** [observe] twice: the second call changes nothing, the bucket holds the
    handler once, and an event carrying the name calls it once. *)
Definition registers_once (dom : Dom) (effect : TraceItem → World → World)
    (w : World) (N : Node) (E : string) (H : Fn) : Prop :=
  ∃ w1,
    observe N E H w = Ok N w1 ∧
    observe N E H w1 = Ok N w1 ∧
    length (filter (λ e, handler e = H) (entries_of w1 N E)) = 1 ∧
    ∀ ev, carries E ev →
      calls_of H (dispatchEvent dom effect N ev w1).1.2 =
      [HandlerCall H (Some (SElement N))
         (with_currentTarget (Some N) (with_target (Some N) ev))].


(** Every handler [fire] calls is bound, on the path of the event, under
    one of the names [names]. *)
Definition fire_calls_only (names : list string) (dom : Dom)
    (effect : TraceItem → World → World) (w : World) (N : Node) (E : string)
    (memo : Value) (bubble : option bool) : Prop :=
  ∀ h this ev,
    HandlerCall h this ev ∈ (fire dom effect N E memo bubble w).1.2 →
    ∃ M k, M ∈ event_path dom "dataavailable" (default true bubble) (getFireTarget dom N)
           ∧ bound w M k h ∧ k ∈ names ∧ this = Some (SElement M).

(** The events for which [Event.element] answers with the current target
    [R]: [load], [error], and [click] on a radio button. *)
Definition answers_current_target (dom : Dom) (R : Node) (type : string) : Prop :=
  type = "load" ∨ type = "error" ∨ (type = "click" ∧ is_radio_input dom R = true).

(** [on(R, E, F)]: the handler has [F] as callback and no selector, and an
    event reaching [R] from [D] calls [F] with the element the event came
    from: [D], the parent of [D] when [D] is a text node, and [R] for the
    events for which [Event.element] answers with the current target. *)
Definition delegates_unfiltered (dom : Dom) (effect : TraceItem → World → World)
    (w : World) (R : Node) (E : string) (F : nat) : Prop :=
  ∃ h w',
    on R E (VFunction F) VUndefined w = Ok h w' ∧
    h_element h = R ∧ h_selector h = VNull ∧ h_callback h = VFunction F ∧
    ∀ D ev, carries E ev →
      R ∈ event_path dom (ev_type ev) (ev_bubbles ev) D →
      let event := with_currentTarget (Some R) (with_target (Some D) ev) in
      ∃ m, CallbackCall F R event m ∈ (dispatchEvent dom effect D ev w').1.2
           ∧ (answers_current_target dom R (ev_type ev) → m = R)
           ∧ (¬ answers_current_target dom R (ev_type ev) →
              if isTextNode dom D then parentNode dom D = Some m else m = D).

(** The responder returns without calling the handler and without an
    error. *)
Definition aborts_silently (dom : Dom) (effect : TraceItem → World → World)
    (r : Responder) (ev : DomEvent) (w : World) : Prop :=
  run_trace (run_responder dom effect r ev w) = []
  ∧ ∀ e, run_result (run_responder dom effect r ev w) ≠ Abrupt e.

(** ** A small document, for the examples *)

Module Page.
(** window, document, html, body, div.outer, ul#list, li.item, span and
    the text inside the span. *)
Definition html : Node := 2.
Definition body : Node := 3.
Definition outer : Node := 4.
Definition ul : Node := 5.
Definition item : Node := 6.
Definition span : Node := 7.
Definition text : Node := 8.

Definition dom : Dom :=
  mkDom
    (λ n, match n with
          | 2 => ElementNode "HTML" ""
          | 3 => ElementNode "BODY" ""
          | 4 => ElementNode "DIV" ""
          | 5 => ElementNode "UL" ""
          | 6 => ElementNode "LI" ""
          | 7 => ElementNode "SPAN" ""
          | 8 => TextNode
          | _ => OtherNode
          end)
    (λ n, match n with
          | 0 | 1 => None
          | S p => if (p <? 8)%nat then Some p else None
          end)
    (λ _, true)
    (λ n s, (bool_decide (n = 4) && String.eqb s "div")
            || (bool_decide (n = 6) && String.eqb s "li.item"))
    2
    true.

Definition click : DomEvent := mkEvent "click" true true None None None None.

(** The world after [observe(ul, 'dataavailable', f)]. *)
Definition carrier_world : World :=
  world_of (observe ul "dataavailable" (UserFn 1) initial).

(** The world after [on(ul, 'click', 'div', g)]. *)
Definition delegating_world : World :=
  world_of (on ul "click" (VString "div") (VFunction 9) initial).

(** The world after [observe(ul, 'click', f1)] and
    [observe(ul, 'click', f2)]. *)
Definition both_world : World :=
  world_of (run_ops [ Observe ul "click" (UserFn 1);
                      Observe ul "click" (UserFn 2) ] initial).


(** Handlers of which the first, when called, runs
    [stopObserving(ul, 'click', f2)]. *)
Definition stopper : TraceItem → World → World := λ item w,
  match item with
  | HandlerCall (UserFn 1) _ _ =>
      world_of (stopObserving ul (Some "click") (Some (UserFn 2)) w)
  | _ => w
  end.
End Page.

(** ** Traversal, storage and purge of elements

    The part of [src/prototype/dom/dom.js] that shares the identities of
    the nodes with the event registry or walks the same [parentNode] chain:
    [Element.recursivelyCollect], [Element.ancestors], [Element.up],
    [Element.getStorage], [Element.store], [Element.retrieve] and
    [Element.purge].  As in the event code, [$] is the identity on nodes. *)

(** [Hash] ([src/prototype/lang/hash.js] is not part of the sources), by
    what the storage code needs of it: [$H()], [get], [set], [update], and
    that [get] reads what [set] wrote. *)
Class Hash (H : Type) := {
  H_new : H;
  H_get : H → string → Value;
  H_set : H → string → Value → H;
  H_update : H → list (string * Value) → H;
  H_get_new : ∀ key, H_get H_new key = VUndefined;
  H_get_set : ∀ h key value, H_get (H_set h key value) key = value;
  H_get_set_ne : ∀ h key key' value,
      key ≠ key' → H_get (H_set h key value) key' = H_get h key'
}.

(** A hash as a finite map from keys to values. *)
Global Instance gmap_Hash : Hash (gmap string Value).
Proof.
  refine {| H_new := ∅;
            H_get h key := default VUndefined (h !! key);
            H_set h key value := <[key := value]> h;
            H_update h object := foldl (λ h kv, <[kv.1 := kv.2]> h) h object |}.
  - done.
  - intros h key value. by rewrite lookup_insert_eq.
  - intros h key key' value Hne. by rewrite lookup_insert_ne.
Defined.

(** The arguments of [store] after the element: an object full of
    key/value pairs ([arguments.length === 2]), or a key and a value. *)
Inductive StoreArgs :=
| Pairs (object : list (string * Value))
| KeyValue (key : string) (value : Value).

Module Element.

Section Traversal.
Variable dom : Dom.

(** The loop of [recursivelyCollect] for the property ['parentNode']:
    [while (element = element[property]) { ... }].  A parent has a smaller
    number than its child, so the number of the node is fuel enough for
    the whole chain. *)
Fixpoint collect (fuel : nat) (element : Node) (maximumLength : Value)
    (elements : list Node) : list Node :=
  match parentNode dom element with
  | None => elements
  | Some element =>
      let elements := if isElement dom element then elements ++ [element] else elements in
      if decide (maximumLength = VNumber (Z.of_nat (length elements))) then elements
      else match fuel with
           | 0 => elements
           | S fuel' => collect fuel' element maximumLength elements
           end
  end.

Definition recursivelyCollect (element : Node) (maximumLength : Value) : list Node :=
  let maximumLength := if truthy maximumLength then maximumLength else VNumber (-1) in
  collect element element maximumLength [].

Definition ancestors (element : Node) : list Node :=
  recursivelyCollect element VUndefined.

(** The loop of [_recursivelyFind] for the property ['parentNode']. *)
Fixpoint find (fuel : nat) (element : Node) (expression : Value) (index : Z)
    : Completion (option Node) :=
  match parentNode dom element with
  | None => Normal None
  | Some element =>
      let continue (index : Z) :=
        match fuel with
        | 0 => Normal None
        | S fuel' => find fuel' element expression index
        end in
      (* Skip any non-element nodes. *)
      if negb (isElement dom element) then continue index
      else
        (* Skip any nodes that don't match the expression, if there is one. *)
        match (if truthy expression then matches_value dom element expression
               else Normal true) with
        | Abrupt e => Abrupt e
        | Normal false => continue index
        | Normal true =>
            (* Skip the first [index] matches we find. *)
            if (0 <=? index - 1)%Z then continue (index - 1)%Z
            else Normal (Some element)
        end
  end.

(** [index] is an integer when given ([None]: [undefined]); [expression]
    is any value. *)
Definition _recursivelyFind (element : Node) (expression : Value) (index : option Z)
    : Completion (option Node) :=
  let expression := if truthy expression then expression else VNumber 0 in
  let index := default 0%Z index in
  let '(expression, index) :=
    match expression with
    | VNumber n => (VNull, n)
    | _ => (expression, index)
    end in
  find element element expression index.

(** [expression] is [None] when [up] is called with the element alone
    ([arguments.length === 1]). *)
Definition up (element : Node) (expression : option Value) (index : option Z)
    : Completion (option Node) :=
  match expression with
  | None => Normal (parentNode dom element)
  | Some expression => _recursivelyFind element expression index
  end.

End Traversal.

Section Storage.
Context {H : Type} `{!Hash H}.

(** [Element.Storage] without its [UID] counter (which is the [UID] of the
    world): the hashes, by identity. *)
Abbreviation Hashes := (gmap nat H).

(** Returns the identity under which the hash lives in [Element.Storage]:
    later writes to the hash go to [Element.Storage[uid]]. *)
Definition getStorage (element : Node) (Storage : Hashes) : M (nat * Hashes) :=
  uid ← getUniqueElementID element;
  mret (uid, match Storage !! uid with
             | Some _ => Storage
             | None => <[uid := H_new]> Storage
             end).

Definition store (element : Node) (args : StoreArgs) (Storage : Hashes)
    : M (Node * Hashes) :=
  '(uid, Storage) ← getStorage element Storage;
  mret (element,
        alter (λ storage, match args with
                          | Pairs object => H_update storage object
                          | KeyValue key value => H_set storage key value
                          end) uid Storage).

Definition retrieve (element : Node) (key : string) (defaultValue : Value)
    (Storage : Hashes) : M (Value * Hashes) :=
  '(uid, Storage) ← getStorage element Storage;
  let value := H_get (default H_new (Storage !! uid)) key in
  if isUndefined value
  then mret (defaultValue, alter (λ storage, H_set storage key defaultValue) uid Storage)
  else mret (value, Storage).

(** [element._prototypeUID = undefined] *)
Definition reset_prototypeUID (element : Node) : M unit :=
  modify (λ w, mkWorld (UID w) (delete element (prototypeUID w)) (cache w)
                       (listeners w) (closures w)).

(** Performs cleanup on a single element before it is removed from the
    page. *)
Definition purgeElement (element : Node) (Storage : Hashes) : M Hashes :=
  uid ← getUniqueElementID element;
  if bool_decide (uid = 0) then mret Storage
  else
    stopObserving element None None;;
    reset_prototypeUID element;;
    mret (delete uid Storage).

Fixpoint purge_each (elements : list Node) (Storage : Hashes) : M Hashes :=
  match elements with
  | [] => mret Storage
  | element :: rest =>
      Storage ← purgeElement element Storage;
      purge_each rest Storage
  end.

(** [getElementsByTagName] is the platform's answer to
    [element.getElementsByTagName('*')]; the loop [while (i--)] visits it
    from its end. *)
Definition purge (getElementsByTagName : Node → list Node) (element : Node)
    (Storage : Hashes) : M Hashes :=
  Storage ← purgeElement element Storage;
  purge_each (reverse (getElementsByTagName element)) Storage.

End Storage.
End Element.

(** The element nodes above a node, nearest first. *)
Definition elements_above (dom : Dom) (n : Node) : list Node :=
  filter (λ m, isElement dom m) (tail (ancestors dom n)).

(** The nodes the loop of [_recursivelyFind] counts: elements that match
    the selector [s], if there is an expression. *)
Definition counted (dom : Dom) (expression : Value) (s : string) (m : Node) : Prop :=
  isElement dom m ∧ (truthy expression → matches dom m s).

Global Instance counted_dec dom expression s m : Decision (counted dom expression s m).
Proof. unfold counted. apply _. Defined.

(** ** States of the whole

    The function objects bound in the registry have been created: their
    numbers are below the counter of function objects. *)
Definition closures_known (w : World) : Prop :=
  ∀ M k id element eventName selector callback,
    bound w M k (HandleEventBound id element eventName selector callback) →
    id < closures w.

(** The hashes of [Element.Storage] live under identities that have been
    given out. *)
Definition storage_known {H} (Storage : gmap nat H) (w : World) : Prop :=
  ∀ uid, is_Some (Storage !! uid) → uid < UID w.

(** The storage once [getStorage] has found or created the hash of
    [uid]. *)
Definition with_hash {H} `{!Hash H} (uid : nat) (Storage : gmap nat H) : gmap nat H :=
  match Storage !! uid with Some _ => Storage | None => <[uid := H_new]> Storage end.

(** The world once [element._prototypeUID] is [undefined] again. *)
Definition forgotten (element : Node) (w : World) : World :=
  mkWorld (UID w) (delete element (prototypeUID w)) (cache w) (listeners w) (closures w).

(** The value a call returned, if it returned. *)
Definition returned {A} (o : Outcome A) : option A :=
  match o with Ok a _ => Some a | Throw _ _ => None end.

(** ** More states of the small document *)

Module Samples.
(** The world after [observe(ul, 'app:ready', f1)]. *)
Definition ready_world : World :=
  world_of (run_ops [ Observe Page.ul "app:ready" (UserFn 1) ] initial).

(** The world after [observe(outer, 'click', f3)], [observe(ul, 'click', f1)],
    [observe(item, 'click', f2)] and [observe(ul, 'app:ready', f1)]. *)
Definition list_world : World :=
  world_of (run_ops [ Observe Page.outer "click" (UserFn 3);
                      Observe Page.ul "click" (UserFn 1);
                      Observe Page.item "click" (UserFn 2);
                      Observe Page.ul "app:ready" (UserFn 1) ] initial).

(** [element.getElementsByTagName('*')] in the small document, whose
    elements are nested one in the other. *)
Definition getElementsByTagName (element : Node) : list Node :=
  filter (λ m, (element < m)%nat)
         [Page.html; Page.body; Page.outer; Page.ul; Page.item; Page.span].

(** A click on the span that has reached the list. *)
Definition click_on_span : DomEvent :=
  with_currentTarget (Some Page.ul) (with_target (Some Page.span) Page.click).
End Samples.

Ltac unfold_M := unfold mbind, M_bind, mret, M_ret, get, modify, throw in *.

Lemma getUniqueElementID_touch n w :
  getUniqueElementID n w = Ok (the_uid w n) (touch n w).
Proof.
  unfold getUniqueElementID, the_uid, touch.
  destruct (decide (n = window)); [done|].
  by destruct (prototypeUID w !! n).
Qed.

Lemma identity_touch n w : identity (touch n w) n = Some (the_uid w n).
Proof.
  unfold identity, touch, the_uid.
  destruct (decide (n = window)); [done|].
  destruct (prototypeUID w !! n) eqn:E; simpl; [done|].
  by rewrite lookup_insert_eq.
Qed.

Lemma identity_the_uid w n u : identity w n = Some u → the_uid w n = u ∧ touch n w = w.
Proof.
  unfold identity, the_uid, touch.
  destruct (decide (n = window)); [by intros [= <-]|].
  intros ->. done.
Qed.

Lemma touch_cache n w : cache (touch n w) = cache w.
Proof. unfold touch. destruct (decide _); [done|]. by destruct (prototypeUID w !! n). Qed.
Lemma touch_listeners n w : listeners (touch n w) = listeners w.
Proof. unfold touch. destruct (decide _); [done|]. by destruct (prototypeUID w !! n). Qed.
Lemma touch_closures n w : closures (touch n w) = closures w.
Proof. unfold touch. destruct (decide _); [done|]. by destruct (prototypeUID w !! n). Qed.

Lemma touch_idem n w : touch n (touch n w) = touch n w.
Proof.
  destruct (identity_the_uid (touch n w) n _ (identity_touch n w)) as [_ H]. done.
Qed.

Lemma the_uid_touch n w : the_uid (touch n w) n = the_uid w n.
Proof.
  destruct (identity_the_uid (touch n w) n _ (identity_touch n w)) as [H _]. done.
Qed.

Lemma consistent_cache_lt w u registry :
  consistent w → cache w !! u = Some registry → u < UID w.
Proof.
  intros C Hc. destruct (cache_owner w C u registry Hc) as (n & Hn & _).
  unfold identity in Hn. destruct (decide (n = window)).
  - injection Hn as <-. apply (uid_positive w C).
  - apply (uid_range w C) in Hn. lia.
Qed.

Lemma identity_touch_mono m n w u :
  identity w n = Some u → identity (touch m w) n = Some u.
Proof.
  unfold identity, touch. destruct (decide (n = window)); [done|].
  destruct (decide (m = window)); [done|].
  destruct (prototypeUID w !! m) eqn:E; [done|]. simpl.
  intros H. rewrite lookup_insert_ne; [done|]. intros ->. congruence.
Qed.

Lemma identity_touch_inv m n w u :
  identity (touch m w) n = Some u → identity w n = Some u ∨ (n = m ∧ u = UID w ∧ identity w n = None).
Proof.
  unfold identity, touch. destruct (decide (n = window)); [by left|].
  destruct (decide (m = window)); [by left|].
  destruct (prototypeUID w !! m) eqn:E; [by left|]. simpl.
  destruct (decide (m = n)) as [->|].
  - rewrite lookup_insert_eq. intros [= <-]. right. done.
  - rewrite lookup_insert_ne; [|done]. by left.
Qed.

Lemma entries_of_touch m w n k :
  consistent w → entries_of (touch m w) n k = entries_of w n k.
Proof.
  intros C. unfold entries_of. rewrite touch_cache.
  destruct (identity (touch m w) n) as [u|] eqn:E.
  - apply identity_touch_inv in E as [E|(-> & -> & E)].
    + by rewrite E.
    + rewrite E. simpl.
      destruct (cache w !! UID w) eqn:Ec; [|done].
      apply (consistent_cache_lt _ _ _ C) in Ec. lia.
  - destruct (identity w n) eqn:E'; [|done].
    apply (identity_touch_mono m) in E'. congruence.
Qed.

Lemma listeners_of_touch m w n : listeners_of (touch m w) n = listeners_of w n.
Proof. unfold listeners_of. by rewrite touch_listeners. Qed.

Lemma consistent_touch m w : consistent w → consistent (touch m w).
Proof.
  intros C. split.
  - unfold touch. destruct (decide _); [apply C|]. destruct (prototypeUID w !! m); [apply C|]. simpl. lia.
  - intros n u H. unfold touch in *.
    destruct (decide (m = window)); [by apply (uid_range w C)|].
    destruct (prototypeUID w !! m) eqn:E; [by apply (uid_range w C)|]. simpl in *.
    destruct (decide (m = n)) as [->|].
    + rewrite lookup_insert_eq in H. injection H as <-.
      pose proof (uid_positive w C). split; [done|lia].
    + rewrite lookup_insert_ne in H; [|done]. apply (uid_range w C) in H. split; [tauto|lia].
  - intros n n' u H1 H2.
    unfold touch in *. destruct (decide (m = window)); [by eapply (uid_inj w C)|].
    destruct (prototypeUID w !! m) eqn:E; [by eapply (uid_inj w C)|]. simpl in *.
    rewrite lookup_insert in H1, H2.
    destruct (decide (m = n)) as [e1|], (decide (m = n')) as [e2|]; try congruence.
    + injection H1 as <-. apply (uid_range w C) in H2. lia.
    + injection H2 as <-. apply (uid_range w C) in H1. lia.
    + by eapply (uid_inj w C).
  - intros u registry. rewrite touch_cache. intros H.
    destruct (cache_owner w C u registry H) as (n & Hn & He).
    exists n. split; [|done]. by apply identity_touch_mono.
  - intros u registry k s. rewrite touch_cache. apply (cache_buckets w C).
  - intros u registry. rewrite touch_cache. apply (cache_nonempty w C).
  - intros n k. rewrite listeners_of_touch, entries_of_touch; [|done]. apply (listeners_sync w C).
Qed.


Lemma event_key_get registry k : event_key k → js_get registry k = registry !! k.
Proof. intros [_ H]. unfold js_get. destruct (registry !! k); [done|]. by rewrite H. Qed.

Lemma last_index_of_None h l : last_index_of h l = None ↔ h ∉ handler <$> l.
Proof.
  induction l as [|e l IH]; simpl.
  - split; [intros _; apply not_elem_of_nil|done].
  - destruct (last_index_of h l) eqn:E.
    + split; [done|]. intros H. exfalso. apply H. right.
      destruct (decide (h ∈ handler <$> l)); [done|]. apply IH in n0. done.
    + unfold has_handler. rewrite not_elem_of_cons. case_bool_decide; split; try done.
      * intros [? _]. congruence.
      * intros _. split; [congruence|]. by apply IH.
Qed.

Lemma last_index_of_Some h l i :
  last_index_of h l = Some i → ∃ e, l !! i = Some e ∧ handler e = h.
Proof.
  revert i. induction l as [|e l IH]; simpl; [done|]. intros i.
  destruct (last_index_of h l) eqn:E.
  - intros [= <-]. simpl. by apply IH.
  - unfold has_handler. case_bool_decide; [|done]. intros [= <-]. by exists e.
Qed.

Lemma createResponder_eq uid k h w :
  createResponder uid k h w =
  Ok (mk_responder (closures w) uid k h)
     (mkWorld (UID w) (prototypeUID w) (cache w) (listeners w) (S (closures w))).
Proof.
  unfold createResponder, mk_responder, createResponderForCustomEvent.
  by destruct (isCustomEvent k).
Qed.

Lemma entries_of_eq w n uid k :
  identity w n = Some uid →
  entries_of w n k = match cache w !! uid with Some r => bucket r k | None => [] end.
Proof. intros H. unfold entries_of. by rewrite H. Qed.

Lemma sync_named_bound w n k l :
  consistent w → l ∈ listeners_of w n → named k l →
  ∃ e, e ∈ entries_of w n k ∧ l = listener_of k e.
Proof.
  intros C Hl Hn.
  assert (l ∈ filter (named k) (listeners_of w n)) as H by (by apply list_elem_of_filter).
  rewrite (listeners_sync w C) in H. apply list_elem_of_fmap in H as (e & -> & He). eauto.
Qed.

Lemma entries_of_ok w n k e uid :
  consistent w → identity w n = Some uid → e ∈ entries_of w n k → k ≠ "element" ∧ entry_ok uid k e.
Proof.
  intros C Hi He. rewrite (entries_of_eq _ _ _ _ Hi) in He.
  destruct (cache w !! uid) as [r|] eqn:Hc; [|by apply elem_of_nil in He].
  unfold bucket in He. destruct (r !! k) as [[| l |]|] eqn:Hk; try by apply elem_of_nil in He.
  destruct (decide (k = "element")) as [->|Hne].
  { destruct (cache_owner w C _ _ Hc) as (? & _ & Hel). congruence. }
  split; [done|].
  destruct (cache_buckets w C _ _ _ _ Hc Hk Hne) as (l' & [= <-] & _ & _ & Hall).
  rewrite Forall_forall in Hall. by apply Hall.
Qed.

Lemma mk_responder_fields fn uid k h :
  r_uid (mk_responder fn uid k h) = uid ∧ r_eventName (mk_responder fn uid k h) = k
  ∧ r_handler (mk_responder fn uid k h) = h.
Proof. unfold mk_responder. by destruct (isCustomEvent k). Qed.

Lemma observe_dup n k h w :
  consistent w → event_key k → bound w n k h → observe n k h w = Ok n w.
Proof.
  intros C Hk Hb. unfold bound, entries_of in Hb.
  destruct (identity w n) as [uid|] eqn:Hi; simpl in Hb; [|by apply elem_of_nil in Hb].
  destruct (cache w !! uid) as [r|] eqn:Hc; [|by apply elem_of_nil in Hb].
  destruct (identity_the_uid _ _ _ Hi) as [Hu Ht].
  unfold observe, register, getOrCreateRegistryFor, uid_or_lookup. unfold_M.
  rewrite getUniqueElementID_touch, Hu, Ht, Hc.
  rewrite event_key_get by done.
  unfold bucket in Hb. destruct (r !! k) as [[| l |]|] eqn:Hrk; try by apply elem_of_nil in Hb.
  destruct (last_index_of h l) eqn:El; [done|].
  apply last_index_of_None in El. done.
Qed.

Lemma observe_pretouch n k h w : observe n k h w = observe n k h (touch n w).
Proof.
  unfold observe, register, getOrCreateRegistryFor, uid_or_lookup. unfold_M.
  by rewrite !getUniqueElementID_touch, touch_idem, the_uid_touch.
Qed.

Lemma observed_pretouch n k h w :
  consistent w → observed n k h w = observed n k h (touch n w).
Proof.
  intros C. unfold observed, registry_of.
  by rewrite touch_idem, the_uid_touch, entries_of_touch, listeners_of_touch,
    touch_cache, touch_listeners, touch_closures.
Qed.

Lemma getUniqueElementID_known n w uid :
  identity w n = Some uid → getUniqueElementID n w = Ok uid w.
Proof.
  intros H. rewrite getUniqueElementID_touch.
  by destruct (identity_the_uid _ _ _ H) as [-> ->].
Qed.

Lemma unbound_listener_fresh w n uid k h fn :
  consistent w → identity w n = Some uid → ¬ bound w n k h →
  mkListener (actualEventName k) (mk_responder fn uid k h) ∉ listeners_of w n.
Proof.
  intros C Hi Hb Hl.
  destruct (sync_named_bound w n k _ C Hl) as (e & He & Heq).
  { unfold named. simpl. apply mk_responder_fields. }
  destruct (entries_of_ok _ _ _ _ _ C Hi He) as [_ [fn' Hr]].
  apply Hb. unfold bound. apply list_elem_of_fmap. exists e. split; [|done].
  unfold listener_of in Heq. injection Heq as Heq. rewrite Hr in Heq.
  pose proof (mk_responder_fields fn uid k h) as (_ & _ & H1).
  pose proof (mk_responder_fields fn' uid k (handler e)) as (_ & _ & H2).
  congruence.
Qed.

Lemma observe_new_touched n k h w uid :
  consistent w → identity w n = Some uid → event_key k → ¬ bound w n k h →
  observe n k h w = Ok n (observed n k h w).
Proof.
  intros C Hi Hk Hb.
  pose proof (unbound_listener_fresh w n uid k h (closures w) C Hi Hb) as Hfresh.
  destruct (identity_the_uid _ _ _ Hi) as [Hu Ht].
  unfold observed, registry_of. rewrite Hu, Ht.
  unfold bound in Hb. rewrite (entries_of_eq _ _ _ _ Hi) in *.
  unfold observe, register, getOrCreateRegistryFor, uid_or_lookup. unfold_M.
  rewrite getUniqueElementID_touch, Hu, Ht.
  destruct (cache w !! uid) as [r|] eqn:Hc; simpl.
  - rewrite event_key_get by done. unfold bucket in *.
    destruct (r !! k) as [s|] eqn:Hrk.
    + destruct (cache_buckets w C _ _ _ _ Hc Hrk (proj1 Hk)) as (l & -> & _).
      apply last_index_of_None in Hb. rewrite Hb.
      rewrite getUniqueElementID_touch, Hu, Ht, createResponder_eq. simpl.
      unfold registry_set, addEventListener. unfold_M. simpl.
      unfold listeners_of in *. simpl.
      rewrite bool_decide_eq_false_2 by done.
      unfold set_cache, set_listeners; simpl.
      by rewrite (alter_alt_Some _ _ _ _ Hc).
    + simpl.
      rewrite (getUniqueElementID_known n _ uid) by done.
      rewrite createResponder_eq. simpl.
      unfold registry_set, addEventListener. unfold_M. simpl.
      unfold listeners_of in *. simpl.
      rewrite bool_decide_eq_false_2 by done.
      unfold set_cache, set_listeners; simpl.
      by rewrite (alter_alt_Some _ _ _ _ Hc), alter_insert_eq, !insert_insert_eq.
  - rewrite event_key_get by done.
    rewrite lookup_singleton_ne by (symmetry; apply Hk). simpl.
    rewrite (getUniqueElementID_known n _ uid) by done.
    rewrite createResponder_eq. simpl.
    unfold registry_set, addEventListener. unfold_M. simpl.
    unfold listeners_of in *. simpl.
    rewrite bool_decide_eq_false_2 by done.
    unfold set_cache, set_listeners; simpl.
    by rewrite !alter_insert_eq, !insert_insert_eq.
Qed.

Lemma observe_new n k h w :
  consistent w → event_key k → ¬ bound w n k h → observe n k h w = Ok n (observed n k h w).
Proof.
  intros C Hk Hb. rewrite observe_pretouch, observed_pretouch by done.
  eapply observe_new_touched; [by apply consistent_touch|apply identity_touch|done|].
  unfold bound. by rewrite entries_of_touch.
Qed.

Lemma identity_inj w n m u :
  consistent w → identity w n = Some u → identity w m = Some u → n = m.
Proof.
  intros C. unfold identity.
  destruct (decide (n = window)) as [->|], (decide (m = window)) as [->|]; try done.
  - intros [= <-] H. apply (uid_range w C) in H. lia.
  - intros H [= <-]. apply (uid_range w C) in H. lia.
  - apply (uid_inj w C).
Qed.

Lemma registry_of_element w n uid :
  consistent w → identity w n = Some uid →
  registry_of w n uid !! "element" = Some (SElement n).
Proof.
  intros C Hi. unfold registry_of.
  destruct (cache w !! uid) as [r|] eqn:Hc; simpl; [|by rewrite lookup_singleton_eq].
  destruct (cache_owner w C _ _ Hc) as (m & Hm & He).
  by rewrite (identity_inj w n m uid C Hi Hm).
Qed.

Lemma bucket_insert_eq (r : Registry) k l : bucket (<[k := SEntries l]> r) k = l.
Proof. unfold bucket. by rewrite lookup_insert_eq. Qed.
Lemma bucket_insert_ne (r : Registry) k k' s : k ≠ k' → bucket (<[k := s]> r) k' = bucket r k'.
Proof. intros. unfold bucket. by rewrite lookup_insert_ne. Qed.
Lemma bucket_delete_eq (r : Registry) k : bucket (delete k r) k = [].
Proof. unfold bucket. by rewrite lookup_delete_eq. Qed.
Lemma bucket_delete_ne (r : Registry) k k' : k ≠ k' → bucket (delete k r) k' = bucket r k'.
Proof. intros. unfold bucket. by rewrite lookup_delete_ne. Qed.

Lemma entries_of_registry_of w n uid k :
  identity w n = Some uid → k ≠ "element" → entries_of w n k = bucket (registry_of w n uid) k.
Proof.
  intros Hi Hk. rewrite (entries_of_eq _ _ _ _ Hi). unfold registry_of.
  destruct (cache w !! uid); simpl; [done|].
  unfold bucket. by rewrite lookup_singleton_ne.
Qed.

Lemma entries_of_element w n : consistent w → entries_of w n "element" = [].
Proof.
  intros C. unfold entries_of.
  destruct (identity w n ≫= _) as [r|] eqn:E; [|done].
  destruct (identity w n) as [u|]; [|done]. simpl in E.
  destruct (cache_owner w C _ _ E) as (m & _ & He). unfold bucket. by rewrite He.
Qed.

Lemma entries_nodup w n k : consistent w → NoDup (handler <$> entries_of w n k).
Proof.
  intros C. unfold entries_of.
  destruct (identity w n) as [u|]; simpl; [|constructor].
  destruct (cache w !! u) as [r|] eqn:Hc; [|constructor].
  unfold bucket. destruct (r !! k) as [[| l |]|] eqn:Hk; try constructor.
  destruct (decide (k = "element")) as [->|Hne].
  { destruct (cache_owner w C _ _ Hc) as (? & _ & Hel). congruence. }
  destruct (cache_buckets w C _ _ _ _ Hc Hk Hne) as (l' & [= <-] & _ & ? & _). done.
Qed.

Lemma consistent_observed_touched n k h w uid :
  consistent w → identity w n = Some uid → event_key k → ¬ bound w n k h →
  consistent (observed n k h w).
Proof.
  intros C Hi Hk Hb.
  destruct (identity_the_uid _ _ _ Hi) as [Hu Ht].
  pose proof (registry_of_element w n uid C Hi) as Hel.
  assert (∀ m, identity (observed n k h w) m = identity w m) as Hid.
  { intros m. unfold observed, identity. simpl. by rewrite Ht. }
  assert (∀ m k', entries_of (observed n k h w) m k' =
    if decide (m = n ∧ k' = k) then entries_of w n k ++ [mkEntry (mk_responder (closures w) uid k h) h]
    else entries_of w m k') as Hent.
  { intros m k'. unfold entries_of at 1. rewrite Hid. unfold observed. simpl. rewrite Hu.
    destruct (identity w m) as [u|] eqn:Hm; simpl.
    - destruct (decide (u = uid)) as [->|Hne].
      + rewrite (identity_inj w m n uid C Hm Hi). rewrite lookup_insert_eq.
        destruct (decide (k' = k)) as [->|Hk'].
        * rewrite decide_True by done. apply bucket_insert_eq.
        * rewrite decide_False by tauto. rewrite bucket_insert_ne by done.
          destruct (decide (k' = "element")) as [->|].
          { rewrite entries_of_element by done. unfold bucket. by rewrite Hel. }
          by rewrite <- entries_of_registry_of.
      + rewrite lookup_insert_ne by done. rewrite decide_False.
        * by rewrite (entries_of_eq _ _ _ _ Hm).
        * intros [-> _]. congruence.
    - rewrite decide_False; [|intros [-> _]; congruence].
      unfold entries_of. by rewrite Hm. }
  split.
  - unfold observed. simpl. rewrite Ht. apply C.
  - unfold observed. simpl. rewrite Ht. apply C.
  - unfold observed. simpl. rewrite Ht. apply C.
  - intros u r. unfold observed at 1. simpl. rewrite Hu.
    destruct (decide (u = uid)) as [->|Hne].
    + rewrite lookup_insert_eq. intros [= <-]. exists n. rewrite Hid. split; [done|].
      rewrite lookup_insert_ne; [done|]. apply Hk.
    + rewrite lookup_insert_ne by done. intros Hc.
      destruct (cache_owner w C _ _ Hc) as (m & ? & ?). exists m. by rewrite Hid.
  - intros u r k' s. unfold observed at 1. simpl. rewrite Hu.
    destruct (decide (u = uid)) as [->|Hne].
    + rewrite lookup_insert_eq. intros [= <-].
      destruct (decide (k' = k)) as [->|Hk'].
      * rewrite lookup_insert_eq. intros [= <-] _. eexists. split; [done|].
        split; [by destruct (entries_of w n k)|]. split.
        -- rewrite fmap_app. simpl. apply NoDup_app. split; [by apply entries_nodup|].
           split; [|apply NoDup_singleton]. intros x Hx ->%list_elem_of_singleton. by apply Hb.
        -- apply Forall_app. split.
           ++ apply Forall_forall. intros e He. by eapply entries_of_ok.
           ++ apply Forall_singleton. by eexists.
      * rewrite lookup_insert_ne by done. unfold registry_of.
        destruct (cache w !! uid) as [r0|] eqn:Hc; simpl.
        -- by apply (cache_buckets w C).
        -- intros [<- _]%lookup_singleton_Some ?. done.
    + rewrite lookup_insert_ne by done. apply (cache_buckets w C).
  - intros u r. unfold observed at 1. simpl. rewrite Hu.
    destruct (decide (u = uid)) as [->|Hne].
    + rewrite lookup_insert_eq. intros [= <-]. exists k. split; [apply Hk|].
      by rewrite lookup_insert_eq.
    + rewrite lookup_insert_ne by done. apply (cache_nonempty w C).
  - intros m k'. rewrite Hent. unfold listeners_of at 1. unfold observed. simpl.
    destruct (decide (m = n)) as [->|Hne].
    + rewrite lookup_insert_eq. simpl. rewrite filter_app, (listeners_sync w C).
      destruct (decide (k' = k)) as [->|Hk'].
      * rewrite decide_True by done. rewrite fmap_app. f_equal. rewrite Hu.
        rewrite filter_cons_True; [done|]. unfold named. simpl. apply mk_responder_fields.
      * rewrite decide_False by tauto. rewrite filter_cons_False, filter_nil, app_nil_r; [done|].
        unfold named. simpl. intros H. apply Hk'. rewrite <- H. apply mk_responder_fields.
    + rewrite lookup_insert_ne by done. rewrite decide_False by tauto. apply (listeners_sync w C).
Qed.

Lemma consistent_observed n k h w :
  consistent w → event_key k → ¬ bound w n k h → consistent (observed n k h w).
Proof.
  intros C Hk Hb. rewrite observed_pretouch by done.
  eapply consistent_observed_touched; [by apply consistent_touch|apply identity_touch|done|].
  unfold bound. by rewrite entries_of_touch.
Qed.


Lemma filter_fmap_list {A B} (f : A → B) (P : B → Prop) `{!∀ x, Decision (P x)} (l : list A) :
  filter P (f <$> l) = f <$> filter (λ a, P (f a)) l.
Proof.
  induction l as [|a l IH]; [done|]. rewrite fmap_cons, !filter_cons.
  destruct (decide (P (f a))); rewrite ?fmap_cons; by rewrite IH.
Qed.

Lemma filter_ext_in {A} (P Q : A → Prop) `{!∀ x, Decision (P x), !∀ x, Decision (Q x)}
    (l : list A) :
  (∀ x, x ∈ l → (P x ↔ Q x)) → filter P l = filter Q l.
Proof.
  induction l as [|a l IH]; [done|]. intros Hext.
  rewrite !filter_cons.
  assert (filter P l = filter Q l) as -> by (apply IH; intros; apply Hext; by right).
  destruct (decide (P a)), (decide (Q a)); try done; exfalso;
    specialize (Hext a (list_elem_of_here _ _)); tauto.
Qed.

Lemma filter_all {A} (P : A → Prop) `{!∀ x, Decision (P x)} (l : list A) :
  (∀ x, x ∈ l → P x) → filter P l = l.
Proof.
  induction l as [|a l IH]; [done|]. intros Hall.
  rewrite filter_cons_True by (apply Hall; left). f_equal. apply IH. intros; apply Hall; by right.
Qed.

Lemma filter_comm {A} (P Q : A → Prop) `{!∀ x, Decision (P x), !∀ x, Decision (Q x)}
    (l : list A) :
  filter P (filter Q l) = filter Q (filter P l).
Proof. rewrite !list_filter_filter. apply list_filter_iff. tauto. Qed.

Lemma only_element_dom (r : Registry) :
  dom r ⊆ ({[ "element" ]} : gset string) ↔ only_element r.
Proof.
  unfold only_element. rewrite map_empty. split.
  - intros H i. destruct (decide (i = "element")) as [->|Hne].
    + apply lookup_delete_eq.
    + rewrite lookup_delete_ne by done. apply not_elem_of_dom. intros Hi. apply H in Hi.
      apply elem_of_singleton in Hi. done.
  - intros H i Hi. apply elem_of_singleton. destruct (decide (i = "element")); [done|].
    specialize (H i). rewrite lookup_delete_ne in H by done.
    apply elem_of_dom in Hi as [? ?]. congruence.
Qed.

Lemma only_element_size (r : Registry) :
  is_Some (r !! "element") → (size r = 1 ↔ only_element r).
Proof.
  intros He. unfold only_element. rewrite <- map_size_empty_iff.
  rewrite map_size_delete_Some by done.
  destruct He as [x Hx].
  assert (size r ≠ 0). { apply map_size_ne_0_lookup. eauto. }
  lia.
Qed.

Lemma not_only_element (r : Registry) :
  ¬ only_element r ↔ ∃ k, k ≠ "element" ∧ is_Some (r !! k).
Proof.
  unfold only_element. split.
  - intros H. apply map_choose in H as (i & x & Hi).
    exists i. destruct (decide (i = "element")) as [->|Hne].
    + by rewrite lookup_delete_eq in Hi.
    + rewrite lookup_delete_ne in Hi by done. eauto.
  - intros (k & Hk & [x Hx]) H. rewrite map_empty in H. specialize (H k).
    rewrite lookup_delete_ne in H by done. congruence.
Qed.

Lemma listener_of_inj w n uid k e1 e2 :
  consistent w → identity w n = Some uid →
  e1 ∈ entries_of w n k → e2 ∈ entries_of w n k →
  listener_of k e1 = listener_of k e2 → e1 = e2.
Proof.
  intros C Hi H1 H2 Heq.
  destruct (entries_of_ok _ _ _ _ _ C Hi H1) as [_ [f1 Hr1]].
  destruct (entries_of_ok _ _ _ _ _ C Hi H2) as [_ [f2 Hr2]].
  injection Heq as Heq. destruct e1 as [r1 h1], e2 as [r2 h2]. simpl in *. subst r2.
  f_equal. rewrite Hr1 in Hr2.
  pose proof (mk_responder_fields f1 uid k h1) as (_ & _ & Ha).
  pose proof (mk_responder_fields f2 uid k h2) as (_ & _ & Hb). congruence.
Qed.

Lemma removal_pretouch n k removed w w' :
  consistent w → removal n k removed w w' ↔ removal n k removed (touch n w) w'.
Proof.
  intros C. split; intros [A B D E F]; split;
    rewrite ?touch_idem, ?the_uid_touch, ?touch_closures, ?touch_cache,
      ?entries_of_touch in * by done; try done.
  - intros m. rewrite F. by rewrite !listeners_of_touch.
  - intros m. rewrite F. by rewrite !listeners_of_touch.
Qed.

Lemma removal_entries n k removed w w' uid :
  consistent w → identity w n = Some uid → k ≠ "element" →
  removal n k removed w w' →
  ∀ m k', entries_of w' m k' =
    if decide (m = n ∧ k' = k) then filter (λ e, e ∉ removed) (entries_of w n k)
    else entries_of w m k'.
Proof.
  intros C Hi Hk [HU HP HC Hcache HL] m k'.
  destruct (identity_the_uid _ _ _ Hi) as [Hu Ht]. rewrite Hu, Ht in *.
  assert (∀ m, identity w' m = identity w m) as Hid.
  { intros x. unfold identity. by rewrite HP. }
  unfold entries_of at 1. rewrite Hid, Hcache.
  destruct (identity w m) as [u|] eqn:Hm; simpl.
  2:{ rewrite decide_False; [|intros [-> _]; congruence]. unfold entries_of. by rewrite Hm. }
  unfold set_bucket.
  destruct (decide (u = uid)) as [->|Hne].
  - rewrite (identity_inj w m n uid C Hm Hi).
    rewrite (entries_of_eq _ _ _ _ Hi) in *.
    destruct (cache w !! uid) as [r|] eqn:Hc.
    2:{ rewrite Hc. destruct (decide _); [done|]. by rewrite (entries_of_eq _ _ _ _ Hi), Hc. }
    remember (filter (λ e, e ∉ removed) (bucket r k)) as E' eqn:HE'.
    destruct (cache_owner w C _ _ Hc) as (m' & _ & Hel).
    destruct (decide (only_element _)) as [Ho|Ho].
    + rewrite lookup_delete_eq.
      destruct E' as [|e0 E0].
      * destruct (decide (n = n ∧ k' = k)); [done|].
        rewrite (entries_of_eq w n uid k' Hi), Hc.
        destruct (decide (k' = "element")) as [->|].
        { unfold bucket. by rewrite Hel. }
        unfold only_element in Ho. rewrite map_empty in Ho. specialize (Ho k').
        rewrite lookup_delete_ne, lookup_delete_ne in Ho by (try done; intros ->; tauto).
        unfold bucket. by rewrite Ho.
      * exfalso. unfold only_element in Ho. rewrite map_empty in Ho. specialize (Ho k).
        rewrite lookup_delete_ne, lookup_insert_eq in Ho by done. done.
    + rewrite lookup_insert_eq.
      destruct (decide (k' = k)) as [->|Hk'].
      * rewrite decide_True by done. destruct E'; [apply bucket_delete_eq|apply bucket_insert_eq].
      * rewrite decide_False by tauto.
        rewrite (entries_of_eq w n uid k' Hi), Hc.
        destruct E'; [by apply bucket_delete_ne|by apply bucket_insert_ne].
  - rewrite decide_False; [|intros [-> _]; congruence].
    rewrite (entries_of_eq _ _ _ _ Hm).
    destruct (cache w !! uid) as [r|] eqn:Hc; [|done].
    destruct (decide (only_element _)); [by rewrite lookup_delete_ne|by rewrite lookup_insert_ne].
Qed.

Lemma removal_consistent_touched n k removed w w' uid :
  consistent w → identity w n = Some uid → k ≠ "element" →
  removed ⊆ entries_of w n k →
  removal n k removed w w' → consistent w'.
Proof.
  intros C Hi Hk Hsub R.
  pose proof (removal_entries n k removed w w' uid C Hi Hk R) as Hent.
  destruct R as [HU HP HC Hcache HL].
  destruct (identity_the_uid _ _ _ Hi) as [Hu Ht]. rewrite Hu, Ht in *.
  assert (∀ m, identity w' m = identity w m) as Hid.
  { intros x. unfold identity. by rewrite HP. }
  assert (∀ u r, cache w' !! u = Some r →
     (u ≠ uid ∧ cache w !! u = Some r) ∨
     (u = uid ∧ ¬ only_element r ∧ ∃ r0, cache w !! uid = Some r0 ∧
        r = match filter (λ e, e ∉ removed) (entries_of w n k) with
            | [] => delete k r0 | l => <[k := SEntries l]> r0 end)) as Hlook.
  { intros u r. rewrite Hcache. unfold set_bucket.
    destruct (cache w !! uid) as [r0|] eqn:Hc.
    - destruct (decide (only_element _)) as [Ho|Ho].
      + destruct (decide (u = uid)) as [->|]; [by rewrite lookup_delete_eq|].
        rewrite lookup_delete_ne by done. by left.
      + destruct (decide (u = uid)) as [->|]; [|rewrite lookup_insert_ne by done; by left].
        rewrite lookup_insert_eq. intros [= <-]. right. split; [done|]. split; [done|].
        exists r0. split; [done|]. by destruct (filter _ _).
    - intros H. left. split; [|done]. intros ->. congruence. }
  split.
  - rewrite HU. apply C.
  - rewrite HU, HP. apply C.
  - rewrite HP. apply C.
  - intros u r Hr. destruct (Hlook u r Hr) as [[_ H]|(-> & _ & r0 & Hc & ->)].
    + destruct (cache_owner w C _ _ H) as (m & ? & ?). exists m. by rewrite Hid.
    + destruct (cache_owner w C _ _ Hc) as (m & ? & ?). exists m. rewrite Hid. split; [done|].
      destruct (filter _ _); [by rewrite lookup_delete_ne|by rewrite lookup_insert_ne].
  - intros u r k' s Hr Hs Hk'. destruct (Hlook u r Hr) as [[_ H]|(-> & _ & r0 & Hc & ->)].
    + by apply (cache_buckets w C _ _ _ _ H).
    + destruct (decide (k' = k)) as [->|Hne].
      * destruct (filter _ _) as [|e l] eqn:HE; [by rewrite lookup_delete_eq in Hs|].
        rewrite lookup_insert_eq in Hs. injection Hs as <-. eexists. split; [done|].
        split; [done|]. rewrite <- HE. split.
        -- eapply NoDup_fmap_2_strong; [|apply NoDup_filter].
           ++ intros x y [_ Hx]%list_elem_of_filter [_ Hy]%list_elem_of_filter Hxy.
              pose proof (entries_nodup w n k C) as Hnd.
              apply list_elem_of_lookup in Hx as [i Hix], Hy as [j Hjy].
              assert (i = j).
              { eapply NoDup_lookup; [exact Hnd| |]; rewrite list_lookup_fmap.
                - by rewrite Hix. - rewrite Hjy. simpl. by rewrite Hxy. }
              subst. congruence.
           ++ pose proof (entries_nodup w n k C) as Hnd. by apply NoDup_fmap_1 in Hnd.
        -- apply Forall_forall. intros x [_ Hx]%list_elem_of_filter.
           by eapply entries_of_ok.
      * assert (r0 !! k' = Some s) as Hs0.
        { destruct (filter _ _); [by rewrite lookup_delete_ne in Hs|by rewrite lookup_insert_ne in Hs]. }
        by apply (cache_buckets w C _ _ _ _ Hc).
  - intros u r Hr. destruct (Hlook u r Hr) as [[_ H]|(-> & Ho & _)].
    + by apply (cache_nonempty w C _ _ H).
    + by apply not_only_element.
  - intros m k'. rewrite HL, Hent.
    destruct (decide (m = n)) as [->|Hne].
    + destruct (decide (k' = k)) as [->|Hk'].
      * rewrite decide_True by done.
        rewrite filter_comm, (listeners_sync w C), filter_fmap_list.
        f_equal. apply filter_ext_in. intros e He. split.
        -- intros H1 H2. apply H1. apply list_elem_of_fmap. eauto.
        -- intros H1 (e' & Heq & He')%list_elem_of_fmap. apply H1.
           by rewrite (listener_of_inj w n uid k e e' C Hi He (Hsub _ He') Heq).
      * rewrite decide_False by tauto.
        rewrite list_filter_filter_l; [apply (listeners_sync w C)|].
        intros l Hl (e & -> & He)%list_elem_of_fmap. apply Hk'.
        destruct (entries_of_ok _ _ _ _ _ C Hi (Hsub _ He)) as [_ [fn Hr]].
        unfold named in Hl. simpl in Hl. rewrite Hr in Hl. rewrite <- Hl.
        apply mk_responder_fields.
    + rewrite decide_False by tauto. apply (listeners_sync w C).
Qed.

Lemma removal_consistent n k removed w w' :
  consistent w → k ≠ "element" → removed ⊆ entries_of w n k →
  removal n k removed w w' → consistent w'.
Proof.
  intros C Hk Hsub R. apply removal_pretouch in R; [|done].
  eapply removal_consistent_touched; [by apply (consistent_touch n)|apply identity_touch|done| |done].
  by rewrite entries_of_touch.
Qed.


Lemma removeEvent_spec n k r w :
  ∃ w', removeEvent n k r w = Ok tt w' ∧
        listeners_changed n (filter (λ l, l ≠ mkListener (actualEventName k) r)) w w'.
Proof.
  eexists. split; [reflexivity|]. split; try done.
  intros m. unfold listeners_of at 1. simpl.
  destruct (decide (m = n)) as [->|]; [by rewrite lookup_insert_eq|by rewrite lookup_insert_ne].
Qed.

Lemma for_each_remove n k es w :
  ∃ w', for_each (λ e, removeEvent n k (responder e)) es w = Ok tt w' ∧
        listeners_changed n (filter (λ l, l ∉ listener_of k <$> es)) w w'.
Proof.
  revert w. induction es as [|e es IH]; intros w.
  - exists w. split; [done|]. split; try done. intros m.
    destruct (decide (m = n)) as [->|]; [|done].
    symmetry. apply filter_all. intros x _. apply not_elem_of_nil.
  - destruct (removeEvent_spec n k (responder e) w) as (w1 & H1 & L1).
    destruct (IH w1) as (w2 & H2 & L2).
    exists w2. split.
    + simpl. unfold_M. by rewrite H1.
    + destruct L1 as [HU1 HP1 HC1 HF1 HL1], L2 as [HU2 HP2 HC2 HF2 HL2].
      split; try congruence. intros m.
      rewrite HL2, !HL1.
      destruct (decide (m = n)) as [->|]; [|done].
      rewrite decide_True by done. rewrite list_filter_filter.
      apply list_filter_iff. intros x. rewrite fmap_cons, not_elem_of_cons.
      unfold listener_of at 3. tauto.
Qed.

Lemma cleanup_spec n uid k r w :
  identity w n = Some uid → cache w !! uid = Some r → k ≠ "element" →
  is_Some (r !! "element") →
  unregister_cleanup n uid k w =
  Ok tt (set_cache (λ c, if decide (only_element (delete k r)) then delete uid c
                         else <[uid := delete k r]> c) w).
Proof.
  intros Hi Hc Hk He. unfold unregister_cleanup, registry_delete. unfold_M. simpl.
  rewrite (alter_alt_Some _ _ _ _ Hc), lookup_insert_eq.
  assert (is_Some (delete k r !! "element")) as He' by (by rewrite lookup_delete_ne).
  destruct (decide (only_element (delete k r))) as [Ho|Ho].
  - rewrite (bool_decide_eq_true_2 (size _ = 1)) by (by apply only_element_size).
    rewrite bool_decide_eq_true_2 by done. simpl.
    unfold destroyRegistryForElement, uid_or_lookup. unfold_M.
    rewrite (getUniqueElementID_known n _ uid) by done.
    unfold set_cache. simpl. by rewrite delete_alter_eq.
  - rewrite (bool_decide_eq_false_2 (size _ = 1)).
    + simpl. unfold set_cache. simpl. by rewrite (alter_alt_Some _ _ _ _ Hc).
    + intros H. apply Ho. by apply only_element_size.
Qed.

Lemma filter_none {A} (P : A → Prop) `{!∀ x, Decision (P x)} (l : list A) :
  (∀ x, x ∈ l → ¬ P x) → filter P l = [].
Proof.
  induction l as [|a l IH]; [done|]. intros Hall.
  rewrite filter_cons_False by (apply Hall; left). apply IH. intros; apply Hall; by right.
Qed.

Lemma delete_last_index h (l : list Entry) i :
  NoDup (handler <$> l) → last_index_of h l = Some i →
  delete i l = filter (λ e, e ∉ filter (λ e, handler e = h) l) l
  ∧ ∃ e, l !! i = Some e ∧ filter (λ e, handler e = h) l = [e].
Proof.
  revert i. induction l as [|a l IH]; intros i Hnd; [done|].
  rewrite fmap_cons in Hnd. apply NoDup_cons in Hnd as [Ha Hnd]. simpl.
  destruct (last_index_of h l) as [j|] eqn:Hj.
  - intros [= <-]. destruct (IH j Hnd eq_refl) as (Hd & e & He & Hf).
    destruct (last_index_of_Some _ _ _ Hj) as (e' & He' & Hh).
    assert (handler a ≠ h) as Hah.
    { intros Heq. apply Ha. rewrite Heq, <- Hh. apply list_elem_of_fmap.
      exists e'. split; [reflexivity|]. eapply list_elem_of_lookup_2. exact He'. }
    rewrite (filter_cons_False (λ e, handler e = h) a) by exact Hah. split.
    + rewrite filter_cons_True.
      * simpl. f_equal. done.
      * rewrite Hf. intros ->%list_elem_of_singleton.
        assert (e ∈ filter (λ e, handler e = h) l) as [? _]%list_elem_of_filter
          by (rewrite Hf; left). done.
    + exists e. done.
  - unfold has_handler. case_bool_decide as Hah; [|done]. intros [= <-].
    apply last_index_of_None in Hj.
    assert (filter (λ e, handler e = h) l = []) as Hnil.
    { apply filter_none. intros x Hx Hxh. apply Hj.
      apply list_elem_of_fmap. eauto. }
    rewrite (filter_cons_True (λ e, handler e = h) a) by exact Hah. rewrite Hnil. split.
    + rewrite filter_cons_False by (intros H; apply H; left).
      simpl. symmetry. apply filter_all. intros x Hx ->%list_elem_of_singleton.
      apply Ha. apply list_elem_of_fmap. eauto.
    + by exists a.
Qed.

Lemma stopObserving_pretouch n k h w :
  stopObserving n k h w = stopObserving n k h (touch n w).
Proof.
  destruct k as [k|], h as [h|]; unfold stopObserving, unregister, stopObservingEventName,
    stopObservingElement, getOrCreateRegistryFor, uid_or_lookup; unfold_M;
    by rewrite !getUniqueElementID_touch, touch_idem, the_uid_touch.
Qed.

Lemma listeners_changed_id n w : listeners_changed n (λ l, l) w w.
Proof. split; try done. intros m. by destruct (decide (m = n)) as [->|]. Qed.

Lemma set_bucket_same uid k l (c : gmap nat Registry) r :
  c !! uid = Some r → bucket r k = l → (l = [] → r !! k = None) →
  (∀ s, r !! k = Some s → s = SEntries l) → ¬ only_element r →
  set_bucket uid k l c = c.
Proof.
  intros Hc Hb Hnil Hs Ho. unfold set_bucket. rewrite Hc.
  assert (match l with [] => delete k r | _ => <[k:=SEntries l]> r end = r) as ->.
  { destruct l as [|e l]; [by rewrite delete_id by auto|].
    apply insert_id. unfold bucket in Hb. destruct (r !! k) as [s|] eqn:E; [|done].
    by rewrite (Hs s eq_refl). }
  rewrite decide_False by done. by apply insert_id.
Qed.

Lemma listeners_of_insert n L w m :
  listeners_of (set_listeners (insert n L) w) m =
  if decide (m = n) then L else listeners_of w m.
Proof.
  unfold listeners_of. simpl.
  destruct (decide (m = n)) as [->|]; [by rewrite lookup_insert_eq|by rewrite lookup_insert_ne].
Qed.

Lemma stop_handler_touched n k h w uid :
  consistent w → identity w n = Some uid → event_key k →
  ∃ w', stopObserving n (Some k) (Some h) w = Ok n w' ∧
        removal n k (filter (λ e, handler e = h) (entries_of w n k)) w w'.
Proof.
  intros C Hi Hk.
  destruct (identity_the_uid _ _ _ Hi) as [Hu Ht].
  unfold stopObserving, unregister, getOrCreateRegistryFor, uid_or_lookup. unfold_M.
  rewrite (getUniqueElementID_known n w uid) by done.
  destruct (cache w !! uid) as [r|] eqn:Hc; simpl.
  - destruct (cache_owner w C _ _ Hc) as (m & _ & Hel).
    rewrite event_key_get by done.
    destruct (r !! k) as [s|] eqn:Hrk.
    + destruct (cache_buckets w C _ _ _ _ Hc Hrk (proj1 Hk)) as (l & -> & Hne & Hnd & Hok).
      assert (entries_of w n k = l) as Hentl.
      { rewrite (entries_of_eq _ _ _ _ Hi), Hc. unfold bucket. by rewrite Hrk. }
      rewrite Hentl.
      destruct (last_index_of h l) as [i|] eqn:Hl.
      * destruct (delete_last_index h l i Hnd Hl) as (Hdel & e & He & Hf).
        rewrite Hf in *. unfold registry_set. unfold_M. simpl.
        rewrite He.
        set (w1 := set_cache (alter <[k:=SEntries (delete i l)]> uid) w).
        assert (cache w1 !! uid = Some (<[k:=SEntries (delete i l)]> r)) as Hc1.
        { unfold w1. simpl. by rewrite (alter_alt_Some _ _ _ _ Hc), lookup_insert_eq. }
        destruct (decide (delete i l = [])) as [Hempty|Hnonempty].
        -- rewrite bool_decide_eq_true_2 by (by rewrite Hempty).
           rewrite (cleanup_spec n uid k _ w1 Hi Hc1 (proj1 Hk))
             by (rewrite lookup_insert_ne by (apply Hk); eauto).
           eexists. split; [reflexivity|]. split; rewrite ?Hu, ?Ht, ?Hentl; try done.
           ++ unfold w1. simpl. unfold set_bucket. rewrite Hc, <- Hdel, Hempty.
              rewrite delete_insert_eq.
              destruct (decide (only_element (delete k r))).
              ** by rewrite delete_alter_eq.
              ** by rewrite (alter_alt_Some _ _ _ _ Hc), insert_insert_eq.
           ++ intros x. rewrite listeners_of_insert. unfold w1, listeners_of. simpl.
              destruct (decide (x = n)); [|done].
              apply list_filter_iff. intros y. simpl.
              unfold listener_of. by rewrite list_elem_of_singleton.
        -- rewrite bool_decide_eq_false_2.
           2:{ intros H. apply Hnonempty. by apply nil_length_inv. }
           simpl.
           eexists. split; [reflexivity|]. split; rewrite ?Hu, ?Ht, ?Hentl; try done.
           ++ unfold w1. simpl. unfold set_bucket. rewrite Hc, <- Hdel.
              rewrite (alter_alt_Some _ _ _ _ Hc).
              destruct (delete i l) eqn:Hd; [done|].
              rewrite decide_False; [done|]. apply not_only_element.
              exists k. split; [apply Hk|]. by rewrite lookup_insert_eq.
           ++ intros x. rewrite listeners_of_insert. unfold w1, listeners_of. simpl.
              destruct (decide (x = n)); [|done].
              apply list_filter_iff. intros y. simpl.
              unfold listener_of. by rewrite list_elem_of_singleton.
      * rewrite bool_decide_eq_false_2.
        2:{ intros H. apply Hne. by apply nil_length_inv. }
        simpl. exists w. split; [done|].
        apply last_index_of_None in Hl.
        assert (filter (λ e, handler e = h) l = []) as ->.
        { apply filter_none. intros x Hx Hxh. apply Hl. apply list_elem_of_fmap. eauto. }
        split; rewrite ?Hu, ?Ht, ?Hentl; try done.
        -- rewrite filter_all by (intros; apply not_elem_of_nil).
           symmetry. apply (set_bucket_same _ _ _ _ r); [done| |done| |].
           ++ unfold bucket. by rewrite Hrk.
           ++ intros s. rewrite Hrk. congruence.
           ++ by apply not_only_element, (cache_nonempty w C uid).
        -- intros x. destruct (decide (x = n)) as [->|]; [|done].
           symmetry. apply filter_all. intros; apply not_elem_of_nil.
    + assert (entries_of w n k = []) as Hentl.
      { rewrite (entries_of_eq _ _ _ _ Hi), Hc. unfold bucket. by rewrite Hrk. }
      rewrite Hentl.
      rewrite (cleanup_spec n uid k r w Hi Hc (proj1 Hk)) by eauto.
      rewrite (delete_id r k Hrk).
      assert (¬ only_element r) as Ho by (by apply not_only_element, (cache_nonempty w C uid)).
      destruct (decide (only_element r)); [done|]. eexists. split; [done|].
      split; rewrite ?Hu, ?Ht, ?Hentl; try done.
      * simpl. rewrite ?filter_nil. rewrite insert_id by done.
        symmetry. apply (set_bucket_same _ _ _ _ r); [done| |done| |done].
        -- unfold bucket. by rewrite Hrk.
        -- intros s. rewrite Hrk. congruence.
      * intros x. unfold listeners_of. simpl. destruct (decide (x = n)) as [->|]; [|done].
        rewrite ?filter_nil. symmetry. apply filter_all. intros; apply not_elem_of_nil.
  - rewrite event_key_get by done.
    rewrite lookup_singleton_ne by (symmetry; apply Hk). simpl.
    assert (entries_of w n k = []) as Hentl.
    { by rewrite (entries_of_eq _ _ _ _ Hi), Hc. }
    rewrite Hentl.
    set (w1 := set_cache (insert uid {["element" := SElement n]}) w).
    rewrite (cleanup_spec n uid k {["element" := SElement n]} w1 Hi)
      by (try apply Hk; unfold w1; simpl; rewrite ?lookup_insert_eq, ?lookup_singleton_eq; eauto).
    destruct (decide (only_element _)) as [Ho|Ho].
    2:{ exfalso. apply Ho.
        unfold only_element. apply map_empty. intros i.
        destruct (decide (i = "element")) as [->|]; [by rewrite lookup_delete_eq|].
        rewrite lookup_delete_ne by done.
        destruct (decide (i = k)) as [->|]; [by rewrite lookup_delete_eq|].
        rewrite lookup_delete_ne by done. by rewrite lookup_singleton_ne. }
    eexists. split; [done|]. split; rewrite ?Hu, ?Ht, ?Hentl; try done.
    + simpl. rewrite delete_insert_eq, delete_id by done. unfold set_bucket. by rewrite Hc.
    + intros x. unfold listeners_of. simpl. destruct (decide (x = n)) as [->|]; [|done].
      rewrite ?filter_nil. symmetry. apply filter_all. intros; apply not_elem_of_nil.
Qed.


Lemma identity_same w w' n : prototypeUID w' = prototypeUID w → identity w' n = identity w n.
Proof. intros H. unfold identity. by rewrite H. Qed.

Lemma stop_event_touched n k w uid :
  consistent w → identity w n = Some uid → event_key k →
  ∃ w', stopObserving n (Some k) None w = Ok n w' ∧ removal n k (entries_of w n k) w w'.
Proof.
  intros C Hi Hk.
  destruct (identity_the_uid _ _ _ Hi) as [Hu Ht].
  unfold stopObserving, stopObservingEventName, getOrCreateRegistryFor, uid_or_lookup. unfold_M.
  rewrite (getUniqueElementID_known n w uid) by done.
  destruct (cache w !! uid) as [r|] eqn:Hc.
  - destruct (cache_owner w C _ _ Hc) as (m & _ & Hel).
    rewrite event_key_get by done.
    destruct (r !! k) as [s|] eqn:Hrk.
    + destruct (cache_buckets w C _ _ _ _ Hc Hrk (proj1 Hk)) as (l & -> & Hne & Hnd & Hok).
      assert (entries_of w n k = l) as Hentl.
      { rewrite (entries_of_eq _ _ _ _ Hi), Hc. unfold bucket. by rewrite Hrk. }
      rewrite Hentl. unfold registry_delete, remove_entries. unfold_M.
      destruct (for_each_remove n k (reverse l) (set_cache (alter (delete k) uid) w))
        as (w2 & Hfe & L2).
      rewrite Hfe. destruct L2 as [HU2 HP2 HC2 HF2 HL2].
      assert (filter (λ e, e ∉ l) l = []) as Hfl by (by apply filter_none; intros x Hx H).
      assert (∀ x, listeners_of w2 x =
         if decide (x = n) then filter (λ y, y ∉ listener_of k <$> l) (listeners_of w n)
         else listeners_of w x) as HL.
      { intros x. rewrite HL2. destruct (decide (x = n)); [|done].
        apply list_filter_iff. intros y. by rewrite fmap_reverse, elem_of_reverse. }
      destruct (decide (only_element (delete k r))) as [Ho|Ho].
      * rewrite bool_decide_eq_true_2 by (by apply only_element_dom).
        unfold destroyRegistryForElement, uid_or_lookup. unfold_M.
        rewrite (getUniqueElementID_known n w2 uid) by (by rewrite (identity_same w w2)).
        eexists. split; [reflexivity|]. split; rewrite ?Hu, ?Ht, ?Hentl; simpl; try done.
        rewrite HC2, Hfl. simpl. unfold set_bucket. rewrite Hc, decide_True by done.
        by rewrite delete_alter_eq.
      * rewrite bool_decide_eq_false_2 by (by rewrite only_element_dom).
        eexists. split; [reflexivity|]. split; rewrite ?Hu, ?Ht, ?Hentl; simpl; try done.
        rewrite HC2, Hfl. simpl. unfold set_bucket. rewrite Hc, decide_False by done.
        by rewrite (alter_alt_Some _ _ _ _ Hc).
    + assert (entries_of w n k = []) as Hentl.
      { rewrite (entries_of_eq _ _ _ _ Hi), Hc. unfold bucket. by rewrite Hrk. }
      rewrite Hentl. simpl.
      assert (¬ only_element r) as Ho by (by apply not_only_element, (cache_nonempty w C uid)).
      rewrite bool_decide_eq_false_2 by (by rewrite only_element_dom).
      exists w. split; [done|]. split; rewrite ?Hu, ?Ht, ?Hentl; try done.
      * simpl. symmetry. apply (set_bucket_same _ _ _ _ r); [done| |done| |done].
        -- unfold bucket. by rewrite Hrk.
        -- intros s. rewrite Hrk. congruence.
      * intros x. destruct (decide (x = n)) as [->|]; [|done].
        symmetry. apply filter_all. intros; apply not_elem_of_nil.
  - assert (entries_of w n k = []) as Hentl.
    { by rewrite (entries_of_eq _ _ _ _ Hi), Hc. }
    rewrite Hentl. simpl.
    rewrite event_key_get by done.
    rewrite lookup_singleton_ne by (symmetry; apply Hk). simpl.
    rewrite bool_decide_eq_true_2.
    2:{ apply only_element_dom. apply delete_singleton_eq. }
    unfold destroyRegistryForElement, uid_or_lookup. unfold_M.
    rewrite (getUniqueElementID_known n _ uid) by done.
    eexists. split; [reflexivity|]. split; rewrite ?Hu, ?Ht, ?Hentl; simpl; try done.
    + rewrite delete_insert_eq, delete_id by done. unfold set_bucket. by rewrite Hc.
    + intros x. unfold listeners_of. simpl. destruct (decide (x = n)) as [->|]; [|done].
      symmetry. apply filter_all. intros; apply not_elem_of_nil.
Qed.

Lemma listeners_named w n l :
  consistent w → l ∈ listeners_of w n →
  ∃ k e, e ∈ entries_of w n k ∧ l = listener_of k e.
Proof.
  intros C Hl. destruct (sync_named_bound w n (r_eventName (l_callback l)) l C Hl) as (e & ? & ?);
    [done|eauto].
Qed.

Lemma listeners_nil w n :
  consistent w → (∀ k, entries_of w n k = []) → listeners_of w n = [].
Proof.
  intros C H. destruct (listeners_of w n) as [|l L] eqn:E; [done|].
  destruct (listeners_named w n l C) as (k & e & He & _); [rewrite E; left|].
  rewrite H in He. by apply elem_of_nil in He.
Qed.

Lemma for_each_bulk n (kvs : list (string * Slot)) w :
  (∀ k s, (k, s) ∈ kvs → k ≠ "element" → ∃ l, s = SEntries l) →
  ∃ w', for_each (λ '(eventName, slot),
                    if bool_decide (eventName = "element") then mret tt
                    else remove_entries n eventName slot) kvs w = Ok tt w'
    ∧ UID w' = UID w ∧ prototypeUID w' = prototypeUID w ∧ cache w' = cache w
    ∧ closures w' = closures w
    ∧ (∀ m, m ≠ n → listeners_of w' m = listeners_of w m)
    ∧ (∀ l, l ∈ listeners_of w' n ↔
         l ∈ listeners_of w n ∧
         ∀ k es, (k, SEntries es) ∈ kvs → k ≠ "element" → l ∉ listener_of k <$> es).
Proof.
  revert w. induction kvs as [|[k s] kvs IH]; intros w Hshape.
  - exists w. split; [done|]. do 5 (split; [done|]). intros l.
    split; [|by intros [? _]]. intros H. split; [done|].
    intros k es Hin. by apply elem_of_nil in Hin.
  - assert (∃ w1, (if bool_decide (k = "element") then mret tt else remove_entries n k s) w = Ok tt w1
       ∧ UID w1 = UID w ∧ prototypeUID w1 = prototypeUID w ∧ cache w1 = cache w
       ∧ closures w1 = closures w
       ∧ (∀ m, m ≠ n → listeners_of w1 m = listeners_of w m)
       ∧ (∀ l, l ∈ listeners_of w1 n ↔ l ∈ listeners_of w n ∧
            (k ≠ "element" → ∀ es, s = SEntries es → l ∉ listener_of k <$> es)))
      as (w1 & H1 & HU & HP & HC & HF & HO & HN).
    { case_bool_decide as Hk.
      - exists w. repeat split; try done. tauto.
      - destruct (Hshape k s (list_elem_of_here _ _) Hk) as (es & ->).
        unfold remove_entries.
        destruct (for_each_remove n k (reverse es) w) as (w1 & Hfe & L1).
        exists w1. destruct L1 as [HU1 HP1 HC1 HF1 HL1]. repeat split; try done.
        + intros m Hm. rewrite HL1. by rewrite decide_False.
        + rewrite HL1, decide_True in H by done.
          by apply list_elem_of_filter in H as [_ ?].
        + rewrite HL1, decide_True in H by done.
          apply list_elem_of_filter in H as [H _]. intros _ es' [= <-].
          by rewrite fmap_reverse, elem_of_reverse in H.
        + intros [Hl Hn]. rewrite HL1, decide_True by done.
          apply list_elem_of_filter. split; [|done].
          rewrite fmap_reverse, elem_of_reverse. by apply Hn. }
    destruct (IH w1) as (w2 & H2 & HU2 & HP2 & HC2 & HF2 & HO2 & HN2).
    { intros k' s' Hin. apply Hshape. by right. }
    exists w2. split.
    { simpl. unfold_M. unfold mret, M_ret in H1. by rewrite H1. }
    repeat split; try congruence.
    + intros m Hm. by rewrite HO2, HO.
    + apply HN2 in H as [H _]. by apply HN in H as [? _].
    + intros k' es [[= <- <-]|Hin]%elem_of_cons Hk'.
      * apply HN2 in H as [H _]. apply HN in H as [_ H]. by apply H.
      * apply HN2 in H as [_ H]. by apply (H k' es).
    + intros [Hl Hn]. apply HN2. split.
      * apply HN. split; [done|]. intros Hk es ->. apply (Hn k es); [left|done].
      * intros k' es Hin. apply Hn. by right.
Qed.

Lemma stop_all_touched n w uid :
  consistent w → identity w n = Some uid →
  ∃ w', stopObserving n None None w = Ok n w' ∧ cleared n w w'.
Proof.
  intros C Hi.
  destruct (identity_the_uid _ _ _ Hi) as [Hu Ht].
  unfold stopObserving, stopObservingElement. unfold_M.
  rewrite (getUniqueElementID_known n w uid) by done.
  destruct (cache w !! uid) as [r|] eqn:Hc.
  - unfold destroyRegistryForElement, uid_or_lookup. unfold_M.
    destruct (for_each_bulk n (map_to_list r) (set_cache (delete uid) w))
      as (w2 & H2 & HU2 & HP2 & HC2 & HF2 & HO2 & HN2).
    { intros k s Hin%elem_of_map_to_list Hk.
      destruct (cache_buckets w C _ _ _ _ Hc Hin Hk) as (l & -> & _). eauto. }
    exists w2. split.
    { unfold mret, M_ret in H2. by rewrite H2. }
    split; rewrite ?Hu, ?Ht; try done.
    intros m. destruct (decide (m = n)) as [->|Hne]; [|by rewrite HO2].
    apply elem_of_nil_inv. intros l Hl.
    apply HN2 in Hl as [Hl Hnot].
    destruct (listeners_named w n l C Hl) as (k & e & He & ->).
    destruct (entries_of_ok _ _ _ _ _ C Hi He) as [Hk _].
    rewrite (entries_of_eq _ _ _ _ Hi), Hc in He.
    unfold bucket in He. destruct (r !! k) as [[| es |]|] eqn:Hrk; try by apply elem_of_nil in He.
    apply (Hnot k es); [by apply elem_of_map_to_list|done|].
    apply list_elem_of_fmap. eauto.
  - exists w. split; [done|]. split; rewrite ?Hu, ?Ht; try done.
    + by rewrite delete_id.
    + intros m. destruct (decide (m = n)) as [->|]; [|done].
      apply listeners_nil; [done|]. intros k. by rewrite (entries_of_eq _ _ _ _ Hi), Hc.
Qed.

Lemma cleared_pretouch n w w' :
  consistent w → cleared n w w' ↔ cleared n (touch n w) w'.
Proof.
  intros C. split; intros [A B D E F]; split;
    rewrite ?touch_idem, ?the_uid_touch, ?touch_closures, ?touch_cache in * by done; try done.
  - intros m. rewrite F. by rewrite !listeners_of_touch.
  - intros m. rewrite F. by rewrite !listeners_of_touch.
Qed.

Lemma cleared_entries n w w' uid :
  consistent w → identity w n = Some uid → cleared n w w' →
  ∀ m k, entries_of w' m k = if decide (m = n) then [] else entries_of w m k.
Proof.
  intros C Hi [HU HP HC Hcache HL] m k.
  destruct (identity_the_uid _ _ _ Hi) as [Hu Ht]. rewrite Hu, Ht in *.
  unfold entries_of at 1. rewrite (identity_same w w') by done. rewrite Hcache.
  destruct (decide (m = n)) as [->|Hne].
  - rewrite Hi. simpl. by rewrite lookup_delete_eq.
  - unfold entries_of. destruct (identity w m) as [u|] eqn:Hm; [|done]. simpl.
    rewrite lookup_delete_ne; [done|]. intros ->. apply Hne. by eapply identity_inj.
Qed.

Lemma cleared_consistent n w w' : consistent w → cleared n w w' → consistent w'.
Proof.
  intros C0 R0.
  pose proof (consistent_touch n w C0) as C.
  apply cleared_pretouch in R0; [|done].
  pose proof (identity_touch n w) as Hi.
  revert C Hi R0. generalize (touch n w) (the_uid w n). clear w C0.
  intros w uid C Hi R.
  pose proof (cleared_entries n w w' uid C Hi R) as Hent.
  destruct R as [HU HP HC Hcache HL].
  destruct (identity_the_uid _ _ _ Hi) as [Hu Ht]. rewrite Hu, Ht in *.
  assert (∀ u r, cache w' !! u = Some r → cache w !! u = Some r) as Hlook.
  { intros u r. rewrite Hcache. destruct (decide (u = uid)) as [->|].
    - by rewrite lookup_delete_eq.
    - by rewrite lookup_delete_ne. }
  split.
  - rewrite HU. apply C.
  - rewrite HU, HP. apply C.
  - rewrite HP. apply C.
  - intros u r Hr%Hlook. destruct (cache_owner w C _ _ Hr) as (m & ? & ?).
    exists m. by rewrite (identity_same w w').
  - intros u r k s Hr%Hlook. by apply (cache_buckets w C).
  - intros u r Hr%Hlook. by apply (cache_nonempty w C _ _ Hr).
  - intros m k. rewrite HL, Hent. destruct (decide (m = n)); [done|]. apply (listeners_sync w C).
Qed.


Lemma consistent_initial : consistent initial.
Proof.
  split; simpl; try done.
  - lia.
  - intros n k. unfold listeners_of, entries_of, identity. simpl.
    rewrite lookup_empty. simpl. rewrite filter_nil.
    destruct (decide (n = window)); simpl; by rewrite lookup_empty.
Qed.

Lemma stop_handler_spec n k h w :
  consistent w → event_key k →
  ∃ w', stopObserving n (Some k) (Some h) w = Ok n w' ∧
        removal n k (filter (λ e, handler e = h) (entries_of w n k)) w w'.
Proof.
  intros C Hk. rewrite stopObserving_pretouch.
  destruct (stop_handler_touched n k h (touch n w) _ (consistent_touch n w C)
              (identity_touch n w) Hk) as (w' & H & R).
  exists w'. split; [done|]. apply removal_pretouch; [done|].
  by rewrite entries_of_touch in R.
Qed.

Lemma stop_event_spec n k w :
  consistent w → event_key k →
  ∃ w', stopObserving n (Some k) None w = Ok n w' ∧ removal n k (entries_of w n k) w w'.
Proof.
  intros C Hk. rewrite stopObserving_pretouch.
  destruct (stop_event_touched n k (touch n w) _ (consistent_touch n w C)
              (identity_touch n w) Hk) as (w' & H & R).
  exists w'. split; [done|]. apply removal_pretouch; [done|].
  by rewrite entries_of_touch in R.
Qed.

Lemma stop_all_spec n w :
  consistent w → ∃ w', stopObserving n None None w = Ok n w' ∧ cleared n w w'.
Proof.
  intros C. rewrite stopObserving_pretouch.
  destruct (stop_all_touched n (touch n w) _ (consistent_touch n w C) (identity_touch n w))
    as (w' & H & R).
  exists w'. split; [done|]. by apply cleared_pretouch.
Qed.

Lemma observe_consistent n k h w :
  consistent w → event_key k → ∃ w', observe n k h w = Ok n w' ∧ consistent w'.
Proof.
  intros C Hk. destruct (decide (h ∈ handler <$> entries_of w n k)) as [Hb|Hb].
  - exists w. split; [by apply observe_dup|done].
  - exists (observed n k h w). split; [by apply observe_new|by apply consistent_observed].
Qed.

Lemma run_op_consistent op w :
  consistent w → op_ok op → ∃ n w', run_op op w = Ok n w' ∧ consistent w'.
Proof.
  intros C Hop. destruct op as [n k h|n [k|] [h|]]; simpl in *; try done.
  - destruct (observe_consistent n k h w C Hop) as (w' & ? & ?). eauto.
  - destruct (stop_handler_spec n k h w C Hop) as (w' & ? & R). exists n, w'. split; [done|].
    eapply removal_consistent; [done|apply Hop| |done]. apply list_subseteq_filter.
  - destruct (stop_event_spec n k w C Hop) as (w' & ? & R). exists n, w'. split; [done|].
    eapply removal_consistent; [done|apply Hop| |done]. done.
  - destruct (stop_all_spec n w C) as (w' & ? & R). exists n, w'. split; [done|].
    by eapply cleared_consistent.
Qed.

Lemma run_ops_consistent ops w :
  consistent w → Forall op_ok ops → ∃ w', run_ops ops w = Ok tt w' ∧ consistent w'.
Proof.
  revert w. induction ops as [|op ops IH]; intros w C Hops.
  - by exists w.
  - apply Forall_cons in Hops as [Hop Hops].
    destruct (run_op_consistent op w C Hop) as (n & w1 & H1 & C1).
    destruct (IH w1 C1 Hops) as (w2 & H2 & C2).
    exists w2. split; [|done]. simpl. unfold_M. by rewrite H1.
Qed.

Lemma has_entry_binding w n :
  consistent w → has_entry w n ↔ ∃ k e, active_binding w n k e.
Proof.
  intros C. split.
  - intros (uid & r & Hi & Hc).
    destruct (cache_nonempty w C _ _ Hc) as (k & Hk & [s Hs]).
    destruct (cache_buckets w C _ _ _ _ Hc Hs Hk) as (l & -> & Hne & _).
    destruct l as [|e l]; [done|]. exists k, e.
    assert (e ∈ entries_of w n k) as He.
    { rewrite (entries_of_eq _ _ _ _ Hi), Hc. unfold bucket. rewrite Hs. left. }
    split; [done|].
    assert (listener_of k e ∈ listener_of k <$> entries_of w n k) as H
      by (apply list_elem_of_fmap; eauto).
    rewrite <- (listeners_sync w C) in H. by apply list_elem_of_filter in H as [_ ?].
  - intros (k & e & He & _). unfold entries_of in He. unfold has_entry.
    destruct (identity w n) as [uid|]; simpl in He; [|by apply elem_of_nil in He].
    destruct (cache w !! uid) as [r|] eqn:Hc; [eauto|by apply elem_of_nil in He].
Qed.

Lemma has_entry_listeners w n :
  consistent w → has_entry w n ↔ listeners_of w n ≠ [].
Proof.
  intros C. rewrite has_entry_binding by done. split.
  - intros (k & e & _ & Hl) H. rewrite H in Hl. by apply elem_of_nil in Hl.
  - intros H. destruct (listeners_of w n) as [|l L] eqn:E; [done|].
    destruct (listeners_named w n l C) as (k & e & He & ->); [rewrite E; left|].
    exists k, e. split; [done|]. rewrite E. left.
Qed.



Local Arguments call_user : simpl never.

Lemma listener_items_true dom w ev l :
  String.eqb (l_type l) (ev_type ev) = true →
  listener_items dom w ev l =
  run_trace (run_responder dom no_effect (l_callback l) ev w)
  ++ reported (run_result (run_responder dom no_effect (l_callback l) ev w)).
Proof. intros H. unfold listener_items. by rewrite H. Qed.

Lemma listener_items_false dom w ev l :
  String.eqb (l_type l) (ev_type ev) = false → listener_items dom w ev l = [].
Proof. intros H. unfold listener_items. by rewrite H. Qed.

Section Dispatch.
Variable dom : Dom.
Variable effect : TraceItem → World → World.
Hypothesis Hpassive : passive effect.

Lemma call_user_passive item w w0 :
  same_registrations w0 w →
  same_registrations w0 (run_world (call_user effect item w))
  ∧ run_trace (call_user effect item w) = run_trace (call_user no_effect item w0)
  ∧ run_result (call_user effect item w) = run_result (call_user no_effect item w0).
Proof.
  intros [Hc Hl]. unfold call_user, same_registrations. simpl.
  destruct (Hpassive item w) as [-> ->]. done.
Qed.

Lemma call_handler_passive h this ev w w0 :
  same_registrations w0 w →
  same_registrations w0 (run_world (call_handler dom effect h this ev w))
  ∧ run_trace (call_handler dom effect h this ev w)
    = run_trace (call_handler dom no_effect h this ev w0)
  ∧ run_result (call_handler dom effect h this ev w)
    = run_result (call_handler dom no_effect h this ev w0).
Proof.
  intros Hs. destruct h as [f|id el en sel cb]; simpl.
  - by apply call_user_passive.
  - unfold handleEvent. destruct (findElement dom ev sel) as [[m|]|e]; simpl; try done.
    destruct cb; simpl; try done.
    split; [|done]. apply (call_user_passive (CallbackCall f el ev m) w w0 Hs).
Qed.

Lemma run_responder_passive r ev w w0 :
  same_registrations w0 w →
  same_registrations w0 (run_world (run_responder dom effect r ev w))
  ∧ run_trace (run_responder dom effect r ev w)
    = run_trace (run_responder dom no_effect r ev w0)
  ∧ run_result (run_responder dom effect r ev w)
    = run_result (run_responder dom no_effect r ev w0).
Proof.
  intros Hs. pose proof Hs as [Hc Hl]. destruct r as [fn uid k h|fn uid k h]; simpl; rewrite Hc.
  - destruct (cache w0 !! uid); [|done]. by apply call_handler_passive.
  - destruct (ev_eventName ev); [|done]. destruct (negb _); [done|].
    by apply call_handler_passive.
Qed.

Lemma invoke_passive snapshot node ev w w0 :
  same_registrations w0 w → snapshot ⊆ listeners_of w0 node →
  same_registrations w0 (invoke dom effect snapshot node ev w).1
  ∧ (invoke dom effect snapshot node ev w).2 = snapshot ≫= listener_items dom w0 ev.
Proof.
  revert w. induction snapshot as [|l rest IH]; intros w Hs Hsub; [done|].
  rewrite bind_cons. cbn [invoke].
  assert (l ∈ listeners_of w node) as Hin.
  { unfold listeners_of. destruct Hs as [_ ->]. apply Hsub. left. }
  rewrite bool_decide_eq_true_2 by done. simpl.
  assert (rest ⊆ listeners_of w0 node) as Hrest by (intros x Hx; apply Hsub; by right).
  destruct (String.eqb (l_type l) (ev_type ev)) eqn:Ety.
  - destruct (run_responder_passive (l_callback l) ev w w0 Hs) as (Hs1 & Ht & Hr).
    destruct (IH _ Hs1 Hrest) as [Hs2 Ht2].
    destruct (invoke dom effect rest node ev _) as [w' t]. simpl in *.
    split; [done|]. rewrite Ht, Hr, Ht2, (listener_items_true _ _ _ _ Ety).
    by rewrite <- app_assoc.
  - destruct (IH w Hs Hrest) as [? ->]. split; [done|].
    by rewrite (listener_items_false _ _ _ _ Ety).
Qed.

Lemma propagate_passive path ev w w0 :
  same_registrations w0 w →
  same_registrations w0 (propagate dom effect path ev w).1
  ∧ (propagate dom effect path ev w).2 = path_items dom w0 ev path.
Proof.
  revert w. induction path as [|n rest IH]; intros w Hs; [done|].
  unfold path_items. rewrite bind_cons. cbn [propagate].
  destruct (invoke_passive (listeners_of w n) n (with_currentTarget (Some n) ev) w w0 Hs)
    as [Hs1 Ht1].
  { unfold listeners_of. by destruct Hs as [_ ->]. }
  destruct (invoke dom effect _ n _ w) as [w1 t1]. simpl in *.
  destruct (IH w1 Hs1) as [Hs2 Ht2].
  destruct (propagate dom effect rest ev w1) as [w2 t2]. simpl in *.
  split; [done|]. rewrite Ht1, Ht2. unfold node_items, listeners_of.
  by destruct Hs as [_ ->].
Qed.

Lemma dispatchEvent_passive target ev w :
  (dispatchEvent dom effect target ev w).1.2 =
  path_items dom w (with_target (Some target) ev)
    (event_path dom (ev_type ev) (ev_bubbles ev) target).
Proof.
  unfold dispatchEvent. simpl.
  destruct (propagate_passive (event_path dom (ev_type ev) (ev_bubbles ev) target)
              (with_target (Some target) ev) w w) as [_ Ht]; [done|].
  destruct (propagate dom effect _ _ w) as [w' t]. simpl in *. done.
Qed.

Lemma dispatchEvent_registrations target ev w :
  same_registrations w (dispatchEvent dom effect target ev w).1.1.
Proof.
  unfold dispatchEvent. simpl.
  destruct (propagate_passive (event_path dom (ev_type ev) (ev_bubbles ev) target)
              (with_target (Some target) ev) w w) as [Hs _]; [done|].
  destruct (propagate dom effect _ _ w) as [w' t]. simpl in *. done.
Qed.

End Dispatch.


Lemma call_handler_items dom h this ev w :
  run_trace (call_handler dom no_effect h this ev w)
  ++ reported (run_result (call_handler dom no_effect h this ev w))
  = handler_items dom h this ev.
Proof.
  destruct h as [f|id el en sel cb]; simpl; [done|].
  unfold handler_items, handleEvent.
  destruct (findElement dom ev sel) as [[m|]|e]; simpl; try done.
  by destruct cb.
Qed.

Lemma string_eqb_eq (a b : string) : String.eqb a b = bool_decide (a = b).
Proof.
  destruct (String.eqb_spec a b); [by rewrite bool_decide_eq_true_2|by rewrite bool_decide_eq_false_2].
Qed.

Lemma listener_items_entry dom w n uid k e ev :
  consistent w → identity w n = Some uid → e ∈ entries_of w n k →
  listener_items dom w ev (listener_of k e) =
  if decide (carries k ev) then handler_items dom (handler e) (Some (SElement n)) ev else [].
Proof.
  intros C Hi He.
  destruct (entries_of_ok _ _ _ _ _ C Hi He) as [Hk [fn Hr]].
  rewrite (entries_of_eq _ _ _ _ Hi) in He.
  destruct (cache w !! uid) as [r|] eqn:Hc; [|by apply elem_of_nil in He].
  destruct (cache_owner w C _ _ Hc) as (m & Hm & Hel).
  rewrite <- (identity_inj w n m uid C Hi Hm) in Hel.
  assert (js_get r "element" = Some (SElement n)) as Hjs by (unfold js_get; by rewrite Hel).
  unfold listener_items, listener_of, actualEventName. cbn [l_type l_callback].
  rewrite Hr. unfold mk_responder.
  destruct (decide (carries k ev)) as [Hcar|Hcar]; unfold carries in Hcar;
    destruct (isCustomEvent k) eqn:Hcust; rewrite string_eqb_eq; cbn [run_responder];
    rewrite ?Hc; cbn [mbind option_bind].
  - destruct Hcar as [Hty Hname]. rewrite Hname, bool_decide_eq_true_2 by done.
    rewrite String.eqb_refl. cbn [negb]. rewrite Hjs. apply call_handler_items.
  - rewrite bool_decide_eq_true_2 by done. rewrite Hjs. apply call_handler_items.
  - case_bool_decide as Hty; [|done].
    destruct (ev_eventName ev) as [name|] eqn:Hname; [|done].
    rewrite string_eqb_eq. case_bool_decide as Hn; [|done]. subst. exfalso. by apply Hcar.
  - case_bool_decide as Hty; [|done]. exfalso. by apply Hcar.
Qed.

Lemma calls_of_bind {A} h (f : A → list TraceItem) (l : list A) :
  calls_of h (l ≫= f) = l ≫= (λ a, calls_of h (f a)).
Proof.
  induction l as [|a l IH]; [done|]. rewrite !bind_cons. unfold calls_of in *.
  by rewrite filter_app, IH.
Qed.

Lemma calls_of_app h t1 t2 : calls_of h (t1 ++ t2) = calls_of h t1 ++ calls_of h t2.
Proof. apply filter_app. Qed.

Lemma calls_of_handler_items dom H h this ev :
  calls_of H (handler_items dom h this ev) =
  if decide (h = H) then [HandlerCall h this ev] else [].
Proof.
  unfold handler_items, calls_of. rewrite filter_cons. simpl.
  assert (filter (is_call_of H)
    match h with
    | UserFn _ => []
    | HandleEventBound _ element _ selector callback =>
        match findElement dom ev selector with
        | Normal (Some found) =>
            match callback with
            | VFunction f => [CallbackCall f element ev found]
            | _ => [Uncaught TypeError]
            end
        | Normal None => []
        | Abrupt e => [Uncaught e]
        end
    end = []) as ->.
  { destruct h as [|? ? ? sel cb]; [done|].
    destruct (findElement dom ev sel) as [[m|]|]; try done. by destruct cb. }
  by destruct (decide (h = H)).
Qed.

Lemma bind_nil_all {A B} (f : A → list B) (l : list A) :
  (∀ a, a ∈ l → f a = []) → l ≫= f = [].
Proof.
  induction l as [|a l IH]; [done|]. intros H. rewrite bind_cons, (H a) by left.
  apply IH. intros; apply H; by right.
Qed.

(** A handler call in the trace comes from a binding on the path. *)
Lemma call_in_path_items dom w ev path h this ev' :
  consistent w → HandlerCall h this ev' ∈ path_items dom w ev path →
  ∃ M k, M ∈ path ∧ bound w M k h ∧ carries k ev
         ∧ this = Some (SElement M) ∧ ev' = with_currentTarget (Some M) ev.
Proof.
  intros C Hin. unfold path_items in Hin.
  apply list_elem_of_bind in Hin as (M & Hin & HM).
  unfold node_items in Hin. apply list_elem_of_bind in Hin as (l & Hin & Hl).
  destruct (listeners_named w M l C Hl) as (k & e & He & ->).
  assert (∃ uid, identity w M = Some uid) as [uid Hi].
  { unfold entries_of in He. destruct (identity w M); [eauto|by apply elem_of_nil in He]. }
  rewrite (listener_items_entry dom w M uid k e _ C Hi He) in Hin.
  destruct (decide (carries k _)) as [Hc|]; [|by apply elem_of_nil in Hin].
  exists M, k. split; [done|].
  unfold handler_items in Hin. apply elem_of_cons in Hin as [[= -> -> ->]|Hin].
  - repeat split; try done. unfold bound. apply list_elem_of_fmap. eauto.
  - exfalso. destruct (handler e) as [|? ? ? sel cb]; [by apply elem_of_nil in Hin|].
    destruct (findElement dom _ sel) as [[m|]|]; try (by apply elem_of_nil in Hin).
    + destruct cb; apply list_elem_of_singleton in Hin; done.
    + by apply list_elem_of_singleton in Hin.
Qed.

Lemma calls_of_elem h item t : item ∈ calls_of h t ↔ is_call_of h item ∧ item ∈ t.
Proof. apply list_elem_of_filter. Qed.

Lemma no_calls_unbound dom w ev path H :
  consistent w → (∀ M k, M ∈ path → carries k ev → ¬ bound w M k H) →
  calls_of H (path_items dom w ev path) = [].
Proof.
  intros C Hnb. apply elem_of_nil_inv. intros item [Hcall Hin]%calls_of_elem.
  destruct item as [h this ev'| |]; simpl in Hcall; try done. subst h.
  destruct (call_in_path_items dom w ev path H this ev' C Hin) as (M & k & HM & Hb & Hc & _).
  by apply (Hnb M k).
Qed.


Lemma observed_entries_touched n k h w uid :
  consistent w → identity w n = Some uid →
  ∀ m k', entries_of (observed n k h w) m k' =
    if decide (m = n ∧ k' = k) then entries_of w n k ++ [new_entry n k h w]
    else entries_of w m k'.
Proof.
  intros C Hi m k'.
  destruct (identity_the_uid _ _ _ Hi) as [Hu Ht].
  pose proof (registry_of_element w n uid C Hi) as Hel.
  assert (∀ m, identity (observed n k h w) m = identity w m) as Hid.
  { intros x. unfold observed, identity. simpl. by rewrite Ht. }
  unfold entries_of at 1. rewrite Hid. unfold observed, new_entry. simpl. rewrite Hu.
  destruct (identity w m) as [u|] eqn:Hm; simpl.
  - destruct (decide (u = uid)) as [->|Hne].
    + rewrite (identity_inj w m n uid C Hm Hi). rewrite lookup_insert_eq.
      destruct (decide (k' = k)) as [->|Hk'].
      * rewrite decide_True by done. apply bucket_insert_eq.
      * rewrite decide_False by tauto. rewrite bucket_insert_ne by done.
        destruct (decide (k' = "element")) as [->|].
        { rewrite entries_of_element by done. unfold bucket. by rewrite Hel. }
        by rewrite <- entries_of_registry_of.
    + rewrite lookup_insert_ne by done. rewrite decide_False.
      * by rewrite (entries_of_eq _ _ _ _ Hm).
      * intros [-> _]. congruence.
  - rewrite decide_False; [|intros [-> _]; congruence].
    unfold entries_of. by rewrite Hm.
Qed.

Lemma new_entry_pretouch n k h w : new_entry n k h (touch n w) = new_entry n k h w.
Proof. unfold new_entry. by rewrite the_uid_touch, touch_closures. Qed.

Lemma observed_entries n k h w :
  consistent w →
  ∀ m k', entries_of (observed n k h w) m k' =
    if decide (m = n ∧ k' = k) then entries_of w n k ++ [new_entry n k h w]
    else entries_of w m k'.
Proof.
  intros C m k'. rewrite observed_pretouch by done.
  rewrite (observed_entries_touched n k h (touch n w) _ (consistent_touch n w C)
             (identity_touch n w)).
  by rewrite !entries_of_touch, new_entry_pretouch.
Qed.

Lemma observed_listeners n k h w m :
  listeners_of (observed n k h w) m =
  if decide (m = n) then listeners_of w n ++ [listener_of k (new_entry n k h w)]
  else listeners_of w m.
Proof.
  unfold observed, listeners_of. simpl.
  destruct (decide (m = n)) as [->|]; [by rewrite lookup_insert_eq|by rewrite lookup_insert_ne].
Qed.

Lemma removal_entries_gen n k removed w w' :
  consistent w → k ≠ "element" → removal n k removed w w' →
  ∀ m k', entries_of w' m k' =
    if decide (m = n ∧ k' = k) then filter (λ e, e ∉ removed) (entries_of w n k)
    else entries_of w m k'.
Proof.
  intros C Hk R m k'. apply removal_pretouch in R; [|done].
  rewrite (removal_entries n k removed (touch n w) w' _ (consistent_touch n w C)
             (identity_touch n w) Hk R).
  by rewrite !entries_of_touch.
Qed.

Lemma bound_observed n k h w M k' h' :
  consistent w →
  bound (observed n k h w) M k' h' ↔ bound w M k' h' ∨ (M = n ∧ k' = k ∧ h' = h).
Proof.
  intros C. unfold bound. rewrite observed_entries by done.
  destruct (decide (M = n ∧ k' = k)) as [[-> ->]|Hne].
  - rewrite fmap_app, elem_of_app. simpl. rewrite list_elem_of_singleton. tauto.
  - tauto.
Qed.

Lemma listeners_nodup w n : consistent w → NoDup (listeners_of w n).
Proof.
  intros C. pose proof (listeners_sync w C n) as Hsync.
  assert (∀ k, NoDup (filter (named k) (listeners_of w n))) as Hnd.
  { intros k. rewrite Hsync. pose proof (entries_nodup w n k C) as H.
    apply NoDup_fmap_1 in H as H'.
    eapply NoDup_fmap_2_strong; [|done].
    intros x y Hx Hy Heq. unfold listener_of in Heq. injection Heq as Heq.
    destruct (decide (identity w n = None)) as [Hi|Hi].
    { unfold entries_of in Hx. rewrite Hi in Hx. by apply elem_of_nil in Hx. }
    destruct (identity w n) as [uid|] eqn:Hid; [|done].
    eapply (listener_of_inj w n uid k); try done. unfold listener_of. by rewrite Heq. }
  clear Hsync. induction (listeners_of w n) as [|l L IH]; [constructor|].
  constructor.
  - intros Hin. specialize (Hnd (r_eventName (l_callback l))).
    rewrite filter_cons_True in Hnd by done. apply NoDup_cons in Hnd as [Hnd _].
    apply Hnd. by apply list_elem_of_filter.
  - apply IH. intros k. specialize (Hnd k). rewrite filter_cons in Hnd.
    destruct (decide (named k l)); [by apply NoDup_cons in Hnd as [_ ?]|done].
Qed.

Section Paths.
Variable dom : Dom.

Lemma get_parent_lt ty n p : get_parent dom ty n = Some p → p < n.
Proof.
  unfold get_parent, parentNode, window, document.
  repeat case_bool_decide; subst; simpl; try done.
  - destruct (String.eqb ty "load"); [done|]. intros [= <-]. lia.
  - destruct (parent dom n) as [q|]; [|done]. case_bool_decide; [|done]. by intros [= <-].
Qed.

Lemma path_from_tail fuel ty n M :
  M ∈ path_from dom fuel ty n → M = n ∨ M < n.
Proof.
  revert n. induction fuel as [|fuel IH]; intros n; simpl.
  - intros ->%list_elem_of_singleton. by left.
  - intros [->|Hin]%elem_of_cons; [by left|]. right.
    destruct (get_parent dom ty n) as [p|] eqn:Hp; [|by apply elem_of_nil in Hin].
    apply get_parent_lt in Hp. apply IH in Hin as [->|?]; lia.
Qed.

Lemma event_path_head ty b n :
  ∃ tail, event_path dom ty b n = n :: tail ∧ ∀ M, M ∈ tail → M < n.
Proof.
  unfold event_path. destruct b.
  - destruct n as [|n]; simpl.
    + exists []. split; [done|]. intros M []%elem_of_nil.
    + destruct (get_parent dom ty (S n)) as [p|] eqn:Hp.
      * eexists. split; [done|]. intros M HM.
        apply get_parent_lt in Hp. apply path_from_tail in HM as [->|?]; lia.
      * exists []. split; [done|]. intros M []%elem_of_nil.
  - exists []. split; [done|]. intros M []%elem_of_nil.
Qed.
End Paths.


Lemma observe_bound n k h w :
  consistent w → event_key k →
  ∃ w1, observe n k h w = Ok n w1 ∧ consistent w1
        ∧ (∀ M k' h', bound w1 M k' h' ↔ bound w M k' h' ∨ (M = n ∧ k' = k ∧ h' = h))
        ∧ entries_of w n k `prefix_of` entries_of w1 n k.
Proof.
  intros C Hk. destruct (decide (h ∈ handler <$> entries_of w n k)) as [Hb|Hb].
  - exists w. split; [by apply observe_dup|]. split; [done|]. split; [|done].
    intros M k' h'. split; [tauto|]. intros [?|(-> & -> & ->)]; done.
  - exists (observed n k h w). split; [by apply observe_new|].
    split; [by apply consistent_observed|]. split.
    + intros. by apply bound_observed.
    + rewrite observed_entries, decide_True by done. by apply prefix_app_r.
Qed.

(** The bindings after [observe(N, E, H)] and [stopObserving(N, E, H)]:
    those of before, less the one of [H] under [E] on [N]. *)
Lemma roundtrip_bound N E H w :
  consistent w → event_key E →
  ∃ w1 w2,
    observe N E H w = Ok N w1 ∧
    stopObserving N (Some E) (Some H) w1 = Ok N w2 ∧
    consistent w2 ∧
    ∀ M k, bound w2 M k H → bound w M k H ∧ ¬ (M = N ∧ k = E).
Proof.
  intros C Hk.
  destruct (observe_bound N E H w C Hk) as (w1 & H1 & C1 & Hb1 & _).
  destruct (stop_handler_spec N E H w1 C1 Hk) as (w2 & H2 & R).
  assert (consistent w2) as C2.
  { eapply removal_consistent; [exact C1|apply Hk| |exact R]. apply list_subseteq_filter. }
  exists w1, w2. do 3 (split; [done|]).
  intros M k. unfold bound at 1. rewrite (removal_entries_gen _ _ _ _ _ C1 (proj1 Hk) R).
  destruct (decide (M = N ∧ k = E)) as [[-> ->]|Hne].
  - intros (e & Hh & [Hnot He]%list_elem_of_filter)%list_elem_of_fmap.
    exfalso. apply Hnot. by apply list_elem_of_filter.
  - intros Hb. split; [|done].
    apply Hb1 in Hb as [Hb|(-> & -> & _)]; [done|]. exfalso. by apply Hne.
Qed.

(** Claim C3, for event names with a free registry key: [observe(N, E, H)]
    and [stopObserving(N, E, H)] return [N]; afterwards no bucket of [N]
    references [H] when [H] was bound on [N] under no other name, and an
    event carrying [E] that is dispatched on [N] does not call [H] when
    [H] was bound under no other name the event carries on [N] and under
    no name it carries on the other nodes the event passes. *)
Theorem observe_stopObserving_roundtrip dom effect w N E H :
  consistent w → passive effect → event_key E →
  ∃ w1 w2,
    observe N E H w = Ok N w1 ∧
    stopObserving N (Some E) (Some H) w1 = Ok N w2 ∧
    (only_bucket_of w N E H → ∀ k, ¬ bound w2 N k H) ∧
    (∀ ev, carries E ev → only_reached_at dom w N E H ev →
           calls_of H (dispatchEvent dom effect N ev w2).1.2 = []).
Proof.
  intros C Hp Hk.
  destruct (roundtrip_bound N E H w C Hk) as (w1 & w2 & H1 & H2 & C2 & Hleft).
  exists w1, w2. do 2 (split; [done|]). split.
  - intros Honly k Hb. apply Hleft in Hb as [Hb Hne]. apply Hne. split; [done|].
    by apply Honly.
  - intros ev Hcar Honly. rewrite dispatchEvent_passive by done.
    apply no_calls_unbound; [done|]. intros M k HM Hck Hb.
    apply Hleft in Hb as [Hb Hne]. apply Hne. apply (Honly M k); [done| |done].
    unfold carries in *. by destruct (isCustomEvent k).
Qed.

Lemma carries_with k ev t c :
  carries k (with_currentTarget c (with_target t ev)) ↔ carries k ev.
Proof. unfold carries. by destruct (isCustomEvent k). Qed.

Lemma carries_with_currentTarget k ev c : carries k (with_currentTarget c ev) ↔ carries k ev.
Proof. unfold carries. by destruct (isCustomEvent k). Qed.

Lemma bound_entry w n k h :
  bound w n k h → ∃ e, e ∈ entries_of w n k ∧ handler e = h.
Proof. intros (e & -> & He)%list_elem_of_fmap. eauto. Qed.

Lemma entry_unique w n k e1 e2 :
  consistent w → e1 ∈ entries_of w n k → e2 ∈ entries_of w n k →
  handler e1 = handler e2 → e1 = e2.
Proof.
  intros C H1 H2 Heq. pose proof (entries_nodup w n k C) as Hnd.
  apply list_elem_of_lookup in H1 as [i Hi], H2 as [j Hj].
  assert (i = j).
  { eapply NoDup_lookup; [exact Hnd| |]; rewrite list_lookup_fmap.
    - by rewrite Hi. - rewrite Hj. simpl. by rewrite Heq. }
  subst. congruence.
Qed.

(** The calls of [H] made at a node where [H] is bound under [E] and
    under no other name the event carries. *)
Lemma calls_of_other_listeners_carried dom w N E H e ev (L : list Listener) :
  consistent w → e ∈ entries_of w N E → handler e = H →
  (∀ k, carries k ev → bound w N k H → k = E) →
  L ⊆ listeners_of w N → listener_of E e ∉ L →
  calls_of H (L ≫= listener_items dom w ev) = [].
Proof.
  intros C He Hh Honly Hsub Hnot. rewrite calls_of_bind. apply bind_nil_all.
  intros l Hl. destruct (listeners_named w N l C (Hsub _ Hl)) as (k & e' & He' & ->).
  assert (∃ uid, identity w N = Some uid) as [uid Hi].
  { unfold entries_of in He. destruct (identity w N); [eauto|by apply elem_of_nil in He]. }
  rewrite (listener_items_entry dom w N uid k e' _ C Hi He').
  destruct (decide (carries k ev)) as [Hck|]; [|done].
  rewrite calls_of_handler_items. destruct (decide (handler e' = H)) as [Heq|]; [|done].
  exfalso. apply Hnot.
  assert (k = E) as ->.
  { apply Honly; [done|]. unfold bound. apply list_elem_of_fmap. eauto. }
  rewrite (entry_unique w N E e e' C He He') by congruence. done.
Qed.


Lemma calls_of_node_once_carried dom w N E H ev :
  consistent w → bound w N E H → (∀ k, carries k ev → bound w N k H → k = E) →
  carries E ev →
  calls_of H (node_items dom w ev N) =
  [HandlerCall H (Some (SElement N)) (with_currentTarget (Some N) ev)].
Proof.
  intros C Hb Honly0 Hcar.
  assert (∀ k, carries k (with_currentTarget (Some N) ev) → bound w N k H → k = E) as Honly.
  { intros k Hck. apply Honly0. by apply carries_with_currentTarget in Hck. }
  destruct (bound_entry _ _ _ _ Hb) as (e & He & Hh).
  assert (∃ uid, identity w N = Some uid) as [uid Hi].
  { unfold entries_of in He. destruct (identity w N); [eauto|by apply elem_of_nil in He]. }
  assert (listener_of E e ∈ listeners_of w N) as Hin.
  { assert (listener_of E e ∈ listener_of E <$> entries_of w N E) as Hx
      by (apply list_elem_of_fmap; eauto).
    rewrite <- (listeners_sync w C) in Hx. by apply list_elem_of_filter in Hx as [_ ?]. }
  pose proof (listeners_nodup w N C) as Hnd.
  apply list_elem_of_split in Hin as (L1 & L2 & HL).
  unfold node_items. rewrite HL in *.
  apply NoDup_app in Hnd as (_ & Hd1 & Hnd2). apply NoDup_cons in Hnd2 as [Hd2 _].
  rewrite bind_app, bind_cons, !calls_of_app.
  rewrite (calls_of_other_listeners_carried dom w N E H e _ L1 C He Hh Honly).
  2:{ intros x Hx. rewrite HL. apply elem_of_app. by left. }
  2:{ intros Hx. apply (Hd1 _ Hx). left. }
  rewrite (calls_of_other_listeners_carried dom w N E H e _ L2 C He Hh Honly).
  2:{ intros x Hx. rewrite HL. apply elem_of_app. right. by right. }
  2:{ done. }
  rewrite (listener_items_entry dom w N uid E e _ C Hi He).
  rewrite decide_True by (by apply carries_with_currentTarget).
  rewrite calls_of_handler_items, Hh, decide_True by done. by rewrite app_nil_r.
Qed.

Lemma calls_of_node_once dom w N E H ev :
  consistent w → bound w N E H → (∀ k, bound w N k H → k = E) → carries E ev →
  calls_of H (node_items dom w ev N) =
  [HandlerCall H (Some (SElement N)) (with_currentTarget (Some N) ev)].
Proof.
  intros C Hb Honly. apply calls_of_node_once_carried; try done.
  intros k _. apply Honly.
Qed.

(** Claim C4, for event names with a free registry key: [observe(N, E, H)]
    twice leaves one binding of [H] in the bucket of [(N, E)], and the
    second call returns [N] and changes nothing; an event carrying [E]
    that is dispatched on [N] calls [H] once when [H] was bound under no
    other name the event carries on [N] and under no name it carries on
    the other nodes the event passes. *)
Theorem observe_twice_once dom effect w N E H :
  consistent w → passive effect → event_key E →
  ∃ w1,
    observe N E H w = Ok N w1 ∧
    observe N E H w1 = Ok N w1 ∧
    length (filter (λ e, handler e = H) (entries_of w1 N E)) = 1 ∧
    ∀ ev, carries E ev → only_reached_at dom w N E H ev →
      calls_of H (dispatchEvent dom effect N ev w1).1.2 =
      [HandlerCall H (Some (SElement N))
         (with_currentTarget (Some N) (with_target (Some N) ev))].
Proof.
  intros C Hp Hk.
  destruct (observe_bound N E H w C Hk) as (w1 & H1 & C1 & Hb1 & _).
  assert (bound w1 N E H) as Hb by (apply Hb1; by right).
  exists w1. split; [done|]. split; [by apply observe_dup|]. split.
  - destruct (bound_entry _ _ _ _ Hb) as (e & He & Hh).
    apply list_elem_of_split in He as (l1 & l2 & Hl). rewrite Hl.
    pose proof (entries_nodup w1 N E C1) as Hnd. rewrite Hl, fmap_app, fmap_cons in Hnd.
    apply NoDup_app in Hnd as (_ & Hd1 & Hnd2). apply NoDup_cons in Hnd2 as [Hd2 _].
    rewrite filter_app, filter_cons_True by done.
    rewrite (filter_none _ l1), (filter_none _ l2); [done| |].
    + intros x Hx Hxh. apply Hd2. rewrite Hh, <- Hxh. apply list_elem_of_fmap. eauto.
    + intros x Hx Hxh. apply (Hd1 (handler x)); [apply list_elem_of_fmap; eauto|].
      rewrite Hxh, Hh. left.
  - intros ev Hcar Honly. rewrite dispatchEvent_passive by done.
    assert (∀ M k, M ∈ event_path dom (ev_type ev) (ev_bubbles ev) N →
                   carries k (with_target (Some N) ev) → bound w1 M k H →
                   M = N ∧ k = E) as Honly1.
    { intros M k HM Hck [Hbd|(-> & -> & _)]%Hb1; [|done].
      apply (Honly M k); [done| |done]. unfold carries in *. by destruct (isCustomEvent k). }
    destruct (event_path_head dom (ev_type ev) (ev_bubbles ev) N) as (tail & Hpath & Htail).
    rewrite Hpath in *.
    unfold path_items. rewrite bind_cons, calls_of_app.
    rewrite (calls_of_node_once_carried dom w1 N E H _ C1 Hb).
    + fold (path_items dom w1 (with_target (Some N) ev) tail).
      rewrite no_calls_unbound; [done|done|].
      intros M k HM Hck Hbd.
      destruct (Honly1 M k) as [-> _]; [by right|done|done|]. apply Htail in HM. lia.
    + intros k Hck Hbk. destruct (Honly1 N k) as [_ ?]; [by left|done|done|done].
    + unfold carries in *. by destruct (isCustomEvent E).
Qed.




Section Frame.
Variable dom : Dom.
Variable effect : TraceItem → World → World.
Hypothesis Hpres : registry_preserving effect.

Lemma run_responder_frame r ev w w0 :
  same_registry w0 w → same_registry w0 (run_world (run_responder dom effect r ev w)).
Proof.
  intros Hs.
  assert (∀ item, same_registry w0 (effect item w)) as He.
  { intros item. unfold same_registry in *. destruct (Hpres item w) as (-> & -> & ->). done. }
  assert (∀ h this, same_registry w0 (run_world (call_handler dom effect h this ev w))) as Hh.
  { intros h this. destruct h as [f|id el en sel cb]; simpl; [apply He|].
    unfold handleEvent. destruct (findElement dom ev sel) as [[m|]|e]; simpl; try done.
    destruct cb; simpl; try done; apply He. }
  destruct r as [fn uid k h|fn uid k h]; simpl.
  - destruct (cache w !! uid); [apply Hh|done].
  - destruct (ev_eventName ev); [|done]. destruct (negb _); [done|apply Hh].
Qed.

Lemma invoke_frame snapshot node ev w w0 :
  same_registry w0 w → same_registry w0 (invoke dom effect snapshot node ev w).1.
Proof.
  revert w. induction snapshot as [|l rest IH]; intros w Hs; [done|].
  cbn [invoke]. destruct (_ && _); [|by apply IH].
  pose proof (IH _ (run_responder_frame (l_callback l) ev w w0 Hs)) as H.
  by destruct (invoke dom effect rest node ev _).
Qed.

Lemma propagate_frame path ev w w0 :
  same_registry w0 w → same_registry w0 (propagate dom effect path ev w).1.
Proof.
  revert w. induction path as [|n rest IH]; intros w Hs; [done|].
  cbn [propagate].
  pose proof (invoke_frame (listeners_of w n) n (with_currentTarget (Some n) ev) w w0 Hs) as H1.
  destruct (invoke dom effect _ n _ w) as [w1 t1]. simpl in H1.
  pose proof (IH w1 H1) as H2.
  by destruct (propagate dom effect rest ev w1).
Qed.

Lemma dispatchEvent_frame target ev w :
  same_registry w (dispatchEvent dom effect target ev w).1.1.
Proof.
  unfold dispatchEvent.
  pose proof (propagate_frame (event_path dom (ev_type (with_target (Some target) ev))
    (ev_bubbles (with_target (Some target) ev)) target) (with_target (Some target) ev) w w) as H.
  destruct (propagate dom effect _ _ w). simpl in *. by apply H.
Qed.
End Frame.

(** Claim C10: when the handlers leave the registry and the identities
    alone, so does [fire]: the cache, the identity counter, the identities
    and every bucket are the same before and after the call. *)
Theorem fire_leaves_registry dom effect w N E memo bubble :
  registry_preserving effect →
  let w' := (fire dom effect N E memo bubble w).1.1 in
  cache w' = cache w ∧ UID w' = UID w ∧ prototypeUID w' = prototypeUID w
  ∧ ∀ n k, entries_of w' n k = entries_of w n k.
Proof.
  intros Hp. simpl. unfold fire.
  destruct (dispatchEvent_frame dom effect Hp (getFireTarget dom N)
              (mkEvent "dataavailable" (match bubble with Some b => b | None => true end) true
                 (Some E) (Some (if truthy memo then memo else VEmptyObject)) None None) w)
    as (Hc & Hu & Hpu).
  repeat split; try done.
  intros n k. unfold entries_of, identity. by rewrite Hc, Hpu.
Qed.

Lemma fire_dispatch dom effect N E memo bubble w :
  fire dom effect N E memo bubble w =
  dispatchEvent dom effect (getFireTarget dom N) (fired_event E memo bubble) w.
Proof. unfold fire, fired_event. by destruct bubble. Qed.


(** Claim C5, with the carrier type let through: [fire(N, E, payload)]
    calls only handlers bound, on the path of the event, under [E] or
    under the native name of the carrier type; a handler bound under other
    simulated names only is not called. *)
Theorem fire_isolation dom effect w N E memo bubble :
  consistent w → passive effect → isCustomEvent E = true →
  fire_calls_only [E; "dataavailable"] dom effect w N E memo bubble
  ∧ (∀ h, (∀ M k, bound w M k h → isCustomEvent k = true ∧ k ≠ E) →
          calls_of h (fire dom effect N E memo bubble w).1.2 = []).
Proof.
  intros C Hp Hcust. unfold fire_calls_only.
  assert (∀ k ev, carries k (with_target ev (fired_event E memo bubble)) →
                  k = E ∨ k = "dataavailable") as Hcar.
  { intros k ev. unfold carries. destruct (isCustomEvent k).
    - simpl. intros [_ Heq]. injection Heq as ->. by left.
    - simpl. intros <-. by right. }
  rewrite fire_dispatch, dispatchEvent_passive by done. split.
  - intros h this ev Hin.
    destruct (call_in_path_items dom w _ _ h this ev C Hin) as (M & k & HM & Hb & Hc & Ht & _).
    exists M, k. repeat split; try done.
    destruct (Hcar k _ Hc) as [->| ->]; [left|right; left].
  - intros h Hh. apply no_calls_unbound; [done|]. intros M k _ Hc Hb.
    destruct (Hh M k Hb) as [Hk Hne]. apply Hcar in Hc. destruct Hc as [->| ->]; [done|].
    by vm_compute in Hk.
Qed.


(** Claim C1, for the responders of simulated events: when the entry of
    its identity is gone, the responder raises no error of its own; it
    returns false without calling the handler when the event carries
    another name or none, and otherwise calls the handler with an
    undefined context. *)
Theorem custom_responder_without_entry dom effect uid k h w0 r w1 w ev :
  isCustomEvent k = true →
  createResponder uid k h w0 = Ok r w1 →
  cache w !! uid = None →
  (ev_eventName ev ≠ Some k →
     run_responder dom effect r ev w = mkRun w [] (Normal (VBoolean false)))
  ∧ (ev_eventName ev = Some k →
     run_responder dom effect r ev w = call_handler dom effect h None ev w).
Proof.
  intros Hk Hr Hc. rewrite createResponder_eq in Hr. injection Hr as <- _.
  unfold mk_responder. rewrite Hk. simpl. rewrite Hc. simpl. split.
  - intros Hne. destruct (ev_eventName ev) as [name|]; [|done].
    destruct (String.eqb_spec name k) as [->|]; [done|done].
  - intros ->. by rewrite String.eqb_refl.
Qed.

Lemma native_responder_without_entry dom effect uid k h w0 r w1 w ev :
  isCustomEvent k = false →
  createResponder uid k h w0 = Ok r w1 →
  cache w !! uid = None →
  run_responder dom effect r ev w = mkRun w [] (Abrupt TypeError).
Proof.
  intros Hk Hr Hc. rewrite createResponder_eq in Hr. injection Hr as <- _.
  unfold mk_responder. rewrite Hk. simpl. by rewrite Hc.
Qed.

Lemma consistent_closures w c :
  consistent w →
  consistent (mkWorld (UID w) (prototypeUID w) (cache w) (listeners w) c).
Proof. intros C. split; apply C. Qed.

Section Delegation.
Variable dom : Dom.

Lemma isElement_not_text n : isElement dom n = true → isTextNode dom n = false.
Proof.
  unfold isElement, tagName, isTextNode.
  destruct (_ || _); [done|]. by destruct (nodeType dom n).
Qed.

Lemma path_reaches ty b D R :
  R ∈ event_path dom ty b D → R ≠ D → ∃ p, get_parent dom ty D = Some p.
Proof.
  unfold event_path. destruct b.
  - destruct D as [|D]; simpl.
    + intros ->%list_elem_of_singleton. done.
    + intros [->|Hin]%elem_of_cons Hne; [done|].
      destruct (get_parent dom ty (S D)); [eauto|by apply elem_of_nil in Hin].
  - intros ->%list_elem_of_singleton. done.
Qed.

Lemma text_parent ty D p :
  isTextNode dom D = true → get_parent dom ty D = Some p → parentNode dom D = Some p.
Proof.
  unfold isTextNode, get_parent.
  repeat case_bool_decide; subst; simpl; try done.
Qed.

(** The element the bound handler resolves when no selector is given. *)
Lemma element_of_reaching_event R D ev :
  isElement dom R = true → R ∈ event_path dom (ev_type ev) (ev_bubbles ev) D →
  ∃ m, _element dom (with_currentTarget (Some R) (with_target (Some D) ev)) = Normal (Some m)
       ∧ (answers_current_target dom R (ev_type ev) → m = R)
       ∧ (¬ answers_current_target dom R (ev_type ev) →
          if isTextNode dom D then parentNode dom D = Some m else m = D).
Proof.
  intros HR Hpath. unfold _element, answers_current_target. simpl. rewrite HR. simpl.
  assert (∃ m, (if isTextNode dom D then parentNode dom D else Some D) = Some m
               ∧ if isTextNode dom D then parentNode dom D = Some m else m = D) as Hfrom.
  { destruct (isTextNode dom D) eqn:HD; [|by exists D].
    destruct (path_reaches _ _ D R Hpath) as (p & Hp).
    { intros ->. rewrite (isElement_not_text D HR) in HD. done. }
    exists p. by rewrite (text_parent _ D p HD Hp). }
  destruct (String.eqb_spec (ev_type ev) "load") as [Hl|Hl]; simpl.
  { exists R. rewrite (isElement_not_text R HR). split; [done|]. split; [done|].
    intros Hn. exfalso. apply Hn. by left. }
  destruct (String.eqb_spec (ev_type ev) "error") as [He|He]; simpl.
  { exists R. rewrite (isElement_not_text R HR). split; [done|]. split; [done|].
    intros Hn. exfalso. apply Hn. right. by left. }
  destruct (String.eqb_spec (ev_type ev) "click") as [Hc|Hc]; simpl.
  - destruct (is_radio_input dom R) eqn:Hradio.
    + exists R. rewrite (isElement_not_text R HR). split; [done|]. split; [done|].
      intros Hn. exfalso. apply Hn. right. right. done.
    + destruct Hfrom as (m & Hm & Hspec). exists m. split; [by rewrite Hm|].
      split; [|done]. intros [?|[?|[_ ?]]]; done.
  - destruct Hfrom as (m & Hm & Hspec). exists m. split; [by rewrite Hm|].
    split; [|done]. intros [?|[?|[? _]]]; done.
Qed.
End Delegation.

(** [on(R, E, F)] with a function where the selector goes and no callback,
    for event names with a free registry key: the handler has [F] as
    callback and no selector, and every event carrying [E] that reaches
    [R] calls [F] with [R] as context, the event, and the element the
    event came from. *)
Theorem on_with_function_selector dom effect w R E F :
  consistent w → passive effect → event_key E → isElement dom R = true →
  delegates_unfiltered dom effect w R E F.
Proof.
  intros C Hp Hk HR. unfold delegates_unfiltered.
  set (hb := HandleEventBound (closures w) R E VNull (VFunction F)).
  set (w0 := mkWorld (UID w) (prototypeUID w) (cache w) (listeners w) (S (closures w))).
  destruct (observe_bound R E hb w0 (consistent_closures w _ C) Hk) as (w1 & H1 & C1 & Hb1 & _).
  exists (mkHandler R E VNull (VFunction F) hb), w1.
  split.
  { unfold on, on_arguments, new_Handler, start. cbn [isFunction isUndefined andb].
    unfold_M. cbn [h_element h_eventName h_handler]. fold hb. fold w0. by rewrite H1. }
  do 3 (split; [done|]).
  intros D ev Hcar Hpath. cbv zeta.
  destruct (element_of_reaching_event dom R D ev HR Hpath) as (m & Hm & HmR & HmD).
  exists m. split; [|done].
  rewrite dispatchEvent_passive by done.
  assert (bound w1 R E hb) as Hb by (apply Hb1; by right).
  destruct (bound_entry _ _ _ _ Hb) as (e & He & Hh).
  assert (∃ uid, identity w1 R = Some uid) as [uid Hi].
  { unfold entries_of in He. destruct (identity w1 R); [eauto|by apply elem_of_nil in He]. }
  assert (listener_of E e ∈ listeners_of w1 R) as Hin.
  { assert (listener_of E e ∈ listener_of E <$> entries_of w1 R E) as Hx
      by (apply list_elem_of_fmap; eauto).
    rewrite <- (listeners_sync w1 C1) in Hx. by apply list_elem_of_filter in Hx as [_ ?]. }
  unfold path_items. apply list_elem_of_bind. exists R. split; [|done].
  unfold node_items. apply list_elem_of_bind. exists (listener_of E e). split; [|done].
  rewrite (listener_items_entry dom w1 R uid E e _ C1 Hi He).
  rewrite decide_True by (by apply carries_with).
  rewrite Hh. unfold hb, handler_items, findElement. rewrite Hm. simpl.
  right. left.
Qed.


Section Walk.
Variable dom : Dom.

Lemma parentNode_lt (n p : nat) : parentNode dom n = Some p → p < n.
Proof.
  unfold parentNode. destruct (_ || _); [done|].
  destruct (parent dom n) as [q|]; [|done]. case_bool_decide; [|done]. by intros [= <-].
Qed.

Lemma ancestors_from_fuel (fuel n : nat) :
  (n ≤ fuel)%nat → ancestors_from dom fuel n = ancestors_from dom n n.
Proof.
  revert fuel. induction (lt_wf n) as [n _ IH]. intros fuel Hle.
  destruct fuel as [|fuel], n as [|n]; simpl; try done; try lia.
  destruct (parentNode dom (S n)) as [p|] eqn:Hp; [|done].
  apply parentNode_lt in Hp as Hlt.
  rewrite (IH p) by lia. by rewrite (IH p Hlt n) by lia.
Qed.

(** The walk of [findElement] stops at the first element of the chain that
    matches, however far up it is. *)
Lemma find_up_first fuel n s :
  valid_selector dom s = true →
  find_up dom fuel (Some n) (VString s) =
  Normal (List.find (selects dom s) (ancestors_from dom fuel n)).
Proof.
  intros Hv. revert n. induction fuel as [|fuel IH]; intros n; simpl; unfold selects;
    destruct (isElement dom n); simpl; rewrite ?Hv; try destruct (matches dom n s); try done;
    destruct (parentNode dom n) as [p|]; try done; try apply IH; by destruct fuel.
Qed.

Lemma findElement_nearest ev s n :
  valid_selector dom s = true → s ≠ "" →
  _element dom ev = Normal (Some n) →
  findElement dom ev (VString s) = Normal (List.find (selects dom s) (ancestors dom n)).
Proof.
  intros Hv Hs Hn. unfold findElement. rewrite Hn. simpl.
  destruct (String.eqb_spec s "") as [->|_]; [done|]. simpl.
  by apply find_up_first.
Qed.

Lemma handleEvent_nearest effect R s cb ev n w :
  valid_selector dom s = true → s ≠ "" →
  _element dom ev = Normal (Some n) →
  handleEvent dom effect R (VString s) (VFunction cb) ev w =
  match List.find (selects dom s) (ancestors dom n) with
  | Some m => call_user effect (CallbackCall cb R ev m) w
  | None => mkRun w [] (Normal VUndefined)
  end.
Proof.
  intros Hv Hs Hn. unfold handleEvent. rewrite (findElement_nearest ev s n) by done.
  by destruct (List.find _ _).
Qed.

Lemma path_from_fuel (fuel : nat) ty (n : nat) :
  (n ≤ fuel)%nat → path_from dom fuel ty n = path_from dom n ty n.
Proof.
  revert fuel. induction (lt_wf n) as [n _ IH]. intros fuel Hle.
  destruct fuel as [|fuel], n as [|n]; simpl; try done; try lia.
  destruct (get_parent dom ty (S n)) as [p|] eqn:Hp; [|done].
  apply get_parent_lt in Hp as Hlt.
  rewrite (IH p) by lia. by rewrite (IH p Hlt n) by lia.
Qed.
End Walk.

(** ** The claims at concrete inputs *)

Lemma bound_initial M k h : ¬ bound initial M k h.
Proof.
  unfold bound, entries_of, identity. simpl.
  destruct (decide (M = window)); simpl; rewrite lookup_empty; simpl; apply not_elem_of_nil.
Qed.

(** Every state the documented calls reach from the initial one satisfies
    the invariant. *)
Lemma consistent_reached ops :
  Forall op_ok ops → consistent (world_of (run_ops ops initial)).
Proof.
  intros Hops.
  destruct (run_ops_consistent ops initial consistent_initial Hops) as (w & Hw & C).
  by rewrite Hw.
Qed.

Ltac reached :=
  apply consistent_reached; apply (bool_decide_unpack _); vm_compute; exact I.

Lemma consistent_ready_world : consistent Samples.ready_world.
Proof. unfold Samples.ready_world. reached. Qed.

Lemma consistent_list_world : consistent Samples.list_world.
Proof. unfold Samples.list_world. reached. Qed.

Lemma passive_no_effect : passive no_effect.
Proof. by intros item w. Qed.

(** The one binding of a state reached by one [observe]. *)
Lemma bound_single n k h M k' h' :
  event_key k →
  bound (world_of (run_ops [Observe n k h] initial)) M k' h' ↔ M = n ∧ k' = k ∧ h' = h.
Proof.
  intros Hk.
  assert (observe n k h initial = Ok n (observed n k h initial)) as Hrun.
  { apply observe_new; [apply consistent_initial|done|apply bound_initial]. }
  simpl. unfold mbind, M_bind. rewrite Hrun. simpl.
  rewrite bound_observed by apply consistent_initial. split.
  - intros [Hb|?]; [by apply bound_initial in Hb|done].
  - by right.
Qed.

(** Claim C2 at [stopObserving(ul, 'element', f)] on a list that was never
    observed: the call returns the list and leaves a registry for it in
    [Event.cache] with no binding in it and no responder attached, because
    [unregister] finds the node itself under ['element'] and the node has
    no [length] of 0; under ['click'] the same call leaves no registry. *)
Theorem stopObserving_element_name_leaves_entry :
  (∃ w, stopObserving Page.ul (Some "element") (Some (UserFn 1)) initial = Ok Page.ul w
        ∧ cache w = {[ 1 := {[ "element" := SElement Page.ul ]} ]}
        ∧ has_entry w Page.ul
        ∧ (∀ k e, ¬ active_binding w Page.ul k e)
        ∧ listeners_of w Page.ul = []
        ∧ ¬ entry_iff_binding w)
  ∧ (∃ w, stopObserving Page.ul (Some "click") (Some (UserFn 1)) initial = Ok Page.ul w
          ∧ cache w = ∅
          ∧ ¬ has_entry w Page.ul).
Proof.
  split.
  - exists (mkWorld 2 {[ Page.ul := 1 ]} {[ 1 := {[ "element" := SElement Page.ul ]} ]} ∅ 0).
    assert (has_entry (mkWorld 2 {[ Page.ul := 1 ]}
                         {[ 1 := {[ "element" := SElement Page.ul ]} ]} ∅ 0) Page.ul) as He.
    { exists 1, {[ "element" := SElement Page.ul ]}. by vm_compute. }
    split; [by vm_compute|]. split; [done|]. split; [done|]. split; [|split].
    + intros k e [_ Hl]. vm_compute in Hl. by apply elem_of_nil in Hl.
    + reflexivity.
    + intros Hinv. destruct (Hinv Page.ul) as [_ [Hl _]]. by apply Hl.
  - exists (mkWorld 2 {[ Page.ul := 1 ]} ∅ ∅ 0).
    split; [by vm_compute|]. split; [done|].
    intros (uid & registry & Hi & Hc). vm_compute in Hc. discriminate.
Qed.

(** The same under ['__proto__'], where [unregister] finds
    [Object.prototype]. *)
Lemma stopObserving_proto_name_leaves_entry :
  ∃ w, run_ops [StopObserving Page.ul (Some "__proto__") (Some (UserFn 1))] initial = Ok tt w
       ∧ ¬ entry_iff_binding w.
Proof.
  exists (mkWorld 2 {[ Page.ul := 1 ]} {[ 1 := {[ "element" := SElement Page.ul ]} ]} ∅ 0).
  split; [by vm_compute|].
  intros Hinv; destruct (Hinv Page.ul) as [_ [Hl _]].
  apply Hl; [|reflexivity]. exists 1, {[ "element" := SElement Page.ul ]}. by vm_compute.
Qed.

(** The round trip where the handler is shared: [f1] observes ['app:ready'] on
    the list, and [observe(item, 'click', f1)] followed by
    [stopObserving(item, 'click', f1)] leaves no binding of [f1] on the
    item and no click on the item calls it. *)
Lemma observe_stopObserving_roundtrip_witness :
  roundtrip_clean Page.dom no_effect Samples.ready_world Page.item "click" (UserFn 1).
Proof.
  destruct (observe_stopObserving_roundtrip Page.dom no_effect Samples.ready_world
              Page.item "click" (UserFn 1))
    as (w1 & w2 & H1 & H2 & Hreg & Hcalls).
  - apply consistent_ready_world.
  - apply passive_no_effect.
  - split; [discriminate|reflexivity].
  - exists w1, w2. split; [done|]. split; [done|]. split.
    + apply Hreg. intros k Hb.
      apply bound_single in Hb as (Hne & _); [discriminate Hne|by split].
    + intros ev Hcar. apply Hcalls; [done|]. intros M k HM Hck Hb.
      apply bound_single in Hb as (_ & -> & _); [|by split].
      destruct Hck as [Hty _]. unfold carries in Hcar. simpl in Hcar. congruence.
Defined.

(** The round trip is not clean: under ['element'] and under ['toString']
    [observe] raises a [TypeError] at [entries.push]; when [f] already
    observes ['dataavailable'] on the list, then after
    [observe(ul, 'app:ready', f)] and [stopObserving(ul, 'app:ready', f)]
    the registry still holds [f] for the list; and when [f1] observes
    ['click'] on the list, then after [observe(item, 'click', f1)] and
    [stopObserving(item, 'click', f1)] a click on the item still calls
    [f1], on the list. *)
Lemma roundtrip_not_clean :
  ¬ roundtrip_clean Page.dom no_effect initial Page.ul "element" (UserFn 1)
  ∧ ¬ roundtrip_clean Page.dom no_effect initial Page.ul "toString" (UserFn 1)
  ∧ ¬ roundtrip_clean Page.dom no_effect Page.carrier_world Page.ul "app:ready" (UserFn 1)
  ∧ ¬ roundtrip_clean Page.dom no_effect Samples.list_world Page.item "click" (UserFn 1).
Proof.
  split; [|split; [|split]].
  - intros (w1 & w2 & H1 & _). vm_compute in H1. discriminate.
  - intros (w1 & w2 & H1 & _). vm_compute in H1. discriminate.
  - intros (w1 & w2 & H1 & H2 & Hnb & _).
    vm_compute in H1. injection H1 as <-. vm_compute in H2. injection H2 as <-.
    apply (Hnb "dataavailable"). vm_compute. left.
  - intros (w1 & w2 & H1 & H2 & _ & Hcalls).
    vm_compute in H1. injection H1 as <-. vm_compute in H2. injection H2 as <-.
    specialize (Hcalls Page.click eq_refl). vm_compute in Hcalls. discriminate.
Qed.

(** Observing twice where the handler is shared: [f1] observes ['app:ready'] on
    the list, and [observe(item, 'click', f1)] twice leaves one binding in
    the bucket and a click on the item calls [f1] once. *)
Lemma observe_twice_once_witness :
  registers_once Page.dom no_effect Samples.ready_world Page.item "click" (UserFn 1).
Proof.
  destruct (observe_twice_once Page.dom no_effect Samples.ready_world
              Page.item "click" (UserFn 1))
    as (w1 & H1 & H2 & Hlen & Hcalls).
  - apply consistent_ready_world.
  - apply passive_no_effect.
  - split; [discriminate|reflexivity].
  - exists w1. do 3 (split; [done|]).
    intros ev Hcar. apply Hcalls; [done|]. intros M k HM Hck Hb.
    apply bound_single in Hb as (_ & -> & _); [|by split].
    destruct Hck as [Hty _]. unfold carries in Hcar. simpl in Hcar. congruence.
Defined.

(** Observing twice does not give one binding and one call: under
    ['element'] and under ['toString'] the first [observe] raises a
    [TypeError] and registers nothing; when [f] already observes
    ['dataavailable'] on the list, an ['app:ready'] event fired after
    [observe(ul, 'app:ready', f)] twice calls [f] twice; and when [f1]
    observes ['click'] on the list, a click on the item after
    [observe(item, 'click', f1)] twice calls [f1] twice, on the item and
    on the list. *)
Lemma observe_twice_not_once :
  ¬ registers_once Page.dom no_effect initial Page.ul "element" (UserFn 1)
  ∧ ¬ registers_once Page.dom no_effect initial Page.ul "toString" (UserFn 1)
  ∧ ¬ registers_once Page.dom no_effect Page.carrier_world Page.ul "app:ready" (UserFn 1)
  ∧ ¬ registers_once Page.dom no_effect Samples.list_world Page.item "click" (UserFn 1).
Proof.
  split; [|split; [|split]].
  - intros (w1 & H1 & _). vm_compute in H1. discriminate.
  - intros (w1 & H1 & _). vm_compute in H1. discriminate.
  - intros (w1 & H1 & _ & _ & Hcalls).
    vm_compute in H1. injection H1 as <-.
    specialize (Hcalls (fired_event "app:ready" VUndefined None)).
    vm_compute in Hcalls. specialize (Hcalls (conj eq_refl eq_refl)). discriminate.
  - intros (w1 & H1 & _ & _ & Hcalls).
    vm_compute in H1. injection H1 as <-.
    specialize (Hcalls Page.click eq_refl). vm_compute in Hcalls. discriminate.
Qed.



(** Why the handlers are taken to leave the registrations alone: with
    [f1] then [f2] observing ['click'] on the list, a click calls both,
    but when [f1] stops [f2] from observing, [f2] is not called. *)
Lemma handler_stops_the_next :
  (dispatchEvent Page.dom no_effect Page.ul Page.click Page.both_world).1.2
  = [ HandlerCall (UserFn 1) (Some (SElement Page.ul))
        (with_currentTarget (Some Page.ul) (with_target (Some Page.ul) Page.click));
      HandlerCall (UserFn 2) (Some (SElement Page.ul))
        (with_currentTarget (Some Page.ul) (with_target (Some Page.ul) Page.click)) ]
  ∧ (dispatchEvent Page.dom Page.stopper Page.ul Page.click Page.both_world).1.2
  = [ HandlerCall (UserFn 1) (Some (SElement Page.ul))
        (with_currentTarget (Some Page.ul) (with_target (Some Page.ul) Page.click)) ].
Proof. split; by vm_compute. Qed.

Lemma fire_leaves_registry_witness :
  let w' := (fire Page.dom no_effect Page.ul "app:ready" (VObject 3) None
               Page.carrier_world).1.1 in
  cache w' = cache Page.carrier_world ∧ UID w' = UID Page.carrier_world
  ∧ prototypeUID w' = prototypeUID Page.carrier_world
  ∧ ∀ n k, entries_of w' n k = entries_of Page.carrier_world n k.
Proof. apply fire_leaves_registry. by intros item w. Defined.



Lemma consistent_carrier_world : consistent Page.carrier_world.
Proof.
  assert (observe Page.ul "dataavailable" (UserFn 1) initial
          = Ok Page.ul (observed Page.ul "dataavailable" (UserFn 1) initial)) as H.
  { apply observe_new; [apply consistent_initial|by split|apply bound_initial]. }
  unfold Page.carrier_world. rewrite H. simpl.
  apply consistent_observed; [apply consistent_initial|by split|apply bound_initial].
Qed.

Lemma fire_isolation_witness :
  fire_calls_only ["app:ready"; "dataavailable"] Page.dom no_effect Page.carrier_world
    Page.span "app:ready" VUndefined None
  ∧ (∀ h, (∀ M k, bound Page.carrier_world M k h →
                  isCustomEvent k = true ∧ k ≠ "app:ready") →
          calls_of h (fire Page.dom no_effect Page.span "app:ready" VUndefined None
                        Page.carrier_world).1.2 = []).
Proof.
  apply fire_isolation.
  - apply consistent_carrier_world.
  - by intros item w.
  - reflexivity.
Defined.

Lemma fire_reaches_carrier_handlers :
  ¬ fire_calls_only ["app:ready"] Page.dom no_effect Page.carrier_world
      Page.span "app:ready" VUndefined None.
Proof.
  intros Hclaim.
  destruct (Hclaim (UserFn 1) (Some (SElement Page.ul))
              (mkEvent "dataavailable" true true (Some "app:ready") (Some VEmptyObject)
                 (Some Page.span) (Some Page.ul)))
    as (M & k & HM & Hb & Hk & _).
  { vm_compute. left. }
  apply list_elem_of_singleton in Hk as ->.
  vm_compute in HM.
  repeat (apply elem_of_cons in HM as [->|HM]; [by vm_compute in Hb; apply elem_of_nil in Hb|]).
  by apply elem_of_nil in HM.
Qed.

Lemma custom_responder_without_entry_witness :
  (ev_eventName (fired_event "app:loaded" VUndefined None) ≠ Some "app:ready" →
     run_responder Page.dom no_effect (CustomResponder 0 7 "app:ready" (UserFn 1))
       (fired_event "app:loaded" VUndefined None) initial
     = mkRun initial [] (Normal (VBoolean false)))
  ∧ (ev_eventName (fired_event "app:loaded" VUndefined None) = Some "app:ready" →
     run_responder Page.dom no_effect (CustomResponder 0 7 "app:ready" (UserFn 1))
       (fired_event "app:loaded" VUndefined None) initial
     = call_handler Page.dom no_effect (UserFn 1) None
         (fired_event "app:loaded" VUndefined None) initial).
Proof.
  apply (custom_responder_without_entry Page.dom no_effect 7 "app:ready" (UserFn 1) initial
           (CustomResponder 0 7 "app:ready" (UserFn 1))
           (mkWorld 1 ∅ ∅ ∅ 1) initial).
  - reflexivity.
  - reflexivity.
  - reflexivity.
Defined.

Lemma custom_responder_calls_handler_without_entry :
  ∃ r w, createResponder 7 "app:ready" (UserFn 1) initial = Ok r w
         ∧ cache w !! 7 = None
         ∧ ¬ aborts_silently Page.dom no_effect r (fired_event "app:ready" VUndefined None) w.
Proof.
  exists (CustomResponder 0 7 "app:ready" (UserFn 1)), (mkWorld 1 ∅ ∅ ∅ 1).
  split; [reflexivity|]. split; [reflexivity|].
  intros [Ht _]. vm_compute in Ht. discriminate.
Qed.

Lemma native_responder_raises_without_entry :
  ∃ r w, createResponder 7 "click" (UserFn 1) initial = Ok r w
         ∧ cache w !! 7 = None
         ∧ run_result (run_responder Page.dom no_effect r Page.click w) = Abrupt TypeError.
Proof.
  exists (NativeResponder 0 7 "click" (UserFn 1)), (mkWorld 1 ∅ ∅ ∅ 1).
  split; [reflexivity|]. split; reflexivity.
Qed.

Lemma on_with_function_selector_witness :
  delegates_unfiltered Page.dom no_effect initial Page.ul "click" 9.
Proof.
  apply on_with_function_selector.
  - apply consistent_initial.
  - by intros item w.
  - split; [discriminate|reflexivity].
  - reflexivity.
Defined.

(** Claim C9 at [on(ul, 'element', g)]: [observe], called by the [start]
    of the new handler, raises a [TypeError] at [entries.push], where
    [entries] is the node that the registry keeps under ['element']; no
    handler is returned, no responder is attached, and no event calls
    [g].  [on(ul, 'click', g)] returns a handler with [g] as callback and
    no selector, and a click on the span calls [g] with the list as
    context and the span as element. *)
Theorem on_element_name_raises :
  (∃ w, on Page.ul "element" (VFunction 9) VUndefined initial = Throw TypeError w
        ∧ (∀ n, listeners_of w n = [])
        ∧ ∀ target ev, (dispatchEvent Page.dom no_effect target ev w).1.2 = [])
  ∧ (∃ h w, on Page.ul "click" (VFunction 9) VUndefined initial = Ok h w
            ∧ h_element h = Page.ul ∧ h_selector h = VNull ∧ h_callback h = VFunction 9
            ∧ let event := with_currentTarget (Some Page.ul)
                             (with_target (Some Page.span) Page.click) in
              (dispatchEvent Page.dom no_effect Page.span Page.click w).1.2
              = [ HandlerCall (h_handler h) (Some (SElement Page.ul)) event;
                  CallbackCall 9 Page.ul event Page.span ]).
Proof.
  split.
  - exists (mkWorld 2 {[ Page.ul := 1 ]} {[ 1 := {[ "element" := SElement Page.ul ]} ]} ∅ 2).
    split; [by vm_compute|].
    assert (∀ n, listeners_of (mkWorld 2 {[ Page.ul := 1 ]}
                   {[ 1 := {[ "element" := SElement Page.ul ]} ]} ∅ 2) n = []) as Hl.
    { intros n. unfold listeners_of. simpl. by rewrite lookup_empty. }
    split; [done|]. intros target ev.
    rewrite dispatchEvent_passive by apply passive_no_effect.
    unfold path_items. apply bind_nil_all. intros n _. unfold node_items. by rewrite Hl.
  - eexists _, _. split; [by vm_compute|]. by vm_compute.
Qed.

(** The same under ['toString'], where [entries] is the function every
    object inherits. *)
Lemma on_inherited_name_raises :
  ∃ w, on Page.ul "toString" (VFunction 9) VUndefined initial = Throw TypeError w.
Proof. eexists. by vm_compute. Qed.

(** Claim C6 at [on(ul, 'click', 'div', g)] and a click on the span inside
    the list: no node from the span up to the list matches ['div'], the
    [div] around the list does, and the callback is called with it. *)
Theorem delegation_walks_past_root :
  let event := with_currentTarget (Some Page.ul) (with_target (Some Page.span) Page.click) in
  Page.ul ∈ ancestors Page.dom Page.span
  ∧ (∀ M, M ∈ [Page.span; Page.item; Page.ul] → selects Page.dom "div" M = false)
  ∧ findElement Page.dom event (VString "div") = Normal (Some Page.outer)
  ∧ (dispatchEvent Page.dom no_effect Page.span Page.click Page.delegating_world).1.2
    = [ HandlerCall (HandleEventBound 0 Page.ul "click" (VString "div") (VFunction 9))
          (Some (SElement Page.ul)) event;
        CallbackCall 9 Page.ul event Page.outer ].
Proof.
  cbv zeta. split; [|split; [|split]].
  - vm_compute. right. right. left.
  - intros M HM. repeat (apply elem_of_cons in HM as [->|HM]; [reflexivity|]).
    by apply elem_of_nil in HM.
  - reflexivity.
  - by vm_compute.
Qed.

(** ** Further properties of the registry *)

Lemma removal_none_entries n k w w' :
  consistent w → k ≠ "element" → removal n k [] w w' →
  (∀ m k', entries_of w' m k' = entries_of w m k')
  ∧ ∀ m, listeners_of w' m = listeners_of w m.
Proof.
  intros C Hk R. split.
  - intros m k'. rewrite (removal_entries_gen n k [] w w' C Hk R).
    case_decide as Hd; [|done]. destruct Hd as [-> ->].
    apply filter_all. intros x _. apply not_elem_of_nil.
  - intros m. rewrite (rm_listeners _ _ _ _ _ R). case_decide as Hd; [|done]. subst m.
    apply filter_all. intros x _. simpl. apply not_elem_of_nil.
Qed.

(** Property X1.  [stopObserving(element)] returns the element and leaves it
    without bindings, listeners and registry entry; the bindings and
    listeners of every other node stay as they were. *)
Theorem stopObserving_element_clears n w :
  consistent w →
  ∃ w', stopObserving n None None w = Ok n w'
        ∧ consistent w'
        ∧ (∀ k, entries_of w' n k = [])
        ∧ listeners_of w' n = []
        ∧ ¬ has_entry w' n
        ∧ ∀ m, m ≠ n →
            (∀ k, entries_of w' m k = entries_of w m k)
            ∧ listeners_of w' m = listeners_of w m.
Proof.
  intros C. destruct (stop_all_spec n w C) as (w' & Hrun & R).
  pose proof (cleared_consistent n w w' C R) as C'.
  assert (∀ m k, entries_of w' m k = if decide (m = n) then [] else entries_of w m k) as Hent.
  { intros m k. apply cleared_pretouch in R; [|done].
    rewrite (cleared_entries n (touch n w) w' _ (consistent_touch n w C) (identity_touch n w) R).
    by rewrite entries_of_touch. }
  exists w'. split; [done|]. split; [done|].
  assert (listeners_of w' n = []) as HL.
  { rewrite (cl_listeners _ _ _ R). by case_decide. }
  split; [|split; [done|split]].
  - intros k. by rewrite Hent, decide_True.
  - rewrite has_entry_listeners, HL by done. intros Hne. by apply Hne.
  - intros m Hm. split.
    + intros k. by rewrite Hent, decide_False.
    + rewrite (cl_listeners _ _ _ R). by case_decide.
Qed.

(** Property X2.  [stopObserving(element, eventName)] returns the element
    and empties the bucket of that event name: the listeners of the element
    that remain are the ones registered under other names, and every other
    bucket and every other node stay as they were. *)
Theorem stopObserving_eventName_clears n k w :
  consistent w → event_key k →
  ∃ w', stopObserving n (Some k) None w = Ok n w'
        ∧ consistent w'
        ∧ entries_of w' n k = []
        ∧ listeners_of w' n = filter (λ l, ¬ named k l) (listeners_of w n)
        ∧ (∀ m k', ¬ (m = n ∧ k' = k) → entries_of w' m k' = entries_of w m k')
        ∧ ∀ m, m ≠ n → listeners_of w' m = listeners_of w m.
Proof.
  intros C Hk. destruct (stop_event_spec n k w C Hk) as (w' & Hrun & R).
  assert (consistent w') as C' by (eapply removal_consistent; [done|apply Hk| |done]; done).
  pose proof (removal_entries_gen n k _ w w' C (proj1 Hk) R) as Hent.
  exists w'. split; [done|]. split; [done|]. split; [|split; [|split]].
  - rewrite Hent, decide_True by done. apply filter_none. by intros x Hx Hn.
  - rewrite (rm_listeners _ _ _ _ _ R), decide_True by done.
    apply filter_ext_in. intros l Hl. rewrite <- (listeners_sync w C n k).
    rewrite list_elem_of_filter. tauto.
  - intros m k' Hne. by rewrite Hent, decide_False.
  - intros m Hm. rewrite (rm_listeners _ _ _ _ _ R). by case_decide.
Qed.

(** Property X3.  [stopObserving(element, eventName, handler)] for a handler
    that is not bound under that name on the element returns the element and
    changes no binding and no listener: the registry entry it may create on
    the way is destroyed again. *)
Theorem stopObserving_unbound_changes_nothing n k h w :
  consistent w → event_key k → ¬ bound w n k h →
  ∃ w', stopObserving n (Some k) (Some h) w = Ok n w'
        ∧ consistent w'
        ∧ (∀ m k', entries_of w' m k' = entries_of w m k')
        ∧ (∀ m, listeners_of w' m = listeners_of w m)
        ∧ (has_entry w' n ↔ has_entry w n).
Proof.
  intros C Hk Hb. destruct (stop_handler_spec n k h w C Hk) as (w' & Hrun & R).
  rewrite (filter_none _ (entries_of w n k)) in R.
  2:{ intros e He Hh. apply Hb. unfold bound. apply list_elem_of_fmap. by exists e. }
  assert (consistent w') as C'.
  { eapply removal_consistent; [done|apply Hk| |done]. apply list_subseteq_nil. }
  destruct (removal_none_entries n k w w' C (proj1 Hk) R) as [Hent HL].
  exists w'. do 4 (split; [done|]).
  rewrite !has_entry_listeners by done. by rewrite HL.
Qed.

(** Property X4.  [observe(element, eventName, handler)] returns the element
    with the handler bound: when the handler was bound already nothing
    changes, otherwise one entry goes to the end of the bucket and its
    responder to the end of the listeners of the element. No other bucket
    and no other node is touched. *)
Theorem observe_adds_one_binding n k h w :
  consistent w → event_key k →
  ∃ w' new, observe n k h w = Ok n w'
        ∧ consistent w'
        ∧ entries_of w' n k = entries_of w n k ++ new
        ∧ listeners_of w' n = listeners_of w n ++ (listener_of k <$> new)
        ∧ (if decide (bound w n k h) then new = []
           else ∃ e, new = [e] ∧ handler e = h)
        ∧ (∀ m k', ¬ (m = n ∧ k' = k) → entries_of w' m k' = entries_of w m k')
        ∧ ∀ m, m ≠ n → listeners_of w' m = listeners_of w m.
Proof.
  intros C Hk. destruct (decide (bound w n k h)) as [Hb|Hb].
  - exists w, []. rewrite (observe_dup n k h w C Hk Hb). simpl. rewrite !app_nil_r.
    do 6 (split; [done|]). done.
  - exists (observed n k h w), [new_entry n k h w].
    rewrite (observe_new n k h w C Hk Hb).
    split; [done|]. split; [by apply consistent_observed|].
    split; [by rewrite observed_entries, decide_True|].
    split; [by rewrite observed_listeners, decide_True|].
    split; [by exists (new_entry n k h w)|]. split.
    + intros m k' Hne. by rewrite observed_entries, decide_False.
    + intros m Hm. by rewrite observed_listeners, decide_False.
Qed.

(** The two states [observe] and [stopObserving] go through for a handler
    that was not bound. *)
Lemma observe_stop_entries n k h w :
  consistent w → event_key k → ¬ bound w n k h →
  ∃ w1 w2, observe n k h w = Ok n w1
        ∧ stopObserving n (Some k) (Some h) w1 = Ok n w2
        ∧ consistent w1 ∧ consistent w2
        ∧ (∀ m k', entries_of w1 m k' =
             if decide (m = n ∧ k' = k) then entries_of w n k ++ [new_entry n k h w]
             else entries_of w m k')
        ∧ (∀ m k', entries_of w2 m k' = entries_of w m k')
        ∧ (∀ m, listeners_of w2 m = listeners_of w m)
        ∧ closures w2 = S (closures w).
Proof.
  intros C Hk Hb.
  pose proof (observe_new n k h w C Hk Hb) as H1.
  pose proof (consistent_observed n k h w C Hk Hb) as C1.
  set (w1 := observed n k h w) in *. set (e := new_entry n k h w).
  assert (∀ m k', entries_of w1 m k' =
            if decide (m = n ∧ k' = k) then entries_of w n k ++ [e] else entries_of w m k')
    as Hent1 by (intros; by apply observed_entries).
  destruct (stop_handler_spec n k h w1 C1 Hk) as (w2 & H2 & R).
  assert (filter (λ e0, handler e0 = h) (entries_of w1 n k) = [e]) as Hrem.
  { rewrite Hent1, decide_True by done. rewrite filter_app, filter_cons_True by done.
    rewrite filter_nil, filter_none; [done|].
    intros x Hx Hh. apply Hb. apply list_elem_of_fmap. by exists x. }
  rewrite Hrem in R.
  assert (consistent w2) as C2.
  { eapply removal_consistent; [exact C1|apply Hk| |exact R].
    rewrite Hent1, decide_True by done. intros x ->%list_elem_of_singleton.
    apply elem_of_app. right. left. }
  assert (e ∉ entries_of w n k) as Hfresh.
  { intros He. apply Hb. apply list_elem_of_fmap. by exists e. }
  exists w1, w2. split; [done|]. split; [done|]. split; [done|]. split; [done|].
  split; [done|]. split; [|split].
  - intros m k'. rewrite (removal_entries_gen n k _ w1 w2 C1 (proj1 Hk) R).
    case_decide as Hd.
    + destruct Hd as [-> ->]. rewrite Hent1, decide_True by done.
      rewrite filter_app, filter_cons_False, filter_nil, app_nil_r.
      * apply filter_all. intros x Hx ->%list_elem_of_singleton. done.
      * intros Hx. apply Hx. left.
    + by rewrite Hent1, decide_False.
  - intros m. rewrite (rm_listeners _ _ _ _ _ R). unfold w1.
    rewrite !observed_listeners. destruct (decide (m = n)) as [->|Hd]; [|done].
    rewrite decide_True by done. fold e. simpl.
    assert (listener_of k e ∉ listeners_of w n) as HLfresh.
    { intros Hin. destruct (sync_named_bound w n k _ C Hin) as (e' & He' & Heq).
      - unfold named, listener_of, e, new_entry. simpl. unfold mk_responder.
        by destruct (isCustomEvent k).
      - apply Hb. apply list_elem_of_fmap. exists e'. split; [|done].
        unfold listener_of in Heq. injection Heq as Heq.
        assert (r_handler (responder e') = handler e') as Hr.
        { destruct (identity w n) as [uid|] eqn:Hi.
          - destruct (entries_of_ok w n k e' uid C Hi He') as [_ [fn Hfn]].
            rewrite Hfn. unfold mk_responder. by destruct (isCustomEvent k).
          - unfold entries_of in He'. rewrite Hi in He'. by apply elem_of_nil in He'. }
        rewrite <- Hr, <- Heq. unfold e, new_entry. simpl. unfold mk_responder.
        by destruct (isCustomEvent k). }
    rewrite filter_app, filter_cons_False, filter_nil, app_nil_r.
    + apply filter_all. intros x Hx ->%list_elem_of_singleton. done.
    + intros Hx. apply Hx. left.
  - rewrite (rm_closures _ _ _ _ _ R). done.
Qed.

(** Property X5.  After [observe(element, eventName, handler)] for a handler
    that was not bound, [stopObserving(element, eventName, handler)] puts
    every bucket and every listener list back as it was. *)
Theorem observe_stopObserving_restores n k h w :
  consistent w → event_key k → ¬ bound w n k h →
  ∃ w1 w2, observe n k h w = Ok n w1
        ∧ stopObserving n (Some k) (Some h) w1 = Ok n w2
        ∧ bound w1 n k h
        ∧ (∀ m k', entries_of w2 m k' = entries_of w m k')
        ∧ ∀ m, listeners_of w2 m = listeners_of w m.
Proof.
  intros C Hk Hb.
  destruct (observe_stop_entries n k h w C Hk Hb)
    as (w1 & w2 & H1 & H2 & _ & _ & Hent1 & Hent2 & HL & _).
  exists w1, w2. do 2 (split; [done|]). split; [|done].
  unfold bound. rewrite Hent1, decide_True by done. rewrite fmap_app.
  apply elem_of_app. right. left.
Qed.

(** ** Invariants of the reachable states *)

(** Property X6.  In every state the documented calls reach, the listeners
    attached to a node are exactly the responders of the entries of its
    registry, each attached once. *)
Theorem listeners_mirror_registry (ops : list Op) :
  Forall op_ok ops →
  ∃ w, run_ops ops initial = Ok tt w
       ∧ ∀ n, NoDup (listeners_of w n)
              ∧ ∀ l, l ∈ listeners_of w n ↔
                     ∃ k e, e ∈ entries_of w n k ∧ l = listener_of k e.
Proof.
  intros Hops.
  destruct (run_ops_consistent ops initial consistent_initial Hops) as (w & Hw & C).
  exists w. split; [done|]. intros n. split; [by apply listeners_nodup|].
  intros l. split; [by apply listeners_named|].
  intros (k & e & He & ->).
  assert (listener_of k e ∈ listener_of k <$> entries_of w n k) as Hx
    by (apply list_elem_of_fmap; eauto).
  rewrite <- (listeners_sync w C) in Hx. by apply list_elem_of_filter in Hx as [_ ?].
Qed.

(** Property X7.  In every state the documented calls reach, a registry
    object of the cache belongs to the node it stores under ['element'], has
    at least one bucket, and each bucket is a non-empty array in which no
    handler occurs twice and whose responders carry the identity of the
    node, the event name of the bucket and the handler of their entry. *)
Theorem registries_well_formed (ops : list Op) :
  Forall op_ok ops →
  ∃ w, run_ops ops initial = Ok tt w
       ∧ ∀ uid registry, cache w !! uid = Some registry →
           (∃ n, identity w n = Some uid ∧ registry !! "element" = Some (SElement n))
           ∧ (∃ k, k ≠ "element" ∧ is_Some (registry !! k))
           ∧ ∀ k slot, k ≠ "element" → registry !! k = Some slot →
               ∃ entries, slot = SEntries entries ∧ entries ≠ []
                 ∧ NoDup (handler <$> entries)
                 ∧ ∀ e, e ∈ entries →
                     r_uid (responder e) = uid ∧ r_eventName (responder e) = k
                     ∧ r_handler (responder e) = handler e.
Proof.
  intros Hops.
  destruct (run_ops_consistent ops initial consistent_initial Hops) as (w & Hw & C).
  exists w. split; [done|]. intros uid registry Hc.
  split; [by apply (cache_owner w C)|]. split; [by apply (cache_nonempty w C uid)|].
  intros k slot Hk Hs.
  destruct (cache_buckets w C uid registry k slot Hc Hs Hk) as (l & -> & Hne & Hnd & Hok).
  exists l. do 3 (split; [done|]). intros e He.
  rewrite Forall_forall in Hok. destruct (Hok e He) as [fn Hfn]. rewrite Hfn.
  unfold mk_responder. by destruct (isCustomEvent k).
Qed.

(** Property X31.  Every sequence of the documented [observe] and
    [stopObserving] calls on event names with a free registry key, started
    after load, runs to its end, and afterwards the cache holds an entry
    for a node exactly when the node has an active binding, which is
    exactly when a responder is attached to it. *)
Theorem registry_entry_iff_binding (ops : list Op) :
  Forall op_ok ops →
  ∃ w, run_ops ops initial = Ok tt w ∧ entry_iff_binding w.
Proof.
  intros Hops.
  destruct (run_ops_consistent ops initial consistent_initial Hops) as (w & H & C).
  exists w. split; [done|]. intros n. split.
  - by apply has_entry_binding.
  - by apply has_entry_listeners.
Qed.

(** ** Identities *)

(** Property X8.  [getUniqueElementID] gives a node the same identity every
    time, whatever other nodes are identified in between; two nodes never
    share one, and 0 is the identity of the window alone. *)
Theorem identities_stable_and_distinct n m w :
  consistent w →
  ∃ u w1 v w2,
    getUniqueElementID n w = Ok u w1
    ∧ getUniqueElementID m w1 = Ok v w2
    ∧ getUniqueElementID n w2 = Ok u w2
    ∧ (u = v ↔ n = m)
    ∧ (u = 0 ↔ n = window).
Proof.
  intros C.
  pose proof (consistent_touch n w C) as C1.
  pose proof (consistent_touch m _ C1) as C2.
  pose proof (identity_touch n w) as Hn1.
  pose proof (identity_touch m (touch n w)) as Hm2.
  pose proof (identity_touch_mono m n _ _ Hn1) as Hn2.
  exists (the_uid w n), (touch n w), (the_uid (touch n w) m), (touch m (touch n w)).
  split; [apply getUniqueElementID_touch|]. split; [apply getUniqueElementID_touch|].
  split; [by apply getUniqueElementID_known|]. split.
  - split.
    + intros Heq. rewrite <- Heq in Hm2. by apply (identity_inj _ n m _ C2 Hn2 Hm2).
    + intros ->. congruence.
  - split.
    + intros Hu. rewrite Hu in Hn1. unfold identity in Hn1.
      destruct (decide (n = window)) as [|Hne]; [done|].
      apply (uid_range _ C1) in Hn1. lia.
    + intros ->. unfold the_uid. by rewrite decide_True.
Qed.

(** ** Dispatch *)

Lemma carries_with_target k ev t : carries k (with_target t ev) ↔ carries k ev.
Proof. unfold carries. by destruct (isCustomEvent k). Qed.

(** A handler bound once, under [E] on [N] and nowhere else, is called
    once by an event that carries [E] and is dispatched on [N]. *)
Lemma calls_of_dispatch_once dom effect w N E H ev :
  passive effect → consistent w → bound w N E H → only_bound_at w N E H → carries E ev →
  calls_of H (dispatchEvent dom effect N ev w).1.2 =
  [HandlerCall H (Some (SElement N))
     (with_currentTarget (Some N) (with_target (Some N) ev))].
Proof.
  intros Hp C Hb Honly Hcar. rewrite dispatchEvent_passive by done.
  destruct (event_path_head dom (ev_type ev) (ev_bubbles ev) N) as (tail & -> & Htail).
  unfold path_items. rewrite bind_cons, calls_of_app.
  rewrite (calls_of_node_once dom w N E H _ C Hb).
  - fold (path_items dom w (with_target (Some N) ev) tail).
    rewrite no_calls_unbound; [done|done|].
    intros M k HM _ Hbd. apply Honly in Hbd as [-> _]. apply Htail in HM. lia.
  - intros k Hbk. by apply Honly in Hbk as [_ ?].
  - by apply carries_with_target.
Qed.

(** Property X9.  Whatever event is dispatched, a handler is only ever
    called by a responder of a node on the path of the event, on which it is
    bound under a name the event carries; it is called with that node as
    [this] and as current target of the event. *)
Theorem handlers_called_on_their_element dom effect w target ev h this ev' :
  passive effect → consistent w →
  HandlerCall h this ev' ∈ (dispatchEvent dom effect target ev w).1.2 →
  ∃ M k, M ∈ event_path dom (ev_type ev) (ev_bubbles ev) target
         ∧ bound w M k h ∧ carries k ev
         ∧ this = Some (SElement M)
         ∧ ev_currentTarget ev' = Some M ∧ ev_target ev' = Some target.
Proof.
  intros Hp C Hin. rewrite dispatchEvent_passive in Hin by done.
  destruct (call_in_path_items dom w _ _ h this ev' C Hin)
    as (M & k & HM & Hb & Hc & -> & ->).
  exists M, k. split; [done|]. split; [done|]. split; [by apply carries_with_target in Hc|].
  done.
Qed.

(** Property X10.  [fire] with [bubble] false calls the handlers of the
    target alone: a handler that is not bound on the target is not called,
    wherever else it is bound. *)
Theorem fire_without_bubbling_stays dom effect w N E memo h :
  passive effect → consistent w →
  (∀ k, ¬ bound w (getFireTarget dom N) k h) →
  calls_of h (fire dom effect N E memo (Some false) w).1.2 = [].
Proof.
  intros Hp C Hnb. rewrite fire_dispatch, dispatchEvent_passive by done.
  apply no_calls_unbound; [done|].
  intros M k HM _. simpl in HM. apply list_elem_of_singleton in HM as ->. apply Hnb.
Qed.

(** Property X11.  An event of the carrier type that was not created by
    [fire] (it has no [eventName]) calls no handler that is bound under
    names with a colon only. *)
Theorem untagged_dataavailable_ignored dom effect w target ev h :
  passive effect → consistent w →
  ev_eventName ev = None →
  (∀ M k, bound w M k h → isCustomEvent k = true) →
  calls_of h (dispatchEvent dom effect target ev w).1.2 = [].
Proof.
  intros Hp C Hno Hcustom. rewrite dispatchEvent_passive by done.
  apply no_calls_unbound; [done|].
  intros M k _ Hcar Hb. apply carries_with_target in Hcar.
  unfold carries in Hcar. rewrite (Hcustom M k Hb) in Hcar.
  destruct Hcar as [_ Hn]. congruence.
Qed.

(** ** Event.Handler *)

Lemma entries_of_closures w c n k :
  entries_of (mkWorld (UID w) (prototypeUID w) (cache w) (listeners w) c) n k
  = entries_of w n k.
Proof. done. Qed.

Lemma listeners_of_closures w c n :
  listeners_of (mkWorld (UID w) (prototypeUID w) (cache w) (listeners w) c) n
  = listeners_of w n.
Proof. done. Qed.

(** What [on] does in a state where the new bound function is new to the
    registry. *)
Lemma on_spec R E selector callback w :
  consistent w → closures_known w → event_key E →
  ∃ h w1 e,
    on R E selector callback w = Ok h w1
    ∧ h_element h = R ∧ h_eventName h = E
    ∧ (h_selector h, h_callback h) = on_arguments selector callback
    ∧ h_handler h = HandleEventBound (closures w) R E (h_selector h) (h_callback h)
    ∧ handler e = h_handler h
    ∧ consistent w1 ∧ closures_known w1
    ∧ (∀ M k, ¬ bound w M k (h_handler h))
    ∧ (∀ M k, entries_of w1 M k =
         if decide (M = R ∧ k = E) then entries_of w R E ++ [e] else entries_of w M k)
    ∧ (∀ M, listeners_of w1 M =
         if decide (M = R) then listeners_of w R ++ [listener_of E e] else listeners_of w M)
    ∧ closures w < closures w1
    ∧ ∃ w2, stop h w1 = Ok h w2
        ∧ (∀ M k, entries_of w2 M k = entries_of w M k)
        ∧ (∀ M, listeners_of w2 M = listeners_of w M).
Proof.
  intros C Hknown Hk. unfold on.
  destruct (on_arguments selector callback) as [sel cb] eqn:Hargs.
  set (hb := HandleEventBound (closures w) R E sel cb).
  set (w0 := mkWorld (UID w) (prototypeUID w) (cache w) (listeners w) (S (closures w))).
  assert (consistent w0) as C0 by (by apply consistent_closures).
  assert (∀ M k, ¬ bound w M k hb) as Hfresh.
  { intros M k Hb. apply Hknown in Hb. lia. }
  assert (¬ bound w0 R E hb) as Hfresh0 by apply Hfresh.
  destruct (observe_stop_entries R E hb w0 C0 Hk Hfresh0)
    as (w1 & w2 & H1 & H2 & C1 & C2 & Hent1 & Hent2 & HL2 & Hcl).
  pose proof (observe_new R E hb w0 C0 Hk Hfresh0) as H1'.
  assert (w1 = observed R E hb w0) as Hw1 by congruence.
  exists (mkHandler R E sel cb hb), w1, (new_entry R E hb w0).
  split.
  { unfold new_Handler, start. unfold_M. simpl. fold w0. fold hb. by rewrite H1. }
  simpl. do 5 (split; [done|]). split; [done|]. split.
  { intros M k id el en s c Hb. unfold bound in Hb. rewrite Hent1 in Hb.
    assert (closures w1 = S (S (closures w))) as ->.
    { rewrite Hw1. done. }
    case_decide as Hd.
    - rewrite fmap_app in Hb. apply elem_of_app in Hb as [Hb|Hb].
      + destruct Hd as [-> ->]. apply Hknown in Hb. lia.
      + apply list_elem_of_singleton in Hb. simpl in Hb. unfold hb in Hb.
        injection Hb as ->. lia.
    - apply Hknown in Hb. lia. }
  split; [done|]. split; [done|]. split.
  { intros M. rewrite Hw1, observed_listeners. done. }
  split.
  { rewrite Hw1. simpl. lia. }
  exists w2. split.
  { unfold stop. cbn [h_element h_eventName h_handler]. unfold_M. by rewrite H2. }
  done.
Qed.

(** Property X13.  [on] with the same arguments twice creates two bound
    functions and registers both: unlike a handler passed to [observe]
    twice, both are called by an event that carries the event name. *)
Theorem on_twice_binds_twice dom effect R E selector callback w :
  passive effect → consistent w → closures_known w → event_key E →
  ∃ h1 w1 h2 w2 e1 e2,
    on R E selector callback w = Ok h1 w1
    ∧ on R E selector callback w1 = Ok h2 w2
    ∧ h_handler h1 ≠ h_handler h2
    ∧ handler e1 = h_handler h1 ∧ handler e2 = h_handler h2
    ∧ entries_of w2 R E = entries_of w R E ++ [e1; e2]
    ∧ ∀ ev, carries E ev →
        let ev' := with_currentTarget (Some R) (with_target (Some R) ev) in
        let trace := (dispatchEvent dom effect R ev w2).1.2 in
        calls_of (h_handler h1) trace = [HandlerCall (h_handler h1) (Some (SElement R)) ev']
        ∧ calls_of (h_handler h2) trace = [HandlerCall (h_handler h2) (Some (SElement R)) ev'].
Proof.
  intros Hp C Hknown Hk.
  destruct (on_spec R E selector callback w C Hknown Hk)
    as (h1 & w1 & e1 & Hon1 & _ & _ & _ & Hh1 & He1 & C1 & Hknown1 & Hfresh1 & Hent1 & _ & Hlt1 & _).
  destruct (on_spec R E selector callback w1 C1 Hknown1 Hk)
    as (h2 & w2 & e2 & Hon2 & _ & _ & _ & Hh2 & He2 & C2 & _ & Hfresh2 & Hent2 & _ & _ & _).
  assert (h_handler h1 ≠ h_handler h2) as Hne.
  { rewrite Hh1, Hh2. intros [= Heq _ _]. lia. }
  assert (entries_of w2 R E = entries_of w R E ++ [e1; e2]) as Hent.
  { rewrite Hent2, decide_True by done. rewrite Hent1, decide_True by done.
    by rewrite <- app_assoc. }
  assert (bound w1 R E (h_handler h1)) as Hb1.
  { unfold bound. rewrite Hent1, decide_True, fmap_app by done.
    apply elem_of_app. right. rewrite <- He1. left. }
  assert (∀ M k, bound w1 M k (h_handler h1) → M = R ∧ k = E) as Honly1.
  { intros M k Hb. unfold bound in Hb. rewrite Hent1 in Hb.
    case_decide as Hd; [done|]. by apply Hfresh1 in Hb. }
  exists h1, w1, h2, w2, e1, e2. do 5 (split; [done|]). split; [done|].
  intros ev Hcar. cbv zeta. split.
  - apply (calls_of_dispatch_once dom effect w2 R E); try done.
    + unfold bound. rewrite Hent, fmap_app. apply elem_of_app. right. rewrite <- He1. left.
    + intros M k Hb. unfold bound in Hb. rewrite Hent2 in Hb.
      case_decide as Hd; [done|]. by apply Honly1.
  - apply (calls_of_dispatch_once dom effect w2 R E); try done.
    + unfold bound. rewrite Hent, fmap_app. apply elem_of_app. right. rewrite <- He2.
      right. left.
    + intros M k Hb. unfold bound in Hb. rewrite Hent2 in Hb.
      case_decide as Hd; [done|]. by apply Hfresh2 in Hb.
Qed.

(** Property X14.  [stop] undoes [on]: every bucket and every listener list
    is as it was before the handler was created; and [start] on a handler
    that [on] has started already changes nothing. *)
Theorem handler_stop_undoes_on R E selector callback w :
  consistent w → closures_known w → event_key E →
  ∃ h w1 w2,
    on R E selector callback w = Ok h w1
    ∧ bound w1 R E (h_handler h)
    ∧ start h w1 = Ok h w1
    ∧ stop h w1 = Ok h w2
    ∧ (∀ M k, entries_of w2 M k = entries_of w M k)
    ∧ ∀ M, listeners_of w2 M = listeners_of w M.
Proof.
  intros C Hknown Hk.
  destruct (on_spec R E selector callback w C Hknown Hk)
    as (h & w1 & e & Hon & HR & HE & _ & _ & He & C1 & _ & _ & Hent1 & _ & _
        & w2 & Hstop & Hent2 & HL2).
  assert (bound w1 R E (h_handler h)) as Hb.
  { unfold bound. rewrite Hent1, decide_True, fmap_app by done.
    apply elem_of_app. right. rewrite <- He. left. }
  exists h, w1, w2. split; [done|]. split; [done|]. split; [|done].
  unfold start. rewrite HR, HE. unfold_M.
  by rewrite (observe_dup R E (h_handler h) w1 C1 Hk Hb).
Qed.

(** ** Event.findElement *)

Lemma find_first {A} (f : A → bool) (l : list A) :
  match List.find f l with
  | Some m => ∃ near far, l = near ++ m :: far ∧ f m = true
                          ∧ ∀ x, x ∈ near → f x = false
  | None => ∀ x, x ∈ l → f x = false
  end.
Proof.
  induction l as [|a l IH]; simpl.
  - intros x Hx. by apply elem_of_nil in Hx.
  - destruct (f a) eqn:Hfa.
    + exists [], l. split; [done|]. split; [done|]. intros x Hx. by apply elem_of_nil in Hx.
    + destruct (List.find f l) as [m|].
      * destruct IH as (near & far & -> & Hm & Hnear).
        exists (a :: near), far. split; [done|]. split; [done|].
        intros x [->|Hx]%elem_of_cons; [done|by apply Hnear].
      * intros x [->|Hx]%elem_of_cons; [done|by apply IH].
Qed.

(** Property X15.  With a selector, [findElement] returns the first node of
    the chain element, parent, grandparent, ... that is an element and
    matches, and nothing when there is none; the chain is followed to its
    end. *)
Theorem findElement_first_match dom ev s n :
  valid_selector dom s = true → s ≠ "" →
  _element dom ev = Normal (Some n) →
  ∃ found, findElement dom ev (VString s) = Normal found
    ∧ match found with
      | Some m => ∃ near far, ancestors dom n = near ++ m :: far
                    ∧ isElement dom m = true ∧ matches dom m s = true
                    ∧ ∀ x, x ∈ near → isElement dom x && matches dom x s = false
      | None => ∀ x, x ∈ ancestors dom n → isElement dom x && matches dom x s = false
      end.
Proof.
  intros Hv Hs Hn. rewrite (findElement_nearest dom ev s n Hv Hs Hn).
  eexists. split; [done|].
  pose proof (find_first (selects dom s) (ancestors dom n)) as Hf.
  destruct (List.find _ _) as [m|]; [|done].
  destruct Hf as (near & far & Heq & Hm & Hnear).
  exists near, far. unfold selects in Hm. apply andb_true_iff in Hm as [??]. done.
Qed.


(** ** Element.ancestors, Element.up and Element.recursivelyCollect *)

Section Climb.
Variable dom : Dom.

Lemma tail_ancestors (n : Node) :
  tail (ancestors dom n) =
  match parentNode dom n with Some p => ancestors dom p | None => [] end.
Proof.
  unfold ancestors. destruct n as [|n]; simpl.
  - done.
  - destruct (parentNode dom (S n)) as [p|] eqn:Hp; [|done].
    apply parentNode_lt in Hp. apply ancestors_from_fuel. lia.
Qed.

Lemma ancestors_head (n : Node) : ancestors dom n = n :: tail (ancestors dom n).
Proof. unfold ancestors. by destruct n. Qed.

Lemma elements_above_step (n : Node) :
  elements_above dom n =
  match parentNode dom n with
  | Some p => (if isElement dom p then [p] else []) ++ elements_above dom p
  | None => []
  end.
Proof.
  unfold elements_above. rewrite tail_ancestors.
  destruct (parentNode dom n) as [p|]; [|done].
  rewrite (ancestors_head p), filter_cons. by destruct (isElement dom p).
Qed.

Lemma collect_all (fuel : nat) (n : Node) m acc :
  (n ≤ fuel)%nat →
  (∀ j : nat, (length acc ≤ j)%nat → m ≠ VNumber (Z.of_nat j)) →
  Element.collect dom fuel n m acc = acc ++ elements_above dom n.
Proof.
  revert fuel acc. induction (lt_wf n) as [n _ IH]. intros fuel acc Hle Hm.
  rewrite elements_above_step.
  destruct fuel as [|fuel]; simpl.
  - assert (n = 0) as -> by lia. by rewrite app_nil_r.
  - destruct (parentNode dom n) as [p|] eqn:Hp; [|by rewrite app_nil_r].
    apply parentNode_lt in Hp as Hlt.
    rewrite decide_False.
    2:{ apply Hm. destruct (isElement dom p); [rewrite length_app|]; lia. }
    rewrite IH; [|done|lia|].
    + by destruct (isElement dom p); rewrite <- ?app_assoc.
    + intros j Hj. apply Hm. destruct (isElement dom p); [rewrite length_app in Hj|]; lia.
Qed.

Lemma collect_take (fuel : nat) (n : Node) (j : nat) acc :
  (n ≤ fuel)%nat →
  Element.collect dom fuel n (VNumber (Z.of_nat (length acc + S j))) acc
  = acc ++ take (S j) (elements_above dom n).
Proof.
  revert fuel acc j. induction (lt_wf n) as [n _ IH]. intros fuel acc j Hle.
  rewrite elements_above_step.
  destruct fuel as [|fuel]; simpl.
  - assert (n = 0) as -> by lia. by rewrite app_nil_r.
  - destruct (parentNode dom n) as [p|] eqn:Hp; [|by rewrite app_nil_r].
    apply parentNode_lt in Hp as Hlt.
    destruct (isElement dom p) eqn:He.
    + case_decide as Hd.
      * injection Hd as Hd. rewrite length_app in Hd. simpl in Hd.
        assert (j = 0) as -> by lia. simpl. by rewrite take_0.
      * destruct j as [|j].
        { exfalso. apply Hd. f_equal. rewrite length_app. simpl. lia. }
        replace (length acc + S (S j)) with (length (acc ++ [p]) + S j)
          by (rewrite length_app; simpl; lia).
        rewrite IH by (done || lia). simpl. by rewrite <- app_assoc.
    + rewrite decide_False by (intros [= Hd]; lia).
      simpl. by rewrite IH by (done || lia).
Qed.

Lemma ancestors_elements_above (n : Node) :
  Element.ancestors dom n = elements_above dom n.
Proof.
  unfold Element.ancestors, Element.recursivelyCollect. simpl.
  rewrite collect_all; [done|done|]. intros j _ [= Hj]. lia.
Qed.

(** Property X16.  [Element.ancestors] lists the element nodes of the chain
    of parents, nearest first: the node itself, text nodes and the document
    are not among them. *)
Theorem ancestors_are_the_elements_above (n : Node) :
  Element.ancestors dom n = filter (λ m, isElement dom m) (tail (ancestors dom n)).
Proof.
  unfold Element.ancestors, Element.recursivelyCollect.
  change (truthy VUndefined) with false. cbv iota.
  rewrite (collect_all n n (VNumber (-1)) []); [done|done|].
  intros j _ Heq. injection Heq as Heq. lia.
Qed.

(** Property X17.  [recursivelyCollect] with an integer [maximumLength]:
    when it is positive the first [maximumLength] ancestors are returned,
    when it is 0 or negative all of them. *)
Theorem recursivelyCollect_limit (n : Node) (k : Z) :
  Element.recursivelyCollect dom n (VNumber k) =
  if (0 <? k)%Z then take (Z.to_nat k) (Element.ancestors dom n)
  else Element.ancestors dom n.
Proof.
  rewrite ancestors_elements_above. fold (elements_above dom n).
  unfold Element.recursivelyCollect. simpl.
  destruct (Z.ltb_spec 0 k) as [Hpos|Hneg].
  - destruct (Z.eqb_spec k 0) as [->|_]; [lia|]. simpl.
    destruct (Z.to_nat k) as [|j] eqn:Hj; [lia|].
    replace k with (Z.of_nat (length (@nil Node) + S j)) by (simpl; lia).
    by rewrite collect_take by done.
  - destruct (Z.eqb_spec k 0) as [->|Hk]; simpl.
    + rewrite collect_all; [done|done|]. intros j _ [= Hj]. lia.
    + rewrite collect_all; [done|done|]. intros j _ [= Hj]. lia.
Qed.

Lemma find_spec (fuel : nat) (n : Node) expression s (index : Z) :
  (n ≤ fuel)%nat →
  (truthy expression = true → expression = VString s ∧ valid_selector dom s = true) →
  Element.find dom fuel n expression index =
  Normal (filter (counted dom expression s) (tail (ancestors dom n)) !! Z.to_nat index).
Proof.
  revert fuel index. induction (lt_wf n) as [n _ IH]. intros fuel index Hle Hexp.
  rewrite tail_ancestors.
  destruct fuel as [|fuel]; simpl.
  - assert (n = 0) as -> by lia. done.
  - destruct (parentNode dom n) as [p|] eqn:Hp; [|done].
    apply parentNode_lt in Hp as Hlt.
    rewrite (ancestors_head p), filter_cons.
    assert (∀ i, Element.find dom fuel p expression i
                 = Normal (filter (counted dom expression s) (tail (ancestors dom p))
                             !! Z.to_nat i)) as Hrec.
    { intros i. apply IH; [done|lia|done]. }
    assert (∀ l : list Node,
              (if (0 <=? index - 1)%Z
               then Normal ((l !! Z.to_nat (index - 1)) : option Node)
               else Normal (Some p))
              = Normal ((p :: l) !! Z.to_nat index)) as Hidx.
    { intros l. destruct (Z.leb_spec 0 (index - 1)) as [Hi|Hi].
      - by replace (Z.to_nat index) with (S (Z.to_nat (index - 1))) by lia.
      - by replace (Z.to_nat index) with 0 by lia. }
    destruct (decide (counted dom expression s p)) as [[Hel Hm]|Hn].
    + apply Is_true_true in Hel. rewrite Hel. simpl.
      destruct (truthy expression) eqn:Ht.
      * destruct (Hexp eq_refl) as [-> Hv]. simpl. rewrite Hv.
        rewrite (Is_true_true_1 _ (Hm I)). rewrite Hrec. apply Hidx.
      * rewrite Hrec. apply Hidx.
    + destruct (isElement dom p) eqn:He; simpl; [|apply Hrec].
      destruct (truthy expression) eqn:Ht.
      * destruct (Hexp eq_refl) as [-> Hv]. simpl. rewrite Hv.
        destruct (matches dom p s) eqn:Hmm; [|apply Hrec].
        exfalso. apply Hn. split; [by rewrite He|]. by rewrite Hmm.
      * exfalso. apply Hn. split; [by rewrite He|]. rewrite Ht. intros [].
Qed.

Lemma counted_without_expression expression s (l : list Node) :
  truthy expression = false →
  filter (counted dom expression s) l = filter (λ m, isElement dom m) l.
Proof.
  intros Ht. apply filter_ext_in. intros x _. unfold counted. rewrite Ht. simpl. tauto.
Qed.

Lemma counted_with_selector s (l : list Node) :
  s ≠ "" →
  filter (counted dom (VString s) s) l
  = filter (λ m, matches dom m s) (filter (λ m, isElement dom m) l).
Proof.
  intros Hs. rewrite list_filter_filter. apply filter_ext_in. intros x _.
  unfold counted. simpl. destruct (String.eqb_spec s "") as [->|_]; [done|]. simpl. tauto.
Qed.

Lemma find_filter_0 {A} (f : A → bool) (P : A → Prop) `{!∀ x, Decision (P x)} (l : list A) :
  (∀ x, f x = true ↔ P x) → List.find f l = filter P l !! 0.
Proof.
  intros Hf. induction l as [|a l IH]; [done|]. simpl. rewrite filter_cons.
  destruct (f a) eqn:Hfa.
  - by rewrite decide_True by (by apply Hf).
  - rewrite decide_False; [done|]. intros HP. apply Hf in HP. congruence.
Qed.

(** Property X18.  [up(element, index)] with an integer [index] is
    [ancestors(element)[index]]; a negative index counts as 0, and a third
    argument is not looked at. *)
Theorem up_by_index (n : Node) (i : Z) (index : option Z) :
  Element.up dom n (Some (VNumber i)) index
  = Normal (Element.ancestors dom n !! Z.to_nat i).
Proof.
  rewrite ancestors_elements_above.
  unfold Element.up, Element._recursivelyFind. simpl.
  destruct (Z.eqb_spec i 0) as [->|Hi]; simpl.
  - rewrite (find_spec _ _ VNull "") by done. by rewrite counted_without_expression.
  - rewrite (find_spec _ _ VNull "") by done. by rewrite counted_without_expression.
Qed.

(** Property X19.  [up(element, selector, index)] is the entry [index] of
    the ancestors that match the selector; a negative index counts as 0 and
    so does an index left out. *)
Theorem up_by_selector (n : Node) (s : string) (index : option Z) :
  valid_selector dom s = true → s ≠ "" →
  Element.up dom n (Some (VString s)) index
  = Normal (filter (λ m, matches dom m s) (Element.ancestors dom n)
            !! Z.to_nat (default 0%Z index)).
Proof.
  intros Hv Hs. rewrite ancestors_elements_above.
  unfold Element.up, Element._recursivelyFind. simpl.
  destruct (String.eqb_spec s "") as [->|_]; [done|]. simpl.
  rewrite (find_spec _ _ (VString s) s); [|done|done].
  by rewrite counted_with_selector.
Qed.

(** Property X20.  With an expression that is [undefined], [null], [false],
    0 or the empty string, [up] returns the first ancestor whatever index is
    given. *)
Theorem up_without_expression_ignores_index (n : Node) expression (index : option Z) :
  truthy expression = false →
  Element.up dom n (Some expression) index = Normal (head (Element.ancestors dom n)).
Proof.
  intros Ht. rewrite ancestors_elements_above.
  unfold Element.up, Element._recursivelyFind. rewrite Ht. simpl.
  rewrite (find_spec _ _ VNull "") by done. rewrite counted_without_expression by done.
  unfold elements_above. by destruct (filter _ _).
Qed.

(** Property X21.  [Event.findElement] with a selector returns the element
    the event came from when that matches, and otherwise what [Element.up]
    finds from there: nothing confines the search to the observed element. *)
Theorem findElement_is_self_or_up ev (s : string) (n : Node) :
  valid_selector dom s = true → s ≠ "" →
  _element dom ev = Normal (Some n) →
  findElement dom ev (VString s) =
  if isElement dom n && matches dom n s then Normal (Some n)
  else Element.up dom n (Some (VString s)) None.
Proof.
  intros Hv Hs Hn. rewrite (findElement_nearest dom ev s n Hv Hs Hn).
  rewrite (ancestors_head n). simpl. unfold selects at 1.
  destruct (isElement dom n && matches dom n s); [done|].
  unfold Element.up, Element._recursivelyFind. simpl.
  destruct (String.eqb_spec s "") as [->|_]; [done|]. simpl.
  rewrite (find_spec _ _ (VString s) s); [|done|done]. f_equal.
  apply find_filter_0. intros x. unfold selects, counted. simpl.
  destruct (String.eqb_spec s "") as [->|_]; [done|]. simpl.
  rewrite andb_true_iff. split.
  - intros [-> ->]. done.
  - intros [H1 H2]. split; [by apply Is_true_true|apply Is_true_true; by apply H2].
Qed.

End Climb.

(** ** Element.Storage and Element.purge *)

Section Stored.
Context {H : Type} `{!Hash H}.
Implicit Types Storage : gmap nat H.

Lemma getStorage_spec n Storage w :
  Element.getStorage n Storage w = Ok (the_uid w n, with_hash (the_uid w n) Storage) (touch n w).
Proof.
  unfold Element.getStorage. unfold_M. by rewrite getUniqueElementID_touch.
Qed.

Lemma with_hash_lookup uid Storage :
  default H_new (with_hash uid Storage !! uid) = default H_new (Storage !! uid).
Proof.
  unfold with_hash. destruct (Storage !! uid) eqn:Hs; [by rewrite Hs|].
  by rewrite lookup_insert_eq.
Qed.

Lemma with_hash_is_Some uid Storage : is_Some (with_hash uid Storage !! uid).
Proof.
  unfold with_hash. destruct (Storage !! uid) eqn:Hs; [by rewrite Hs|].
  by rewrite lookup_insert_eq.
Qed.

Lemma with_hash_ne uid uid' Storage :
  uid ≠ uid' → with_hash uid Storage !! uid' = Storage !! uid'.
Proof.
  intros Hne. unfold with_hash. destruct (Storage !! uid); [done|].
  by rewrite lookup_insert_ne.
Qed.

Lemma with_hash_idem uid Storage :
  is_Some (Storage !! uid) → with_hash uid Storage = Storage.
Proof. intros [h Hh]. unfold with_hash. by rewrite Hh. Qed.

Lemma store_spec n key value Storage w :
  Element.store n (KeyValue key value) Storage w =
  Ok (n, alter (λ storage, H_set storage key value) (the_uid w n)
           (with_hash (the_uid w n) Storage)) (touch n w).
Proof.
  unfold Element.store. unfold_M. by rewrite getStorage_spec.
Qed.

Lemma retrieve_spec n key defaultValue Storage w :
  Element.retrieve n key defaultValue Storage w =
  let uid := the_uid w n in
  let value := H_get (default H_new (Storage !! uid)) key in
  Ok (if isUndefined value
      then (defaultValue,
            alter (λ storage, H_set storage key defaultValue) uid (with_hash uid Storage))
      else (value, with_hash uid Storage)) (touch n w).
Proof.
  unfold Element.retrieve. unfold_M. rewrite getStorage_spec. cbv zeta.
  rewrite with_hash_lookup. by destruct (isUndefined _).
Qed.

Lemma isUndefined_false value : value ≠ VUndefined → isUndefined value = false.
Proof. by destruct value. Qed.

(** Property X22.  [retrieve] reads what [store] wrote under the key,
    whatever default is passed, and leaves the storage as it is. *)
Theorem store_then_retrieve n key value defaultValue Storage w :
  value ≠ VUndefined →
  ∃ Storage1 w1,
    Element.store n (KeyValue key value) Storage w = Ok (n, Storage1) w1
    ∧ Element.retrieve n key defaultValue Storage1 w1 = Ok (value, Storage1) w1.
Proof.
  intros Hv. eexists _, _. split; [apply store_spec|].
  rewrite retrieve_spec. cbv zeta. rewrite the_uid_touch, touch_idem.
  destruct (with_hash_is_Some (the_uid w n) Storage) as [h Hh].
  rewrite lookup_alter_eq, Hh. simpl. rewrite H_get_set, isUndefined_false by done.
  rewrite with_hash_idem; [done|]. rewrite lookup_alter_eq, Hh. by eexists.
Qed.

(** Property X23.  [retrieve] of a key that holds no value returns the
    default and stores it: from then on it is the value of the key, whatever
    default is passed later. *)
Theorem retrieve_default_sticks n key defaultValue defaultValue' Storage w :
  defaultValue ≠ VUndefined →
  H_get (default H_new (Storage !! the_uid w n)) key = VUndefined →
  ∃ Storage1 w1,
    Element.retrieve n key defaultValue Storage w = Ok (defaultValue, Storage1) w1
    ∧ Element.retrieve n key defaultValue' Storage1 w1 = Ok (defaultValue, Storage1) w1.
Proof.
  intros Hd Hunset. eexists _, _. split.
  { rewrite retrieve_spec. cbv zeta. rewrite Hunset. simpl. done. }
  rewrite retrieve_spec. cbv zeta. rewrite the_uid_touch, touch_idem.
  destruct (with_hash_is_Some (the_uid w n) Storage) as [h Hh].
  rewrite lookup_alter_eq, Hh. simpl. rewrite H_get_set, isUndefined_false by done.
  rewrite with_hash_idem; [done|]. rewrite lookup_alter_eq, Hh. by eexists.
Qed.

Lemma storage_known_store n key value Storage w :
  consistent w → storage_known Storage w →
  storage_known (alter (λ storage, H_set storage key value) (the_uid w n)
                   (with_hash (the_uid w n) Storage)) (touch n w)
  ∧ the_uid w n < UID (touch n w).
Proof.
  intros C Hk.
  assert (the_uid w n < UID (touch n w)) as Hlt.
  { pose proof (consistent_touch n w C) as C1. pose proof (identity_touch n w) as Hi.
    destruct (decide (n = window)) as [->|Hne].
    - apply (uid_positive _ C1).
    - unfold identity in Hi. rewrite decide_False in Hi by done.
      apply (uid_range _ C1) in Hi. lia. }
  split; [|done]. intros uid [h Hh].
  destruct (decide (uid = the_uid w n)) as [->|Hne]; [done|].
  rewrite lookup_alter_ne, with_hash_ne in Hh by done.
  assert (uid < UID w) by (apply Hk; eauto).
  assert (UID w ≤ UID (touch n w))%nat; [|lia].
  unfold touch. destruct (decide (n = window)); [done|].
  destruct (prototypeUID w !! n); simpl; lia.
Qed.

Lemma the_uid_other n m w :
  consistent w → n ≠ m →
  the_uid (touch n w) m ≠ the_uid w n
  ∧ (the_uid (touch n w) m = the_uid w m ∨ ((UID w ≤ the_uid w m)%nat ∧ (UID w ≤ the_uid (touch n w) m)%nat)).
Proof.
  intros C Hne.
  pose proof (consistent_touch n w C) as C1.
  pose proof (consistent_touch m _ C1) as C2.
  pose proof (identity_touch n w) as Hn1.
  pose proof (identity_touch m (touch n w)) as Hm2.
  pose proof (identity_touch_mono m n _ _ Hn1) as Hn2.
  split.
  - intros Heq. rewrite Heq in Hm2. apply Hne. by apply (identity_inj _ n m _ C2 Hn2 Hm2).
  - destruct (identity w m) as [v|] eqn:Hm.
    + left. destruct (identity_the_uid _ _ _ Hm) as [-> _].
      pose proof (identity_touch_mono n m _ _ Hm) as Hm1.
      by destruct (identity_the_uid _ _ _ Hm1) as [-> _].
    + right. unfold identity in Hm. destruct (decide (m = window)) as [|Hw]; [done|].
      unfold the_uid. rewrite !decide_False by done. rewrite Hm. simpl. split; [lia|].
      unfold touch. destruct (decide (n = window)); [by rewrite Hm|].
      destruct (prototypeUID w !! n) eqn:Hpn; simpl.
      * by rewrite Hm.
      * rewrite lookup_insert_ne, Hm by done. simpl. lia.
Qed.

(** Property X24.  What is stored on one node does not show on another:
    [retrieve] on [m] returns after [store] on [n] what it would have
    returned before. *)
Theorem storage_is_per_element n m key value Storage w :
  consistent w → storage_known Storage w → n ≠ m →
  ∃ Storage1 w1,
    Element.store n (KeyValue key value) Storage w = Ok (n, Storage1) w1
    ∧ ∀ key' defaultValue,
        fst <$> returned (Element.retrieve m key' defaultValue Storage1 w1)
        = fst <$> returned (Element.retrieve m key' defaultValue Storage w).
Proof.
  intros C Hk Hne. eexists _, _. split; [apply store_spec|].
  intros key' d. rewrite !retrieve_spec. cbv zeta.
  destruct (the_uid_other n m w C Hne) as [Hdiff Hcases].
  rewrite lookup_alter_ne, with_hash_ne by done.
  assert (default H_new (Storage !! the_uid (touch n w) m)
          = default H_new (Storage !! the_uid w m)) as ->.
  { destruct Hcases as [->|[H1 H2]]; [done|].
    assert (∀ u, (UID w ≤ u)%nat → Storage !! u = None) as Hnone.
    { intros u Hu. destruct (Storage !! u) eqn:Hs; [|done].
      assert (u < UID w) by (apply Hk; eauto). lia. }
    by rewrite !Hnone. }
  simpl. by destruct (isUndefined _).
Qed.

(** *** purge *)

Lemma consistent_forgotten n w :
  consistent w → n ≠ window →
  (∀ uid, identity w n = Some uid → cache w !! uid = None) →
  listeners_of w n = [] →
  consistent (forgotten n w)
  ∧ identity (forgotten n w) n = None
  ∧ (∀ k, entries_of (forgotten n w) n k = [])
  ∧ ∀ m, m ≠ n → identity (forgotten n w) m = identity w m
               ∧ ∀ k, entries_of (forgotten n w) m k = entries_of w m k.
Proof.
  intros C Hn Hnone HL.
  assert (identity (forgotten n w) n = None) as Hidn.
  { unfold identity. rewrite decide_False by done. simpl. apply lookup_delete_eq. }
  assert (∀ m, m ≠ n → identity (forgotten n w) m = identity w m) as Hid.
  { intros m Hm. unfold identity. destruct (decide (m = window)); [done|]. simpl.
    by rewrite lookup_delete_ne. }
  assert (∀ m k, m ≠ n → entries_of (forgotten n w) m k = entries_of w m k) as Hent.
  { intros m k Hm. unfold entries_of. by rewrite Hid. }
  assert (∀ k, entries_of (forgotten n w) n k = []) as Hentn.
  { intros k. unfold entries_of. by rewrite Hidn. }
  split; [|by eauto 10].
  split; simpl.
  - apply C.
  - intros m u [Hm Hu]%lookup_delete_Some. by apply (uid_range w C).
  - intros m1 m2 u [_ H1]%lookup_delete_Some [_ H2]%lookup_delete_Some.
    by apply (uid_inj w C m1 m2 u).
  - intros u r Hc. destruct (cache_owner w C u r Hc) as (m & Hm & Hel).
    exists m. split; [|done]. rewrite Hid; [done|]. intros ->.
    rewrite (Hnone u Hm) in Hc. done.
  - apply (cache_buckets w C).
  - apply (cache_nonempty w C).
  - intros m k. change (listeners_of (forgotten n w) m) with (listeners_of w m).
    destruct (decide (m = n)) as [->|Hm].
    + by rewrite Hentn, HL.
    + rewrite Hent by done. apply (listeners_sync w C).
Qed.

(** The outcome of [purgeElement] on a node other than the window. *)
Lemma purgeElement_spec n Storage w :
  consistent w → n ≠ window →
  ∃ w', Element.purgeElement n Storage w = Ok (delete (the_uid w n) Storage) w'
        ∧ consistent w'
        ∧ UID w' = UID (touch n w)
        ∧ identity w' n = None
        ∧ (∀ k, entries_of w' n k = [])
        ∧ listeners_of w' n = []
        ∧ ∀ m, m ≠ n →
            identity w' m = identity w m
            ∧ (∀ k, entries_of w' m k = entries_of w m k)
            ∧ listeners_of w' m = listeners_of w m.
Proof.
  intros C Hn.
  pose proof (consistent_touch n w C) as C0.
  pose proof (identity_touch n w) as Hi0.
  destruct (stop_all_touched n (touch n w) _ C0 Hi0) as (w1 & Hstop & R).
  pose proof (cleared_consistent n _ w1 C0 R) as C1.
  destruct (identity_the_uid _ _ _ Hi0) as [Hu Ht]. rewrite the_uid_touch in Hu.
  assert (identity w1 n = Some (the_uid w n)) as Hi1.
  { rewrite <- Hi0. unfold identity. by rewrite (cl_prototypeUID _ _ _ R), Ht. }
  assert (listeners_of w1 n = []) as HL1.
  { rewrite (cl_listeners _ _ _ R). by case_decide. }
  destruct (consistent_forgotten n w1 C1 Hn) as (C2 & Hidn & Hentn & Hother).
  { intros uid Hid. rewrite Hi1 in Hid. injection Hid as <-.
    rewrite (cl_cache _ _ _ R), the_uid_touch. apply lookup_delete_eq. }
  { done. }
  exists (forgotten n w1). split.
  { unfold Element.purgeElement, Element.reset_prototypeUID. unfold_M.
    rewrite getUniqueElementID_touch.
    assert (the_uid w n ≠ 0) as Hnz.
    { unfold identity in Hi0. rewrite decide_False in Hi0 by done.
      apply (uid_range _ C0) in Hi0. lia. }
    rewrite bool_decide_eq_false_2 by done. by rewrite Hstop. }
  split; [done|]. split; [simpl; by rewrite (cl_UID _ _ _ R), Ht|].
  split; [done|]. split; [done|]. split; [done|].
  intros m Hm. destruct (Hother m Hm) as [Hid Hent].
  pose proof (cleared_entries n _ w1 _ C0 Hi0 R) as Hent1.
  split; [|split].
  - rewrite Hid. transitivity (identity (touch n w) m).
    { unfold identity. by rewrite (cl_prototypeUID _ _ _ R), Ht. }
    destruct (identity w m) as [v|] eqn:Hmv.
    + by apply identity_touch_mono.
    + destruct (identity (touch n w) m) as [v|] eqn:Hmv'; [|done].
      apply identity_touch_inv in Hmv' as [?|(-> & _)]; [congruence|done].
  - intros k. by rewrite Hent, Hent1, decide_False, entries_of_touch.
  - change (listeners_of (forgotten n w1) m) with (listeners_of w1 m).
    rewrite (cl_listeners _ _ _ R), decide_False by done. apply listeners_of_touch.
Qed.

(** Property X25.  [purgeElement] leaves an element other than the window
    without identity, bindings, listeners and storage, and every other node
    as it was. *)
Theorem purgeElement_clears n Storage w :
  consistent w → n ≠ window →
  ∃ Storage' w',
    Element.purgeElement n Storage w = Ok Storage' w'
    ∧ consistent w'
    ∧ identity w' n = None
    ∧ (∀ k, entries_of w' n k = [])
    ∧ listeners_of w' n = []
    ∧ (∀ uid, identity w n = Some uid → Storage' !! uid = None)
    ∧ ∀ m, m ≠ n →
        identity w' m = identity w m
        ∧ (∀ k, entries_of w' m k = entries_of w m k)
        ∧ listeners_of w' m = listeners_of w m
        ∧ ∀ uid, identity w m = Some uid → Storage' !! uid = Storage !! uid.
Proof.
  intros C Hn.
  destruct (purgeElement_spec n Storage w C Hn)
    as (w' & Hrun & C' & _ & Hid & Hent & HL & Hother).
  exists (delete (the_uid w n) Storage), w'. do 5 (split; [done|]). split.
  - intros uid Hi. destruct (identity_the_uid _ _ _ Hi) as [-> _]. apply lookup_delete_eq.
  - intros m Hm. destruct (Hother m Hm) as (? & ? & ?). do 3 (split; [done|]).
    intros uid Hi. apply lookup_delete_ne. intros Heq.
    destruct (the_uid_other n m w C) as [Hdiff _]; [done|]. apply Hdiff.
    rewrite Heq. pose proof (identity_touch_mono n m _ _ Hi) as Hi1.
    by destruct (identity_the_uid _ _ _ Hi1) as [-> _].
Qed.

(** Property X26.  After [purgeElement] an element gets an identity that no
    node has had before: the numbers are not given out twice. *)
Theorem purged_element_gets_new_identity n Storage w :
  consistent w → n ≠ window →
  ∃ Storage' w' uid w'',
    Element.purgeElement n Storage w = Ok Storage' w'
    ∧ getUniqueElementID n w' = Ok uid w''
    ∧ (UID w ≤ uid)%nat
    ∧ ∀ m uid', identity w m = Some uid' → uid' ≠ uid.
Proof.
  intros C Hn.
  destruct (purgeElement_spec n Storage w C Hn)
    as (w' & Hrun & C' & HU & Hid & _).
  exists (delete (the_uid w n) Storage), w', (the_uid w' n), (touch n w').
  split; [done|]. split; [apply getUniqueElementID_touch|].
  assert (the_uid w' n = UID w') as ->.
  { unfold identity in Hid. rewrite decide_False in Hid by done.
    unfold the_uid. rewrite decide_False by done. by rewrite Hid. }
  assert (UID w ≤ UID w')%nat as Hle.
  { rewrite HU. unfold touch. destruct (decide (n = window)); [done|].
    destruct (prototypeUID w !! n); simpl; lia. }
  split; [done|]. intros m uid' Hm. unfold identity in Hm.
  destruct (decide (m = window)) as [->|Hw].
  - injection Hm as <-. pose proof (uid_positive w C). lia.
  - apply (uid_range w C) in Hm. lia.
Qed.

(** Property X27.  What was stored on an element is gone after
    [purgeElement]: [retrieve] returns the default. *)
Theorem purgeElement_wipes_storage n key value defaultValue Storage w :
  consistent w → storage_known Storage w → n ≠ window →
  ∃ Storage1 w1 Storage2 w2 Storage3 w3,
    Element.store n (KeyValue key value) Storage w = Ok (n, Storage1) w1
    ∧ Element.purgeElement n Storage1 w1 = Ok Storage2 w2
    ∧ Element.retrieve n key defaultValue Storage2 w2 = Ok (defaultValue, Storage3) w3.
Proof.
  intros C Hk Hn.
  pose proof (consistent_touch n w C) as C1.
  destruct (storage_known_store n key value Storage w C Hk) as [Hk1 Hlt].
  destruct (purgeElement_spec n
              (alter (λ storage, H_set storage key value) (the_uid w n)
                 (with_hash (the_uid w n) Storage)) (touch n w) C1 Hn)
    as (w2 & Hrun & C2 & HU & Hid & _).
  eexists _, _, _, w2, _, _. split; [apply store_spec|]. split; [exact Hrun|].
  rewrite retrieve_spec. cbv zeta.
  assert (the_uid w2 n = UID w2) as ->.
  { unfold identity in Hid. rewrite decide_False in Hid by done.
    unfold the_uid. rewrite decide_False by done. by rewrite Hid. }
  rewrite touch_idem in HU.
  rewrite lookup_delete_ne by (rewrite the_uid_touch, HU; lia).
  assert (∀ S1 : gmap nat H, storage_known S1 (touch n w) → S1 !! UID w2 = None) as Hnone.
  { intros S1 HS1. destruct (S1 !! UID w2) eqn:Hs; [|done].
    assert (UID w2 < UID (touch n w)) by (apply HS1; eauto). lia. }
  rewrite (Hnone _ Hk1). simpl. rewrite H_get_new. simpl. done.
Qed.

Lemma purge_each_spec (l : list Node) Storage w :
  consistent w → Forall (λ m, m ≠ window) l →
  ∃ Storage' w',
    Element.purge_each l Storage w = Ok Storage' w'
    ∧ consistent w'
    ∧ (∀ uid h, Storage' !! uid = Some h → Storage !! uid = Some h)
    ∧ (∀ m, m ∈ l →
         identity w' m = None ∧ (∀ k, entries_of w' m k = []) ∧ listeners_of w' m = []
         ∧ ∀ uid, identity w m = Some uid → Storage' !! uid = None)
    ∧ ∀ m, m ∉ l →
        identity w' m = identity w m
        ∧ (∀ k, entries_of w' m k = entries_of w m k)
        ∧ listeners_of w' m = listeners_of w m.
Proof.
  revert Storage w. induction l as [|a l IH]; intros Storage w C Hl.
  - exists Storage, w. split; [done|]. split; [done|]. split; [done|]. split; [|done].
    intros m Hm. by apply elem_of_nil in Hm.
  - apply Forall_cons in Hl as [Ha Hl].
    destruct (purgeElement_spec a Storage w C Ha)
      as (w1 & Hrun & C1 & _ & Hid1 & Hent1 & HL1 & Hother1).
    destruct (IH (delete (the_uid w a) Storage) w1 C1 Hl)
      as (Storage' & w' & Hrest & C' & Hsub & Hin & Hout).
    exists Storage', w'. split.
    { simpl. unfold_M. by rewrite Hrun. }
    split; [done|]. split.
    { intros uid h Hs. apply Hsub in Hs. by apply lookup_delete_Some in Hs as [_ ?]. }
    split.
    + intros m Hm. destruct (decide (m ∈ l)) as [Hml|Hml].
      * destruct (Hin m Hml) as (? & ? & ? & Hst). do 3 (split; [done|]).
        intros uid Hi. destruct (decide (m = a)) as [->|Hma].
        -- destruct (identity_the_uid _ _ _ Hi) as [Hu _].
           destruct (Storage' !! uid) as [h|] eqn:Hs; [|done].
           apply Hsub in Hs. rewrite <- Hu, lookup_delete_eq in Hs. done.
        -- apply Hst. by rewrite (proj1 (Hother1 m Hma)).
      * apply elem_of_cons in Hm as [->|Hm]; [|done].
        destruct (Hout a Hml) as (Hi' & He' & HL').
        split; [by rewrite Hi'|]. split; [intros k; by rewrite He'|].
        split; [by rewrite HL'|].
        intros uid Hi. destruct (identity_the_uid _ _ _ Hi) as [Hu _].
        destruct (Storage' !! uid) as [h|] eqn:Hs; [|done].
        apply Hsub in Hs. rewrite <- Hu, lookup_delete_eq in Hs. done.
    + intros m Hm. apply not_elem_of_cons in Hm as [Hma Hml].
      destruct (Hout m Hml) as (Hi' & He' & HL').
      destruct (Hother1 m Hma) as (Hi1 & He1 & HL1').
      split; [by rewrite Hi', Hi1|]. split; [intros k; by rewrite He', He1|].
      by rewrite HL', HL1'.
Qed.

(** Property X28.  [purge] leaves the element and every element the platform
    lists below it without identity, bindings, listeners and storage; no
    other node is touched. *)
Theorem purge_clears_the_subtree (getElementsByTagName : Node → list Node) n Storage w :
  consistent w → Forall (λ m, m ≠ window) (n :: getElementsByTagName n) →
  ∃ Storage' w',
    Element.purge getElementsByTagName n Storage w = Ok Storage' w'
    ∧ consistent w'
    ∧ (∀ m, m ∈ n :: getElementsByTagName n →
         identity w' m = None ∧ (∀ k, entries_of w' m k = []) ∧ listeners_of w' m = []
         ∧ ∀ uid, identity w m = Some uid → Storage' !! uid = None)
    ∧ ∀ m, m ∉ n :: getElementsByTagName n →
        identity w' m = identity w m
        ∧ (∀ k, entries_of w' m k = entries_of w m k)
        ∧ listeners_of w' m = listeners_of w m.
Proof.
  intros C Hl.
  destruct (purge_each_spec (n :: reverse (getElementsByTagName n)) Storage w C)
    as (Storage' & w' & Hrun & C' & _ & Hin & Hout).
  { apply Forall_cons in Hl as [Hn Hl]. apply Forall_cons. split; [done|].
    by apply Forall_reverse. }
  exists Storage', w'. split; [done|]. split; [done|]. split.
  - intros m Hm. apply Hin. apply elem_of_cons in Hm as [->|Hm]; [left|right].
    by apply elem_of_reverse.
  - intros m Hm. apply Hout. intros Hx. apply Hm.
    apply elem_of_cons in Hx as [->|Hx]; [left|right]. by rewrite elem_of_reverse in Hx.
Qed.

(** Property X29.  [stopObserving] destroys the registry of an element and
    leaves what is stored on it alone. *)
Theorem storage_survives_stopObserving n key value defaultValue Storage w :
  consistent w → value ≠ VUndefined →
  ∃ Storage1 w1 w2,
    Element.store n (KeyValue key value) Storage w = Ok (n, Storage1) w1
    ∧ stopObserving n None None w1 = Ok n w2
    ∧ Element.retrieve n key defaultValue Storage1 w2 = Ok (value, Storage1) w2.
Proof.
  intros C Hv.
  pose proof (consistent_touch n w C) as C1.
  pose proof (identity_touch n w) as Hi1.
  destruct (stop_all_touched n (touch n w) _ C1 Hi1) as (w2 & Hstop & R).
  assert (identity w2 n = Some (the_uid w n)) as Hi2.
  { rewrite <- Hi1. unfold identity. by rewrite (cl_prototypeUID _ _ _ R), touch_idem. }
  destruct (identity_the_uid _ _ _ Hi2) as [Hu Ht].
  eexists _, _, w2. split; [apply store_spec|]. split; [exact Hstop|].
  rewrite retrieve_spec. cbv zeta. rewrite Hu, Ht.
  destruct (with_hash_is_Some (the_uid w n) Storage) as [h Hh].
  rewrite lookup_alter_eq, Hh. simpl. rewrite H_get_set, isUndefined_false by done.
  rewrite with_hash_idem; [done|]. rewrite lookup_alter_eq, Hh. by eexists.
Qed.
End Stored.

(** ** Purged elements stay silent *)

Section Silence.
Context {H : Type} `{!Hash H}.

(** Property X30.  After [purgeElement] no event calls a handler that was
    bound on the purged element only. *)
Theorem purged_element_is_silent dom effect n h (Storage : gmap nat H) w :
  passive effect → consistent w → n ≠ window →
  (∀ M k, bound w M k h → M = n) →
  ∃ Storage' w',
    Element.purgeElement n Storage w = Ok Storage' w'
    ∧ ∀ target ev, calls_of h (dispatchEvent dom effect target ev w').1.2 = [].
Proof.
  intros Hp C Hn Honly.
  destruct (purgeElement_spec n Storage w C Hn)
    as (w' & Hrun & C' & _ & _ & Hent & _ & Hother).
  eexists _, w'. split; [exact Hrun|].
  intros target ev. rewrite dispatchEvent_passive by done.
  apply no_calls_unbound; [done|]. intros M k _ _ Hb. unfold bound in Hb.
  destruct (decide (M = n)) as [->|HM].
  - rewrite Hent in Hb. by apply elem_of_nil in Hb.
  - destruct (Hother M HM) as (_ & HentM & _). rewrite HentM in Hb.
    by apply Honly in Hb.
Qed.
End Silence.

(** ** The further properties at concrete inputs *)

Lemma consistent_both_world : consistent Page.both_world.
Proof. unfold Page.both_world. reached. Qed.

Lemma closures_known_initial : closures_known initial.
Proof. intros M k id el en s cb Hb. by apply bound_initial in Hb. Qed.

Lemma storage_known_empty (w : World) : storage_known (∅ : gmap nat (gmap string Value)) w.
Proof. intros uid [h Hh]. by rewrite lookup_empty in Hh. Qed.

Lemma stopObserving_element_clears_witness :
  ∃ w', stopObserving Page.ul None None Samples.list_world = Ok Page.ul w'
        ∧ consistent w'
        ∧ (∀ k, entries_of w' Page.ul k = [])
        ∧ listeners_of w' Page.ul = []
        ∧ ¬ has_entry w' Page.ul
        ∧ ∀ m, m ≠ Page.ul →
            (∀ k, entries_of w' m k = entries_of Samples.list_world m k)
            ∧ listeners_of w' m = listeners_of Samples.list_world m.
Proof. apply stopObserving_element_clears. apply consistent_list_world. Defined.

Lemma stopObserving_eventName_clears_witness :
  ∃ w', stopObserving Page.ul (Some "click") None Samples.list_world = Ok Page.ul w'
        ∧ consistent w'
        ∧ entries_of w' Page.ul "click" = []
        ∧ listeners_of w' Page.ul
          = filter (λ l, ¬ named "click" l) (listeners_of Samples.list_world Page.ul)
        ∧ (∀ m k', ¬ (m = Page.ul ∧ k' = "click") →
             entries_of w' m k' = entries_of Samples.list_world m k')
        ∧ ∀ m, m ≠ Page.ul → listeners_of w' m = listeners_of Samples.list_world m.
Proof.
  apply stopObserving_eventName_clears; [apply consistent_list_world|].
  split; [discriminate|reflexivity].
Defined.

Lemma stopObserving_unbound_changes_nothing_witness :
  ∃ w', stopObserving Page.ul (Some "click") (Some (UserFn 2)) Samples.list_world
        = Ok Page.ul w'
        ∧ consistent w'
        ∧ (∀ m k', entries_of w' m k' = entries_of Samples.list_world m k')
        ∧ (∀ m, listeners_of w' m = listeners_of Samples.list_world m)
        ∧ (has_entry w' Page.ul ↔ has_entry Samples.list_world Page.ul).
Proof.
  apply stopObserving_unbound_changes_nothing; [apply consistent_list_world| |].
  - split; [discriminate|reflexivity].
  - apply (bool_decide_unpack _). vm_compute. exact I.
Defined.

Lemma observe_adds_one_binding_witness :
  ∃ w' new, observe Page.ul "click" (UserFn 2) Samples.list_world = Ok Page.ul w'
        ∧ consistent w'
        ∧ entries_of w' Page.ul "click" = entries_of Samples.list_world Page.ul "click" ++ new
        ∧ listeners_of w' Page.ul
          = listeners_of Samples.list_world Page.ul ++ (listener_of "click" <$> new)
        ∧ (if decide (bound Samples.list_world Page.ul "click" (UserFn 2)) then new = []
           else ∃ e, new = [e] ∧ handler e = UserFn 2)
        ∧ (∀ m k', ¬ (m = Page.ul ∧ k' = "click") →
             entries_of w' m k' = entries_of Samples.list_world m k')
        ∧ ∀ m, m ≠ Page.ul → listeners_of w' m = listeners_of Samples.list_world m.
Proof.
  apply observe_adds_one_binding; [apply consistent_list_world|].
  split; [discriminate|reflexivity].
Defined.

Lemma observe_stopObserving_restores_witness :
  ∃ w1 w2, observe Page.ul "click" (UserFn 2) Samples.list_world = Ok Page.ul w1
        ∧ stopObserving Page.ul (Some "click") (Some (UserFn 2)) w1 = Ok Page.ul w2
        ∧ bound w1 Page.ul "click" (UserFn 2)
        ∧ (∀ m k', entries_of w2 m k' = entries_of Samples.list_world m k')
        ∧ ∀ m, listeners_of w2 m = listeners_of Samples.list_world m.
Proof.
  apply observe_stopObserving_restores; [apply consistent_list_world| |].
  - split; [discriminate|reflexivity].
  - apply (bool_decide_unpack _). vm_compute. exact I.
Defined.

Lemma listeners_mirror_registry_witness :
  ∃ w, run_ops [ Observe Page.ul "click" (UserFn 1);
                 Observe Page.ul "app:ready" (UserFn 1);
                 Observe Page.item "click" (UserFn 2);
                 StopObserving Page.ul (Some "click") (Some (UserFn 1)) ] initial = Ok tt w
       ∧ ∀ n, NoDup (listeners_of w n)
              ∧ ∀ l, l ∈ listeners_of w n ↔
                     ∃ k e, e ∈ entries_of w n k ∧ l = listener_of k e.
Proof.
  apply listeners_mirror_registry. apply (bool_decide_unpack _). vm_compute. exact I.
Defined.

Lemma registries_well_formed_witness :
  ∃ w, run_ops [ Observe Page.ul "click" (UserFn 1);
                 Observe Page.ul "app:ready" (UserFn 1);
                 Observe Page.item "click" (UserFn 2);
                 StopObserving Page.ul (Some "click") (Some (UserFn 1)) ] initial = Ok tt w
       ∧ ∀ uid registry, cache w !! uid = Some registry →
           (∃ n, identity w n = Some uid ∧ registry !! "element" = Some (SElement n))
           ∧ (∃ k, k ≠ "element" ∧ is_Some (registry !! k))
           ∧ ∀ k slot, k ≠ "element" → registry !! k = Some slot →
               ∃ entries, slot = SEntries entries ∧ entries ≠ []
                 ∧ NoDup (handler <$> entries)
                 ∧ ∀ e, e ∈ entries →
                     r_uid (responder e) = uid ∧ r_eventName (responder e) = k
                     ∧ r_handler (responder e) = handler e.
Proof.
  apply registries_well_formed. apply (bool_decide_unpack _). vm_compute. exact I.
Defined.

Lemma registry_entry_iff_binding_witness :
  ∃ w, run_ops [ Observe Page.ul "click" (UserFn 1);
                 Observe Page.ul "app:ready" (UserFn 2);
                 Observe Page.ul "click" (UserFn 1);
                 StopObserving Page.ul (Some "click") (Some (UserFn 1));
                 StopObserving Page.ul (Some "app:ready") None;
                 Observe Page.item "click" (UserFn 1);
                 StopObserving Page.item None None ] initial = Ok tt w
       ∧ entry_iff_binding w.
Proof.
  apply registry_entry_iff_binding.
  apply (bool_decide_unpack _). vm_compute. exact I.
Defined.

Lemma identities_stable_and_distinct_witness :
  ∃ u w1 v w2,
    getUniqueElementID Page.span Samples.list_world = Ok u w1
    ∧ getUniqueElementID Page.ul w1 = Ok v w2
    ∧ getUniqueElementID Page.span w2 = Ok u w2
    ∧ (u = v ↔ Page.span = Page.ul)
    ∧ (u = 0 ↔ Page.span = window).
Proof. apply identities_stable_and_distinct. apply consistent_list_world. Defined.

Lemma handlers_called_on_their_element_witness :
  ∃ M k, M ∈ event_path Page.dom (ev_type Page.click) (ev_bubbles Page.click) Page.span
         ∧ bound Samples.list_world M k (UserFn 1) ∧ carries k Page.click
         ∧ Some (SElement Page.ul) = Some (SElement M)
         ∧ ev_currentTarget Samples.click_on_span = Some M
         ∧ ev_target Samples.click_on_span = Some Page.span.
Proof.
  apply (handlers_called_on_their_element Page.dom no_effect Samples.list_world
           Page.span Page.click (UserFn 1) (Some (SElement Page.ul)) Samples.click_on_span).
  - apply passive_no_effect.
  - apply consistent_list_world.
  - vm_compute. right. left.
Defined.

Lemma fire_without_bubbling_stays_witness :
  calls_of (UserFn 1)
    (fire Page.dom no_effect Page.span "app:ready" VUndefined (Some false)
       Samples.list_world).1.2 = [].
Proof.
  apply fire_without_bubbling_stays.
  - apply passive_no_effect.
  - apply consistent_list_world.
  - intros k Hb. vm_compute in Hb. inversion Hb.
Defined.

Lemma untagged_dataavailable_ignored_witness :
  calls_of (UserFn 1)
    (dispatchEvent Page.dom no_effect Page.ul
       (mkEvent "dataavailable" true true None None None None) Samples.ready_world).1.2 = [].
Proof.
  apply untagged_dataavailable_ignored.
  - apply passive_no_effect.
  - apply consistent_ready_world.
  - reflexivity.
  - intros M k Hb. apply bound_single in Hb as (_ & -> & _); [done|by split].
Defined.

Lemma on_twice_binds_twice_witness :
  ∃ h1 w1 h2 w2 e1 e2,
    on Page.ul "click" (VString "li.item") (VFunction 9) initial = Ok h1 w1
    ∧ on Page.ul "click" (VString "li.item") (VFunction 9) w1 = Ok h2 w2
    ∧ h_handler h1 ≠ h_handler h2
    ∧ handler e1 = h_handler h1 ∧ handler e2 = h_handler h2
    ∧ entries_of w2 Page.ul "click" = entries_of initial Page.ul "click" ++ [e1; e2]
    ∧ ∀ ev, carries "click" ev →
        let ev' := with_currentTarget (Some Page.ul) (with_target (Some Page.ul) ev) in
        let trace := (dispatchEvent Page.dom no_effect Page.ul ev w2).1.2 in
        calls_of (h_handler h1) trace
        = [HandlerCall (h_handler h1) (Some (SElement Page.ul)) ev']
        ∧ calls_of (h_handler h2) trace
          = [HandlerCall (h_handler h2) (Some (SElement Page.ul)) ev'].
Proof.
  apply on_twice_binds_twice.
  - apply passive_no_effect.
  - apply consistent_initial.
  - apply closures_known_initial.
  - split; [discriminate|reflexivity].
Defined.

Lemma handler_stop_undoes_on_witness :
  ∃ h w1 w2,
    on Page.ul "click" (VString "li.item") (VFunction 9) initial = Ok h w1
    ∧ bound w1 Page.ul "click" (h_handler h)
    ∧ start h w1 = Ok h w1
    ∧ stop h w1 = Ok h w2
    ∧ (∀ M k, entries_of w2 M k = entries_of initial M k)
    ∧ ∀ M, listeners_of w2 M = listeners_of initial M.
Proof.
  apply handler_stop_undoes_on.
  - apply consistent_initial.
  - apply closures_known_initial.
  - split; [discriminate|reflexivity].
Defined.

Lemma findElement_first_match_witness :
  ∃ found, findElement Page.dom Samples.click_on_span (VString "div") = Normal found
    ∧ match found with
      | Some m => ∃ near far, ancestors Page.dom Page.span = near ++ m :: far
                    ∧ isElement Page.dom m = true ∧ matches Page.dom m "div" = true
                    ∧ ∀ x, x ∈ near → isElement Page.dom x && matches Page.dom x "div" = false
      | None => ∀ x, x ∈ ancestors Page.dom Page.span →
                     isElement Page.dom x && matches Page.dom x "div" = false
      end.
Proof. apply findElement_first_match; [reflexivity|discriminate|reflexivity]. Defined.

Lemma up_by_selector_witness :
  Element.up Page.dom Page.span (Some (VString "li.item")) (Some 0%Z)
  = Normal (filter (λ m, matches Page.dom m "li.item") (Element.ancestors Page.dom Page.span)
            !! Z.to_nat (default 0%Z (Some 0%Z))).
Proof. apply up_by_selector; [reflexivity|discriminate]. Defined.

Lemma up_without_expression_ignores_index_witness :
  Element.up Page.dom Page.span (Some VUndefined) (Some 2%Z)
  = Normal (head (Element.ancestors Page.dom Page.span)).
Proof. apply up_without_expression_ignores_index. reflexivity. Defined.

Lemma findElement_is_self_or_up_witness :
  findElement Page.dom Samples.click_on_span (VString "div") =
  if isElement Page.dom Page.span && matches Page.dom Page.span "div"
  then Normal (Some Page.span)
  else Element.up Page.dom Page.span (Some (VString "div")) None.
Proof. apply findElement_is_self_or_up; [reflexivity|discriminate|reflexivity]. Defined.

Lemma store_then_retrieve_witness :
  ∃ (Storage1 : gmap nat (gmap string Value)) w1,
    Element.store Page.ul (KeyValue "color" (VString "red")) ∅ Samples.list_world
    = Ok (Page.ul, Storage1) w1
    ∧ Element.retrieve Page.ul "color" (VString "blue") Storage1 w1
      = Ok (VString "red", Storage1) w1.
Proof. apply store_then_retrieve. discriminate. Defined.

Lemma retrieve_default_sticks_witness :
  ∃ (Storage1 : gmap nat (gmap string Value)) w1,
    Element.retrieve Page.ul "color" (VString "blue") ∅ Samples.list_world
    = Ok (VString "blue", Storage1) w1
    ∧ Element.retrieve Page.ul "color" (VString "green") Storage1 w1
      = Ok (VString "blue", Storage1) w1.
Proof. apply retrieve_default_sticks; [discriminate|reflexivity]. Defined.

Lemma storage_is_per_element_witness :
  ∃ (Storage1 : gmap nat (gmap string Value)) w1,
    Element.store Page.ul (KeyValue "color" (VString "red")) ∅ Samples.list_world
    = Ok (Page.ul, Storage1) w1
    ∧ ∀ key' defaultValue,
        fst <$> returned (Element.retrieve Page.span key' defaultValue Storage1 w1)
        = fst <$> returned (Element.retrieve Page.span key' defaultValue ∅ Samples.list_world).
Proof.
  apply storage_is_per_element; [apply consistent_list_world|apply storage_known_empty|].
  discriminate.
Defined.

Lemma purgeElement_clears_witness :
  ∃ (Storage' : gmap nat (gmap string Value)) w',
    Element.purgeElement Page.ul ∅ Samples.list_world = Ok Storage' w'
    ∧ consistent w'
    ∧ identity w' Page.ul = None
    ∧ (∀ k, entries_of w' Page.ul k = [])
    ∧ listeners_of w' Page.ul = []
    ∧ (∀ uid, identity Samples.list_world Page.ul = Some uid → Storage' !! uid = None)
    ∧ ∀ m, m ≠ Page.ul →
        identity w' m = identity Samples.list_world m
        ∧ (∀ k, entries_of w' m k = entries_of Samples.list_world m k)
        ∧ listeners_of w' m = listeners_of Samples.list_world m
        ∧ ∀ uid, identity Samples.list_world m = Some uid →
                 Storage' !! uid = (∅ : gmap nat (gmap string Value)) !! uid.
Proof. apply purgeElement_clears; [apply consistent_list_world|discriminate]. Defined.

Lemma purged_element_gets_new_identity_witness :
  ∃ (Storage' : gmap nat (gmap string Value)) w' uid w'',
    Element.purgeElement Page.ul ∅ Samples.list_world = Ok Storage' w'
    ∧ getUniqueElementID Page.ul w' = Ok uid w''
    ∧ (UID Samples.list_world ≤ uid)%nat
    ∧ ∀ m uid', identity Samples.list_world m = Some uid' → uid' ≠ uid.
Proof.
  apply purged_element_gets_new_identity; [apply consistent_list_world|discriminate].
Defined.

Lemma purgeElement_wipes_storage_witness :
  ∃ (Storage1 : gmap nat (gmap string Value)) w1 Storage2 w2 Storage3 w3,
    Element.store Page.ul (KeyValue "color" (VString "red")) ∅ Samples.list_world
    = Ok (Page.ul, Storage1) w1
    ∧ Element.purgeElement Page.ul Storage1 w1 = Ok Storage2 w2
    ∧ Element.retrieve Page.ul "color" (VString "blue") Storage2 w2
      = Ok (VString "blue", Storage3) w3.
Proof.
  apply purgeElement_wipes_storage;
    [apply consistent_list_world|apply storage_known_empty|discriminate].
Defined.

Lemma purge_clears_the_subtree_witness :
  ∃ (Storage' : gmap nat (gmap string Value)) w',
    Element.purge Samples.getElementsByTagName Page.ul ∅ Samples.list_world = Ok Storage' w'
    ∧ consistent w'
    ∧ (∀ m, m ∈ Page.ul :: Samples.getElementsByTagName Page.ul →
         identity w' m = None ∧ (∀ k, entries_of w' m k = []) ∧ listeners_of w' m = []
         ∧ ∀ uid, identity Samples.list_world m = Some uid → Storage' !! uid = None)
    ∧ ∀ m, m ∉ Page.ul :: Samples.getElementsByTagName Page.ul →
        identity w' m = identity Samples.list_world m
        ∧ (∀ k, entries_of w' m k = entries_of Samples.list_world m k)
        ∧ listeners_of w' m = listeners_of Samples.list_world m.
Proof.
  apply purge_clears_the_subtree; [apply consistent_list_world|].
  apply (bool_decide_unpack _). vm_compute. exact I.
Defined.

Lemma storage_survives_stopObserving_witness :
  ∃ (Storage1 : gmap nat (gmap string Value)) w1 w2,
    Element.store Page.ul (KeyValue "color" (VString "red")) ∅ Samples.list_world
    = Ok (Page.ul, Storage1) w1
    ∧ stopObserving Page.ul None None w1 = Ok Page.ul w2
    ∧ Element.retrieve Page.ul "color" (VString "blue") Storage1 w2
      = Ok (VString "red", Storage1) w2.
Proof.
  apply storage_survives_stopObserving; [apply consistent_list_world|discriminate].
Defined.

Lemma purged_element_is_silent_witness :
  ∃ (Storage' : gmap nat (gmap string Value)) w',
    Element.purgeElement Page.ul ∅ Samples.ready_world = Ok Storage' w'
    ∧ ∀ target ev,
        calls_of (UserFn 1) (dispatchEvent Page.dom no_effect target ev w').1.2 = [].
Proof.
  apply purged_element_is_silent.
  - apply passive_no_effect.
  - apply consistent_ready_world.
  - discriminate.
  - intros M k Hb. by apply bound_single in Hb as (-> & _); [|by split].
Defined.
